(** * Commit aggregation and session reconstruction of [oops-i-forgot-to-log-my-hours]

    A shallow embedding of the Go command: the per-repository aggregator
    (identity lookup, branch enumeration, cross-branch deduplication, day
    bucketing), the collection of the workers' results, the JSON encoder's
    view of the results and the pretty printer with its block heuristic;
    then the path splitting of the directory walk, the prompt for the
    start date, and the [lsof] command of the same repository.

    Go strings are byte strings: [string] with [String.length] counting
    bytes.  Go maps are [gmap]s; a [nil] map is [None].  Go [int] indices
    are natural numbers where the code keeps them non-negative, a
    [time.Duration] is an [int64] written as [Z] with its wrap-around. *)

From Stdlib Require Import ZArith Lia Ascii String List.
From stdpp Require Import base option list strings gmap sorting.

Local Open Scope Z_scope.

(** ** Byte-level helpers *)

Definition byte_at (c : ascii) : Z := Z.of_N (N_of_ascii c).

(** [s[:n]] for [n <= len(s)]. *)
Definition prefix_slice (n : nat) (s : string) : string := String.substring 0 n s.

Definition bytes (s : string) : list ascii := String.list_ascii_of_string s.

(** ** The parts of Go's [time] package the command calls

    [time.Parse] is called with two layouts: [time.RFC3339]
    ("2006-01-02T15:04:05Z07:00") in [extractDateKey] and
    "2006-01-02T15:04:05" in [parseCommitLocalClock].  [parse] follows the
    library's element-wise parser on these layouts: a four-digit year,
    two-digit month and day, an hour of one or two digits, two-digit minute
    and second, an optional fractional second accepted after the seconds
    even though the layout has none, then (for RFC3339) [Z] or a signed
    [hh:mm] offset, and nothing after it. *)
Module GoTime.

Record Time := mkTime {
  year : Z; month : Z; day : Z;
  hour : Z; minute : Z; second : Z; nsec : Z;
  zoneOffset : Z  (* seconds east of UTC of the location attached by Parse *)
}.

Definition isDigit (c : ascii) : bool :=
  (48 <=? byte_at c) && (byte_at c <=? 57).

Definition digit (c : ascii) : Z := byte_at c - 48.

(** [getnum(s, fixed)]: one or two leading digits, two when [fixed]. *)
Definition getnum (fixed : bool) (s : list ascii) : option (Z * list ascii) :=
  match s with
  | a :: rest =>
      if isDigit a then
        match rest with
        | b :: rest' =>
            if isDigit b then Some (digit a * 10 + digit b, rest')
            else if fixed then None else Some (digit a, rest)
        | [] => if fixed then None else Some (digit a, rest)
        end
      else None
  | [] => None
  end.

(** The [stdLongYear] element: exactly four digits. *)
Definition getyear (s : list ascii) : option (Z * list ascii) :=
  match s with
  | a :: b :: c :: d :: rest =>
      if isDigit a && isDigit b && isDigit c && isDigit d
      then Some (((digit a * 10 + digit b) * 10 + digit c) * 10 + digit d, rest)
      else None
  | _ => None
  end.

(** A literal byte of the layout. *)
Definition lit (c : ascii) (s : list ascii) : option (list ascii) :=
  match s with
  | a :: rest => if Ascii.eqb a c then Some rest else None
  | [] => None
  end.

Definition commaOrPeriod (c : ascii) : bool :=
  Ascii.eqb c "." || Ascii.eqb c ",".

(** Digits of a fractional second: the value of at most nine of them,
    scaled to nanoseconds, and the input after all of them. *)
Fixpoint fracDigits (s : list ascii) (kept : nat) (acc : Z) : Z * list ascii :=
  match s with
  | a :: rest =>
      if isDigit a then
        match kept with
        | O => fracDigits rest O acc
        | S k => fracDigits rest k (acc * 10 + digit a)
        end
      else (acc * 10 ^ Z.of_nat kept, s)
  | [] => (acc * 10 ^ Z.of_nat kept, s)
  end.

Definition fraction (s : list ascii) : Z * list ascii :=
  match s with
  | a :: b :: _ =>
      if commaOrPeriod a && isDigit b then fracDigits (tail s) 9 0 else (0, s)
  | _ => (0, s)
  end.

(** The [stdISO8601ColonTZ] element "Z07:00". *)
Definition zone (s : list ascii) : option (Z * list ascii) :=
  match s with
  | "Z"%char :: rest => Some (0, rest)
  | sg :: h1 :: h2 :: c :: m1 :: m2 :: rest =>
      if negb (Ascii.eqb c ":") then None else
      match getnum true [h1; h2], getnum true [m1; m2] with
      | Some (hr, _), Some (mm, _) =>
          if (24 <? hr) || (60 <? mm) then None else
          let off := (hr * 60 + mm) * 60 in
          if Ascii.eqb sg "+" then Some (off, rest)
          else if Ascii.eqb sg "-" then Some (- off, rest)
          else None
      | _, _ => None
      end
  | _ => None
  end.

Definition isLeap (y : Z) : bool :=
  (y mod 4 =? 0) && (negb (y mod 100 =? 0) || (y mod 400 =? 0)).

Definition daysIn (m y : Z) : Z :=
  if m =? 2 then (if isLeap y then 29 else 28)
  else if (m =? 4) || (m =? 6) || (m =? 9) || (m =? 11) then 30 else 31.

Definition parse (withZone : bool) (value : string) : option Time :=
  '(y, v) ← getyear (bytes value);
  v ← lit "-" v;
  '(mo, v) ← getnum true v;
  v ← lit "-" v;
  '(d, v) ← getnum true v;
  v ← lit "T" v;
  '(h, v) ← getnum false v;
  v ← lit ":" v;
  '(mi, v) ← getnum true v;
  v ← lit ":" v;
  '(s, v) ← getnum true v;
  let '(ns, v) := fraction v in
  '(off, v) ← (if withZone then zone v else Some (0, v));
  match v with
  | [] =>
      if (1 <=? mo) && (mo <=? 12) && (h <? 24) && (mi <? 60) && (s <? 60)
         && (1 <=? d) && (d <=? daysIn mo y)
      then Some (mkTime y mo d h mi s ns off)
      else None
  | _ :: _ => None
  end.

(** [time.Parse(time.RFC3339, value)] *)
Definition parseRFC3339 : string → option Time := parse true.

(** [time.Parse("2006-01-02T15:04:05", value)] *)
Definition parseDateTime : string → option Time := parse false.

Definition digitChar (n : Z) : ascii := ascii_of_N (Z.to_N (48 + n)).

Definition pad2 (n : Z) : string :=
  String (digitChar (n / 10)) (String (digitChar (n mod 10)) EmptyString).

Definition pad4 (n : Z) : string := pad2 (n / 100) +:+ pad2 (n mod 100).

(** [t.Format("2006-01-02")]: the date of [t] in the location [Parse]
    attached to it, which is the date as it was written (every parsed year
    has four digits). *)
Definition formatDate (t : Time) : string :=
  pad4 (year t) +:+ "-" +:+ pad2 (month t) +:+ "-" +:+ pad2 (day t).

(** [t.Format("15:04")] *)
Definition formatClock (t : Time) : string :=
  pad2 (hour t) +:+ ":" +:+ pad2 (minute t).

(** Days from 1970-01-01 to the civil date, proleptic Gregorian. *)
Definition daysFromCivil (y m d : Z) : Z :=
  let y' := if m <=? 2 then y - 1 else y in
  let era := y' / 400 in
  let yoe := y' - era * 400 in
  let doy := (153 * (if 2 <? m then m - 3 else m + 9) + 2) / 5 + d - 1 in
  let doe := yoe * 365 + yoe / 4 - yoe / 100 + doy in
  era * 146097 + doe - 719468.

(** The instant of [t] in nanoseconds since the Unix epoch. *)
Definition unixNano (t : Time) : Z :=
  ((daysFromCivil (year t) (month t) (day t) * 86400
    + hour t * 3600 + minute t * 60 + second t - zoneOffset t) * 1000000000)
  + nsec t.

Definition minDuration : Z := - 2 ^ 63.
Definition maxDuration : Z := 2 ^ 63 - 1.

(** [t.Sub(u)]: the difference as an [int64] of nanoseconds, saturated. *)
Definition Sub (t u : Time) : Z :=
  let d := unixNano t - unixNano u in
  if d <? minDuration then minDuration
  else if maxDuration <? d then maxDuration
  else d.

(** Unary minus on [int64]. *)
Definition neg64 (d : Z) : Z :=
  let r := (- d) mod 2 ^ 64 in
  if r <? 2 ^ 63 then r else r - 2 ^ 64.

End GoTime.


(** ** Data model *)

Record Commit := mkCommit {
  Hash : string;
  AuthorName : string;
  AuthorEmail : string;
  Date : string;       (* ISO 8601 from git (%aI) *)
  Message : string
}.

Global Instance Commit_eq_dec : EqDecision Commit.
Proof. solve_decision. Defined.

Record RepoResult := mkRepoResult {
  Path : string;
  Name : string;
  CommitsByDate : option (gmap string (list Commit))  (* [None] is the nil map *)
}.

Record Flags := mkFlags {
  flagFrom : string;
  flagTo : string;
  flagJSON : bool;
  flagMaxDepth : Z
}.

(** A Go [(T, error)] result; an error is kept as its text. *)
Inductive res (A : Type) : Type :=
| Ok (a : A)
| Err (e : string).
Global Arguments Ok {A} a.
Global Arguments Err {A} e.

(** A line written by [log.Printf] in [Run]. *)
Inductive warning :=
| CouldNotParseDate (date hash : string).

(** ** What the command takes from outside

    The [git] processes it spawns and the library functions it calls whose
    behaviour the development does not fix.  [sort.Slice] is not stable, so
    it is known by its contract only: for a [less] that is a strict weak
    order the result is a permutation of the input in which no element is
    less than an earlier one. *)
Class World := {
  exec_Output : string → list string → res string;
  strings_TrimSpace : string → string;
  strings_EqualFold : string → string → bool;
  filepath_Clean : string → string;
  filepath_Base : string → string;
  sort_Slice : ∀ A : Type, (A → A → bool) → list A → list A;
  sort_Slice_Permutation : ∀ A (less : A → A → bool) l,
    sort_Slice A less l ≡ₚ l;
  sort_Slice_sorted : ∀ A (less : A → A → bool) l,
    (∀ x y, less x y = true → less y x = false) →
    (∀ x y z, less y x = false → less z y = false → less z x = false) →
    StronglySorted (λ x y, less y x = false) (sort_Slice A less l)
}.
Global Arguments sort_Slice {_ _} less l.

(** [strings.Split(s, sep)] for a separator of one byte. *)
Fixpoint Split (sep : ascii) (s : string) : list string :=
  match s with
  | EmptyString => [EmptyString]
  | String c s' =>
      if Ascii.eqb c sep then EmptyString :: Split sep s'
      else match Split sep s' with
           | p :: ps => String c p :: ps
           | [] => [String c EmptyString]
           end
  end.

Definition LF : ascii := ascii_of_nat 10.
Definition US : ascii := ascii_of_nat 31.  (* \x1f, between fields *)
Definition RS : ascii := ascii_of_nat 30.  (* \x1e, after a record *)
Definition ESC : ascii := ascii_of_nat 27. (* \033 *)

Definition extractDateKey (iso : string) : string :=
  match GoTime.parseRFC3339 iso with
  | Some t => GoTime.formatDate t
  | None =>
      if (10 <=? String.length iso)%nat then prefix_slice 10 iso else ""
  end.

(** [sort.Strings] and the [less] closures handed to [sort.Slice]. *)
Definition lessString (a b : string) : bool := String.ltb a b.
Definition lessDate (a b : Commit) : bool := String.ltb (Date a) (Date b).

Section Aggregator.
Context `{W : World}.
Variable flags : Flags.

Definition getGitUserEmail (repoPath : string) : res string :=
  match exec_Output "git" ["-C"; repoPath; "config"; "user.email"] with
  | Err _ => Err ("git user.email not set for repo " +:+ repoPath)
  | Ok out =>
      let email := strings_TrimSpace out in
      if decide (email = "") then Err ("git user.email empty for repo " +:+ repoPath)
      else Ok email
  end.

Definition listBranches (repoPath : string) : res (list string) :=
  match exec_Output "git"
          ["-C"; repoPath; "for-each-ref"; "--format=%(refname:short)"; "refs/heads/"] with
  | Err e => Err e
  | Ok out =>
      let raw := strings_TrimSpace out in
      if decide (raw = "") then Ok [] else Ok (Split LF raw)
  end.

(** One record of the [git log] output, [None] when it is skipped. *)
Definition parseRecord (rec : string) : option Commit :=
  let rec := strings_TrimSpace rec in
  if decide (rec = "") then None else
  match Split US rec with
  | f0 :: f1 :: f2 :: f3 :: f4 :: _ => Some (mkCommit f0 f1 f2 f3 f4)
  | _ => None
  end.

Definition fetchCommitsForBranch (repoPath branch from to : string)
  : res (list Commit) :=
  let format := "%H%x1f%an%x1f%ae%x1f%aI%x1f%s%x1e" in
  match exec_Output "git"
          ["-C"; repoPath; "log"; branch; "--since=" +:+ from;
           "--until=" +:+ to; "--pretty=format:" +:+ format] with
  | Err e => Err e
  | Ok out =>
      let raw := strings_TrimSpace out in
      if decide (raw = "") then Ok []
      else Ok (omap parseRecord (Split RS raw))
  end.

(** The body of the loop over one branch's commits. *)
Definition addCommit (email : string) (commitMap : gmap string Commit) (c : Commit)
  : gmap string Commit :=
  if strings_EqualFold (AuthorEmail c) email then
    match commitMap !! Hash c with
    | Some _ => commitMap
    | None => <[Hash c := c]> commitMap
    end
  else commitMap.

(** The loop over the branches: the hash-keyed map, or the error sent. *)
Fixpoint fetchBranches (repoPath email : string) (branches : list string)
    (commitMap : gmap string Commit) : res (gmap string Commit) :=
  match branches with
  | [] => Ok commitMap
  | br :: rest =>
      match fetchCommitsForBranch repoPath br (flagFrom flags) (flagTo flags) with
      | Err e =>
          Err ("error fetching commits for branch " +:+ br +:+ " in repo "
               +:+ repoPath +:+ ": " +:+ e)
      | Ok commits =>
          fetchBranches repoPath email rest (foldl (addCommit email) commitMap commits)
      end
  end.

(** The body of the loop that fills [commitsByDate]. *)
Definition bucketStep (acc : gmap string (list Commit) * list warning) (c : Commit)
  : gmap string (list Commit) * list warning :=
  let dateKey := extractDateKey (Date c) in
  if decide (dateKey = "") then
    (acc.1, acc.2 ++ [CouldNotParseDate (Date c) (Hash c)])
  else
    (<[dateKey := default [] (acc.1 !! dateKey) ++ [c]]> acc.1, acc.2).

(** [for _, c := range commitMap]: Go leaves the order of a map range
    open; it is the order of [map_to_list], of which nothing is used. *)
Definition bucketCommits (commitMap : gmap string Commit)
  : gmap string (list Commit) * list warning :=
  foldl bucketStep (∅, []) (map_to_list commitMap).*2.

(** What one worker goroutine does with its repository. *)
Inductive outcome :=
| Fatal (msg : string)      (* log.Fatalf: the process exits at once *)
| Failed (err : string)     (* errCh <- err; return *)
| Appended (log : list warning) (r : RepoResult).

Definition worker (repoPath : string) : outcome :=
  let repoName := filepath_Base (filepath_Clean repoPath) in
  match getGitUserEmail repoPath with
  | Err e => Fatal ("could not detect git user email: " +:+ e)
  | Ok email =>
      match listBranches repoPath with
      | Err e => Failed ("unable to list branches for repo " +:+ repoPath +:+ ": " +:+ e)
      | Ok branches =>
          match fetchBranches repoPath email branches ∅ with
          | Err e => Failed e
          | Ok commitMap =>
              let '(commitsByDate, log) := bucketCommits commitMap in
              Appended log
                (mkRepoResult repoPath repoName
                   (Some (sort_Slice lessDate <$> commitsByDate)))
          end
      end
  end.

(** The state after [wg.Wait()], or the exit of a worker's [log.Fatalf]. *)
Inductive collected :=
| Exited (msg : string)
| Waited (results : list RepoResult) (errCh : list string) (log : list warning).

(** The workers in the order in which they finish: each appends to
    [results] under the mutex or sends on [errCh], once. *)
Fixpoint collect (finished : list string) (results : list RepoResult)
    (errCh : list string) (log : list warning) : collected :=
  match finished with
  | [] => Waited results errCh log
  | repoPath :: rest =>
      match worker repoPath with
      | Fatal msg => Exited msg
      | Failed err => collect rest results (errCh ++ [err]) log
      | Appended ws r => collect rest (results ++ [r]) errCh (log ++ ws)
      end
  end.

End Aggregator.

(** ** Structured output

    What [json.NewEncoder(os.Stdout).Encode(results)] writes, as the JSON
    value: the encoder emits struct fields in declaration order under their
    tags, a map as an object with its keys sorted, a slice as an array in
    slice order, and [null] for a nil map or a nil slice. *)
#[local] Unset Elimination Schemes.
Inductive json :=
| JNull
| JString (s : string)
| JArray (items : list json)
| JObject (fields : list (string * json)).
#[local] Set Elimination Schemes.

Definition encodeCommit (c : Commit) : json :=
  JObject [("hash", JString (Hash c)); ("author_name", JString (AuthorName c));
           ("author_email", JString (AuthorEmail c)); ("date", JString (Date c));
           ("message", JString (Message c))].

(** An empty list stands for the nil slice: the buckets are made by
    [append] and never empty. *)
Definition encodeCommits (l : list Commit) : json :=
  match l with
  | [] => JNull
  | _ :: _ => JArray (encodeCommit <$> l)
  end.

Definition keyLe {V} (a b : string * V) : Prop := String.le a.1 b.1.

Definition encodeCommitsByDate (m : option (gmap string (list Commit))) : json :=
  match m with
  | None => JNull
  | Some m =>
      JObject (prod_map id encodeCommits <$> merge_sort keyLe (map_to_list m))
  end.

Definition encodeRepoResult (r : RepoResult) : json :=
  JObject [("path", JString (Path r)); ("name", JString (Name r));
           ("commits_by_date", encodeCommitsByDate (CommitsByDate r))].

Definition encodeResults (results : list RepoResult) : json :=
  match results with
  | [] => JNull
  | _ :: _ => JArray (encodeRepoResult <$> results)
  end.

(** ** Pretty output *)

Definition ColorReset : string := String ESC "[0m".
Definition ColorBold : string := String ESC "[1m".
Definition ColorCyan : string := String ESC "[36m".
Definition ColorYellow : string := String ESC "[33m".
Definition ColorGray : string := String ESC "[90m".

Record ChangelogEntry := mkEntry {
  DateKey : string;
  RepoName : string;
  RepoPath : string;
  Commit_ : Commit
}.

Record block := mkBlock {
  StartIdx : nat;
  EndIdx : nat;
  BlockRepoName : string;
  Duration : Z    (* time.Duration, nanoseconds *)
}.

(** Lines written to standard output, and whether the goroutine then
    panicked. *)
Inductive printed :=
| Done (out : list string)
| Panicked (out : list string).

Definition andThen (p q : printed) : printed :=
  match p with
  | Panicked o => Panicked o
  | Done o =>
      match q with
      | Done o' => Done (o ++ o')
      | Panicked o' => Panicked (o ++ o')
      end
  end.

Definition parseCommitLocalClock (iso : string) : option GoTime.Time :=
  if (String.length iso <? 19)%nat then None
  else GoTime.parseDateTime (prefix_slice 19 iso).

(** The first loops of [printPretty]: every commit of every bucket of
    every repository, appended to the list of its date. *)
Definition addEntry (repo : RepoResult) (date : string)
    (dateMap : gmap string (list ChangelogEntry)) (c : Commit)
  : gmap string (list ChangelogEntry) :=
  <[date := default [] (dateMap !! date) ++ [mkEntry date (Name repo) (Path repo) c]]> dateMap.

Definition addBucket (repo : RepoResult) (dateMap : gmap string (list ChangelogEntry))
    (bucket : string * list Commit) : gmap string (list ChangelogEntry) :=
  foldl (addEntry repo bucket.1) dateMap bucket.2.

Definition addRepo (dateMap : gmap string (list ChangelogEntry)) (repo : RepoResult)
  : gmap string (list ChangelogEntry) :=
  foldl (addBucket repo) dateMap (map_to_list (default ∅ (CommitsByDate repo))).

Definition buildDateMap (results : list RepoResult) : gmap string (list ChangelogEntry) :=
  foldl addRepo ∅ results.

(** The [less] of "Sort by timestamp & repo name". *)
Definition lessEntry (ei ej : ChangelogEntry) : bool :=
  let ci := Commit_ ei in
  let cj := Commit_ ej in
  if decide (Date ci = Date cj) then
    if decide (RepoName ei = RepoName ej) then String.ltb (Hash ci) (Hash cj)
    else String.ltb (RepoName ei) (RepoName ej)
  else String.ltb (Date ci) (Date cj).

(** The loop [for i := 1; i < len(entries); i++] from index [i] on, over
    the entries not yet visited. *)
Fixpoint blockLoop (rest : list ChangelogEntry) (i startIdx : nat) (currentRepo : string)
  : list block :=
  match rest with
  | [] => [mkBlock startIdx (i - 1) currentRepo 0]
  | e :: rest' =>
      if decide (RepoName e ≠ currentRepo) then
        mkBlock startIdx (i - 1) currentRepo 0 :: blockLoop rest' (S i) i (RepoName e)
      else blockLoop rest' (S i) startIdx currentRepo
  end.

Definition buildBlocks (entries : list ChangelogEntry) : list block :=
  match entries with
  | [] => []
  | e0 :: rest => blockLoop rest 1 0 (RepoName e0)
  end.

(** "Compute duration per block: LAST - FIRST commit timestamp"; [None] is
    an index out of range. *)
Definition blockDuration (entries : list ChangelogEntry) (b : block) : option Z :=
  es ← entries !! StartIdx b;
  ee ← entries !! EndIdx b;
  match parseCommitLocalClock (Date (Commit_ es)),
        parseCommitLocalClock (Date (Commit_ ee)) with
  | Some startT, Some endT =>
      let d := GoTime.Sub endT startT in
      Some (if d <? 0 then GoTime.neg64 d else d)
  | _, _ => Some 0
  end.

Definition setDuration (entries : list ChangelogEntry) (b : block) : option block :=
  d ← blockDuration entries b;
  Some (mkBlock (StartIdx b) (EndIdx b) (BlockRepoName b) d).

Definition computeDurations (entries : list ChangelogEntry) (blocks : list block)
  : option (list block) :=
  mapM (setDuration entries) blocks.

(** One commit line; [None] is the panic of [c.Hash[:7]] (or of
    [entries[i]]), raised while the arguments of [Printf] are evaluated. *)
Definition commitLine (entries : list ChangelogEntry) (i : nat) : option string :=
  e ← entries !! i;
  let c := Commit_ e in
  let timeStr :=
    match parseCommitLocalClock (Date c) with
    | Some commitTime => GoTime.formatClock commitTime
    | None => ""
    end in
  if (String.length (Hash c) <? 7)%nat then None
  else Some ("    " +:+ ColorGray +:+ timeStr +:+ ColorReset +:+ " "
             +:+ ColorYellow +:+ Message c +:+ ColorReset
             +:+ " (" +:+ prefix_slice 7 (Hash c) +:+ ")").

(** [for i := block.StartIdx; i <= block.EndIdx; i++], over the indices
    still to print. *)
Fixpoint printCommits (entries : list ChangelogEntry) (idxs : list nat) : printed :=
  match idxs with
  | [] => Done []
  | i :: rest =>
      match commitLine entries i with
      | None => Panicked []
      | Some line => andThen (Done [line]) (printCommits entries rest)
      end
  end.

Definition printBlock (entries : list ChangelogEntry) (b : block) : printed :=
  andThen (Done ["  " +:+ ColorBold +:+ BlockRepoName b +:+ ColorReset])
    (andThen (printCommits entries (seq (StartIdx b) (S (EndIdx b) - StartIdx b)))
       (Done [""])).

Fixpoint printBlocks (entries : list ChangelogEntry) (blocks : list block) : printed :=
  match blocks with
  | [] => Done []
  | b :: rest => andThen (printBlock entries b) (printBlocks entries rest)
  end.

Section Pretty.
Context `{W : World}.

(** The entries of a day after [sort.Slice]. *)
Definition dayEntries (dateMap : gmap string (list ChangelogEntry)) (date : string)
  : list ChangelogEntry :=
  sort_Slice lessEntry (default [] (dateMap !! date)).

(** The blocks of a day as the printing loop finds them, with their
    durations. *)
Definition dayBlocks (entries : list ChangelogEntry) : option (list block) :=
  computeDurations entries (buildBlocks entries).

(** The body of [for _, date := range dates].  The maps [blockByEnd],
    [perProjectFirst] and [perProjectLast] are filled and never read. *)
Definition printDay (dateMap : gmap string (list ChangelogEntry)) (date : string)
  : printed :=
  let entries := dayEntries dateMap date in
  andThen (Done ["📅 " +:+ ColorBold +:+ ColorCyan +:+ date +:+ " " +:+ ColorReset; ""])
    match dayBlocks entries with
    | None => Panicked []
    | Some blocks => printBlocks entries blocks
    end.

Definition sortedDates (dateMap : gmap string (list ChangelogEntry)) : list string :=
  sort_Slice lessString (map_to_list dateMap).*1.

Fixpoint printDays (dateMap : gmap string (list ChangelogEntry)) (dates : list string)
  : printed :=
  match dates with
  | [] => Done []
  | date :: rest => andThen (printDay dateMap date) (printDays dateMap rest)
  end.

Definition printPretty (results : list RepoResult) : printed :=
  let dateMap := buildDateMap results in
  if decide (dateMap = ∅) then Done ["(no commits)"]
  else printDays dateMap (sortedDates dateMap).

(** ** The command *)

Inductive exit :=
| NoRepos                    (* "(no git repos found)", status 0 *)
| FatalExit (msg : string)   (* log.Fatalf: nothing on standard output, status 1 *)
| JSONOutput (j : json)
| PrettyOutput (p : printed).

(** [Run] once the walk has found [repos], whose workers finish in the
    order [finished]. *)
Definition Run (flags : Flags) (finished : list string) : exit :=
  match finished with
  | [] => NoRepos
  | _ :: _ =>
      match collect flags finished [] [] [] with
      | Exited msg => FatalExit msg
      | Waited results errCh _ =>
          match errCh with
          | err :: _ => FatalExit ("error: " +:+ err)
          | [] =>
              if flagJSON flags then JSONOutput (encodeResults results)
              else PrettyOutput (printPretty results)
          end
      end
  end.

End Pretty.

(** ** A scripted [git] for the examples

    A [World] in which the [git] processes answer from a table of
    repositories.  Its library functions are the ASCII cases of the Go
    ones, which is all the example data needs: [TrimSpace] strips ASCII
    white space, [EqualFold] folds the letters A-Z, [Base] takes the text
    after the last slash of an already clean path, and [sort.Slice] is a
    merge sort. *)
Module Demo.

Record repo := mkRepo {
  path : string;
  email : res string;
  branches : res (list (string * res (list Commit)))
}.

Definition isSpace (c : ascii) : bool :=
  let n := byte_at c in ((9 <=? n) && (n <=? 13)) || (n =? 32).

Fixpoint trimLeft (s : string) : string :=
  match s with
  | String c s' => if isSpace c then trimLeft s' else s
  | EmptyString => EmptyString
  end.

Definition TrimSpace (s : string) : string :=
  String.rev (trimLeft (String.rev (trimLeft s))).

Definition lower (c : ascii) : ascii :=
  let n := byte_at c in
  if (65 <=? n) && (n <=? 90) then ascii_of_N (Z.to_N (n + 32)) else c.

Fixpoint EqualFold (s t : string) : bool :=
  match s, t with
  | EmptyString, EmptyString => true
  | String a s', String b t' => Ascii.eqb (lower a) (lower b) && EqualFold s' t'
  | _, _ => false
  end.

Fixpoint Base (p : string) : string :=
  match p with
  | EmptyString => EmptyString
  | String c p' =>
      if Ascii.eqb c "/" then Base p'
      else if decide (Base p' = p') then p
      else Base p'
  end.

(** One commit as [git log] prints it under the format of
    [fetchCommitsForBranch]. *)
Definition logRecord (c : Commit) : string :=
  Hash c +:+ String US (AuthorName c) +:+ String US (AuthorEmail c)
  +:+ String US (Date c) +:+ String US (Message c) +:+ String RS EmptyString.

Definition find_repo (table : list repo) (p : string) : option repo :=
  list_find (λ r, path r = p) table ≫= λ x, Some x.2.

Definition Output (table : list repo) (name : string) (args : list string) : res string :=
  match args with
  | [_; p; _; _] =>
      match find_repo table p with
      | Some r =>
          match email r with
          | Ok e => Ok (e +:+ String LF EmptyString)
          | Err e => Err e
          end
      | None => Err "exit status 128"
      end
  | [_; p; _; _; _] =>
      match find_repo table p with
      | Some r =>
          match branches r with
          | Ok bs => Ok (String.concat (String LF EmptyString) bs.*1 +:+ String LF EmptyString)
          | Err e => Err e
          end
      | None => Err "exit status 128"
      end
  | [_; p; _; br; _; _; _] =>
      match find_repo table p with
      | Some r =>
          match branches r with
          | Ok bs =>
              match list_find (λ b, b.1 = br) bs with
              | Some (_, (_, Ok cs)) =>
                  Ok (String.concat (String LF EmptyString) (logRecord <$> cs))
              | Some (_, (_, Err e)) => Err e
              | None => Err "exit status 128"
              end
          | Err e => Err e
          end
      | None => Err "exit status 128"
      end
  | _ => Err "exit status 1"
  end.

Definition Slice (A : Type) (less : A → A → bool) (l : list A) : list A :=
  @merge_sort A (λ x y, less y x = false) (λ x y, decide (less y x = false)) l.

Definition world (table : list repo) : World.
Proof.
  refine {| exec_Output := Output table;
            strings_TrimSpace := TrimSpace;
            strings_EqualFold := EqualFold;
            filepath_Clean := id;
            filepath_Base := Base;
            sort_Slice := Slice |}.
  - intros A less l. apply merge_sort_Permutation.
  - intros A less l Hasym Htrans.
    apply StronglySorted_merge_sort.
    + intros x y z ??. by apply Htrans with y.
    + intros x y. destruct (less y x) eqn:E; [right; by apply Hasym|by left].
Defined.

Definition ada : string := "ada@example.com".

Definition fix_bug : Commit :=
  mkCommit "8f3a1c0e5b7d92a4c6e1f0b3d5a7c9e2f4b6d8a0" "Ada" ada
    "2025-02-03T09:00:00+00:00" "fix bug".
Definition add_test : Commit :=
  mkCommit "1d4e7a9c2b5f8e0a3c6d9f1b4e7a0c3d6f9b2e5a" "Ada" "Ada@Example.COM"
    "2025-02-03T09:45:00+00:00" "add test".
Definition bobs : Commit :=
  mkCommit "5c8e1a4d7f0b3e6a9c2d5f8b1e4a7c0d3f6b9e2a" "Bob" "bob@example.com"
    "2025-02-03T10:00:00+00:00" "refactor".
Definition notes : Commit :=
  mkCommit "7b0d3f6a9c2e5b8d1f4a7c0e3b6d9f2a5c8e1b4d" "Ada" ada
    "2025-02-03T09:20:00+00:00" "update notes".
Definition legacy : Commit :=
  mkCommit "2a5c8e1b4d7f0a3c6e9b2d5f8a1c4e7b0d3f6a9c" "Ada" ada
    "Mon Feb 3 09:00:00 2025 +0000" "import history".
Definition undated : Commit :=
  mkCommit "9e2b5d8f1a4c7e0b3d6f9a2c5e8b1d4f7a0c3e6b" "Ada" ada
    "2025" "no date".
Definition stub : Commit :=
  mkCommit "abc12" "Ada" ada "2025-02-04T08:00:00+00:00" "stub".

Definition table : list repo :=
  [ mkRepo "work/proj" (Ok ada)
      (Ok [("main", Ok [add_test; fix_bug; bobs]); ("feature/x", Ok [fix_bug])]);
    mkRepo "home/proj" (Ok ada) (Ok [("main", Ok [notes])]);
    mkRepo "work/empty" (Ok ada) (Ok [("main", Ok [bobs])]);
    mkRepo "work/legacy" (Ok ada) (Ok [("main", Ok [legacy; undated])]);
    mkRepo "work/short" (Ok ada) (Ok [("main", Ok [stub])]);
    mkRepo "work/broken" (Ok ada)
      (Ok [("main", Ok [fix_bug]); ("wip", Err "exit status 128")]);
    mkRepo "work/norefs" (Ok ada) (Err "exit status 128");
    mkRepo "work/anon" (Err "exit status 1") (Ok []) ].

Definition W : World := world table.

Definition flags (json : bool) : Flags := mkFlags "2025-02-01" "2025-02-07" json 5.

(** The results the workers append for these repositories. *)
Definition proj_result : RepoResult :=
  mkRepoResult "work/proj" "proj" (Some {[ "2025-02-03" := [fix_bug; add_test] ]}).
Definition home_result : RepoResult :=
  mkRepoResult "home/proj" "proj" (Some {[ "2025-02-03" := [notes] ]}).
Definition empty_result : RepoResult :=
  mkRepoResult "work/empty" "empty" (Some ∅).
Definition legacy_result : RepoResult :=
  mkRepoResult "work/legacy" "legacy" (Some {[ "Mon Feb 3 " := [legacy] ]}).
(** A second clone of [proj] whose copy of a commit shows another message
    under the same hash and timestamp. *)
Definition twin : Commit :=
  mkCommit (Hash fix_bug) "Ada" ada (Date fix_bug) "fix bug, reworded".
Definition fix_result : RepoResult :=
  mkRepoResult "work/proj" "proj" (Some {[ "2025-02-03" := [fix_bug] ]}).
Definition twin_result : RepoResult :=
  mkRepoResult "home/proj" "proj" (Some {[ "2025-02-03" := [twin] ]}).
Definition short_result : RepoResult :=
  mkRepoResult "work/short" "short" (Some {[ "2025-02-04" := [stub] ]}).

End Demo.

(** ** Vocabulary of the statements *)

(** Every commit of every day bucket of a day map. *)
Definition allCommits (m : gmap string (list Commit)) : list Commit :=
  map_to_list m ≫= snd.

Definition resultCommits (r : RepoResult) : list Commit :=
  allCommits (default ∅ (CommitsByDate r)).

(** The commits that get a day-bucket key. *)
Definition keyed (c : Commit) : Prop := extractDateKey (Date c) ≠ "".

Definition dateWarning (c : Commit) : warning := CouldNotParseDate (Date c) (Hash c).

(** A text that reads as a [YYYY-MM-DD] literal. *)
Definition looksLikeDate (s : string) : bool :=
  match bytes s with
  | [y1; y2; y3; y4; h1; m1; m2; h2; d1; d2] =>
      forallb GoTime.isDigit [y1; y2; y3; y4; m1; m2; d1; d2]
      && Ascii.eqb h1 "-" && Ascii.eqb h2 "-"
  | _ => false
  end.

(** The indices a block covers. *)
Definition blockRange (b : block) : list nat :=
  seq (StartIdx b) (S (EndIdx b) - StartIdx b).

(** The sort key of an entry and the order "timestamp ascending, then
    repository name ascending, then hash ascending". *)
Definition sortKey (e : ChangelogEntry) : string * string * string :=
  (Date (Commit_ e), RepoName e, Hash (Commit_ e)).

Definition strLt (a b : string) : Prop := String.ltb a b = true.

Definition keyOrder (k1 k2 : string * string * string) : Prop :=
  strLt k1.1.1 k2.1.1
  ∨ (k1.1.1 = k2.1.1
     ∧ (strLt k1.1.2 k2.1.2
        ∨ (k1.1.2 = k2.1.2 ∧ (strLt k1.2 k2.2 ∨ k1.2 = k2.2)))).

Definition entryOrder (e1 e2 : ChangelogEntry) : Prop :=
  keyOrder (sortKey e1) (sortKey e2).

(** What a printed line shows of an entry. *)
Definition shown (e : ChangelogEntry) : string * string * string * string :=
  (Date (Commit_ e), RepoName e, Hash (Commit_ e), Message (Commit_ e)).

(** The entries of [date] before sorting, repository by repository. *)
Definition flatEntries (results : list RepoResult) (date : string) : list ChangelogEntry :=
  results ≫= λ repo,
    mkEntry date (Name repo) (Path repo)
      <$> default [] (default ∅ (CommitsByDate repo) !! date).

(** Entries of one day that tie on the sort key show the same message. *)
Definition tiesAgree (results : list RepoResult) : Prop :=
  ∀ date e1 e2,
    e1 ∈ flatEntries results date → e2 ∈ flatEntries results date →
    sortKey e1 = sortKey e2 → Message (Commit_ e1) = Message (Commit_ e2).

(** Every bucket holds commits whose day key is the bucket's key. *)
Definition bucketsKeyed (r : RepoResult) : Prop :=
  ∀ date l c,
    default ∅ (CommitsByDate r) !! date = Some l → c ∈ l →
    extractDateKey (Date c) = date.

(** No date of the map has an empty list. *)
Definition noEmptyDay (dm : gmap string (list ChangelogEntry)) : Prop :=
  ∀ date, dm !! date ≠ Some [].

(** A block of [entries]: its bounds are in range and its members carry
    its repository name. *)
Definition blockOf (entries : list ChangelogEntry) (b : block) : Prop :=
  (StartIdx b ≤ EndIdx b < length entries)%nat
  ∧ ∀ j e, (StartIdx b ≤ j ≤ EndIdx b)%nat → entries !! j = Some e →
      RepoName e = BlockRepoName b.

(** The duration loop keeps the bounds and the name of each block and
    never indexes out of range. *)
Definition timed (entries : list ChangelogEntry) (b b' : block) : Prop :=
  StartIdx b' = StartIdx b ∧ EndIdx b' = EndIdx b
  ∧ BlockRepoName b' = BlockRepoName b
  ∧ blockDuration entries b = Some (Duration b').

(** The printer returned, or it panicked. *)
Definition finishes (p : printed) : Prop := ∃ out, p = Done out.
Definition panics (p : printed) : Prop := ∃ out, p = Panicked out.

(** The body of a day after its header. *)
Definition printDayBody (entries : list ChangelogEntry) : printed :=
  match computeDurations entries (buildBlocks entries) with
  | None => Panicked []
  | Some blocks => printBlocks entries blocks
  end.

Section Vocabulary.
Context `{W : World}.
Variable flags : Flags.

(** The commits the fetches of [branches] return, in branch order. *)
Definition fetchedStream (repoPath : string) (branches : list string) : list Commit :=
  branches ≫= λ br,
    match fetchCommitsForBranch repoPath br (flagFrom flags) (flagTo flags) with
    | Ok commits => commits
    | Err _ => []
    end.

Definition matches (email hash : string) (c : Commit) : Prop :=
  strings_EqualFold (AuthorEmail c) email = true ∧ Hash c = hash.

Global Instance matches_dec email hash c : Decision (matches email hash c).
Proof. unfold matches. apply _. Defined.

(** The first commit of a stream by the identity [email] under [hash]. *)
Definition firstOccurrence (email hash : string) (stream : list Commit) : option Commit :=
  head (filter (matches email hash) stream).

(** The commits left after deduplication: each is the first occurrence of
    its hash. *)
Definition deduplicated (repoPath email : string) (branches : list string) (c : Commit)
  : Prop :=
  firstOccurrence email (Hash c) (fetchedStream repoPath branches) = Some c.

(** The result a worker appends, and the error it sends. *)
Definition appended (repoPath : string) : option RepoResult :=
  match worker flags repoPath with
  | Appended _ r => Some r
  | _ => None
  end.

Definition failure (repoPath : string) : option string :=
  match worker flags repoPath with
  | Failed err => Some err
  | _ => None
  end.

(** Branch enumeration fails for the repository, or the fetch of one of
    its branches does. *)
Definition branchOrFetchFails (repoPath : string) : Prop :=
  (∃ e, listBranches repoPath = Err e)
  ∨ (∃ branches br e,
       listBranches repoPath = Ok branches ∧ br ∈ branches
       ∧ fetchCommitsForBranch repoPath br (flagFrom flags) (flagTo flags) = Err e).

(** The fatal message [msg] is the report of a query on [repoPath] that
    failed: it names the repository, and the branch for a failed fetch. *)
Definition blames (msg repoPath : string) : Prop :=
  ((∃ e, getGitUserEmail repoPath = Err e)
   ∧ (msg = "could not detect git user email: git user.email not set for repo " +:+ repoPath
      ∨ msg = "could not detect git user email: git user.email empty for repo " +:+ repoPath))
  ∨ (∃ e, listBranches repoPath = Err e
       ∧ msg = "error: unable to list branches for repo " +:+ repoPath +:+ ": " +:+ e)
  ∨ (∃ branches br e,
       listBranches repoPath = Ok branches ∧ br ∈ branches
       ∧ fetchCommitsForBranch repoPath br (flagFrom flags) (flagTo flags) = Err e
       ∧ msg = "error: error fetching commits for branch " +:+ br +:+ " in repo "
               +:+ repoPath +:+ ": " +:+ e).

End Vocabulary.


(** ** Path depth

    [filepath.Split] and [strings.TrimSuffix] as they are on a system whose
    [filepath.Separator] is the slash: [Split] cuts after the last slash
    (an empty [dir] when there is none), [TrimSuffix] drops one trailing
    slash. *)
Definition Separator : ascii := "/"%char.

Fixpoint filepath_Split (path : string) : string * string :=
  match path with
  | EmptyString => (EmptyString, EmptyString)
  | String c rest =>
      let '(dir, file) := filepath_Split rest in
      if decide (dir = "") then
        if Ascii.eqb c Separator then (String c EmptyString, file)
        else (EmptyString, String c file)
      else (String c dir, file)
  end.

Fixpoint TrimSuffixSeparator (s : string) : string :=
  match s with
  | EmptyString => EmptyString
  | String c EmptyString => if Ascii.eqb c Separator then EmptyString else s
  | String c s' => String c (TrimSuffixSeparator s')
  end.

(** The [for] loop of [splitPath]; [None] when the fuel is used up. *)
Fixpoint splitPathLoop (fuel : nat) (p : string) (parts : list string)
  : option (list string) :=
  match fuel with
  | O => None
  | S fuel' =>
      let '(dir, file) := filepath_Split p in
      let parts := if decide (file = "") then parts else file :: parts in
      if decide (dir = "" ∨ dir = String Separator EmptyString) then Some parts
      else splitPathLoop fuel' (TrimSuffixSeparator dir) parts
  end.

Definition splitPath (p : string) : option (list string) :=
  splitPathLoop (S (String.length p)) p [].

(** The segments of a path: what is between its slashes, without the
    empty pieces. *)
Definition segments (p : string) : list string :=
  filter (λ s, s ≠ "") (Split Separator p).

(** ** The wire format of [git log]

    What [git log --pretty=format:%H%x1f%an%x1f%ae%x1f%aI%x1f%s%x1e]
    prints: the five fields of a commit with [\x1f] between them, [\x1e]
    after each commit and a line feed between two commits. *)
Definition recordText (c : Commit) : string :=
  Hash c +:+ String US (AuthorName c +:+ String US (AuthorEmail c
    +:+ String US (Date c +:+ String US (Message c)))).

Definition logText (commits : list Commit) : string :=
  String.concat (String LF EmptyString)
    ((λ c, recordText c +:+ String RS EmptyString) <$> commits).

(** No byte of [s] is [sep]. *)
Definition noByte (sep : ascii) (s : string) : Prop :=
  ∀ c, c ∈ bytes s → c ≠ sep.

Global Instance noByte_dec sep s : Decision (noByte sep s).
Proof.
  refine (cast_if (decide (Forall (λ c, c ≠ sep) (bytes s))));
    unfold noByte; by rewrite <-Forall_forall.
Defined.

(** The fields before the subject hold no field separator, and no field
    holds a record separator. *)
Definition wireSafe (c : Commit) : Prop :=
  noByte US (Hash c) ∧ noByte US (AuthorName c) ∧ noByte US (AuthorEmail c)
  ∧ noByte US (Date c) ∧ noByte RS (recordText c).

(** The subject up to its first field separator. *)
Definition subjectKept (c : Commit) : Commit :=
  mkCommit (Hash c) (AuthorName c) (AuthorEmail c) (Date c)
    (hd EmptyString (Split US (Message c))).

Global Instance wireSafe_dec c : Decision (wireSafe c).
Proof. unfold wireSafe. apply _. Defined.

(** ** The changelog as a text

    The lines of a day written entry by entry: a header each time the
    repository name changes, closed by an empty line. *)
Definition blockHeader (name : string) : string :=
  "  " +:+ ColorBold +:+ name +:+ ColorReset.

Definition commitText (e : ChangelogEntry) : string :=
  let c := Commit_ e in
  "    " +:+ ColorGray
  +:+ match parseCommitLocalClock (Date c) with
      | Some commitTime => GoTime.formatClock commitTime
      | None => ""
      end
  +:+ ColorReset +:+ " " +:+ ColorYellow +:+ Message c +:+ ColorReset
  +:+ " (" +:+ prefix_slice 7 (Hash c) +:+ ")".

Definition closeBlock (prev : option string) : list string :=
  match prev with
  | Some _ => [""]
  | None => []
  end.

Fixpoint renderFrom (prev : option string) (entries : list ChangelogEntry) : list string :=
  match entries with
  | [] => closeBlock prev
  | e :: rest =>
      (if decide (prev = Some (RepoName e)) then []
       else closeBlock prev ++ [blockHeader (RepoName e)])
      ++ commitText e :: renderFrom (Some (RepoName e)) rest
  end.

Definition dayHeader (date : string) : list string :=
  ["📅 " +:+ ColorBold +:+ ColorCyan +:+ date +:+ " " +:+ ColorReset; ""].



(** A second scripted world: two repositories of different names whose
    commits of one day interleave. *)
Module Site.

Definition fix_layout : Commit :=
  mkCommit "6d9f2a5c8e1b4d7f0a3c6e9b2d5f8a1c4e7b0d3f" "Ada" Demo.ada
    "2025-02-03T09:20:00+00:00" "fix layout".
Definition new_styles : Commit :=
  mkCommit "0a3c6e9b2d5f8a1c4e7b0d3f6a9c2e5b8d1f4a7c" "Ada" Demo.ada
    "2025-02-03T10:30:00+00:00" "new styles".
Definition add_images : Commit :=
  mkCommit "4e7b0d3f6a9c2e5b8d1f4a7c0e3b6d9f2a5c8e1b" "Ada" Demo.ada
    "2025-02-03T11:15:00+00:00" "add images".

Definition table : list Demo.repo :=
  [ Demo.mkRepo "work/proj" (Ok Demo.ada)
      (Ok [("main", Ok [Demo.add_test; Demo.fix_bug])]);
    Demo.mkRepo "work/site" (Ok Demo.ada)
      (Ok [("main", Ok [add_images; new_styles; fix_layout])]) ].

Definition W : World := Demo.world table.

Definition site_result : RepoResult :=
  mkRepoResult "work/site" "site"
    (Some {[ "2025-02-03" := [fix_layout; new_styles; add_images] ]}).

End Site.

(** ** The [lsof] command

    [lsofCmd.Run] from the lines its scanner delivers.  [strings.Fields]
    and [strconv.Itoa] are taken as given; [sort.Sort], like [sort.Slice],
    is not stable and is the sort of the [World].  A Go [int] has 64
    bits.  What is handed to the table writer stands for the table. *)
Module Lsof.

Record Process := mkProcess {
  PID : string;
  Name : string;
  Count : Z
}.

Definition wrap (n : Z) : Z :=
  let r := n mod 2 ^ 64 in if r <? 2 ^ 63 then r else r - 2 ^ 64.

(** [ByCount.Less] on the elements at the two indices. *)
Definition Less (a b : Process) : bool := Count a <? Count b.

Record table := mkTable {
  header : list string;
  footer : list string;
  rows : list (list string)
}.

Inductive exit :=
| Fatal (msg : string)     (* log.Fatal *)
| Panic                    (* index out of range *)
| Rendered (t : table).

Section Command.
Context `{W : World}.
Variable strings_Fields : string → list string.
Variable strconv_Itoa : Z → string.

(** The body of [for scanner.Scan()]; [None] is the panic of [f[1]]. *)
Definition scanLine (processMap : gmap string Process) (m : string)
  : option (gmap string Process) :=
  let f := strings_Fields m in
  if decide (length f = 3%nat) then Some processMap
  else
    match f with
    | name :: pid :: _ =>
        let process := default (mkProcess pid name 0) (processMap !! pid) in
        Some (<[pid := mkProcess (PID process) (Name process) (wrap (Count process + 1))]>
                processMap)
    | _ => None
    end.

Fixpoint scanLines (lines : list string) (processMap : gmap string Process)
  : option (gmap string Process) :=
  match lines with
  | [] => Some processMap
  | m :: rest =>
      match scanLine processMap m with
      | None => None
      | Some processMap' => scanLines rest processMap'
      end
  end.

(** [processes] after [sort.Sort(ByCount(processes))]. *)
Definition sortedProcesses (processMap : gmap string Process) : list Process :=
  sort_Slice Less (map_to_list processMap).*2.

Definition totalOf (processes : list Process) : Z :=
  foldl (λ total p, wrap (total + Count p)) 0 processes.

Definition Run (goos : string) (pipe : res unit) (lines : list string) : exit :=
  if decide (goos = "windows") then Fatal "lsof not supported on windows"
  else
    match pipe with
    | Err e => Fatal e
    | Ok _ =>
        match scanLines lines ∅ with
        | None => Panic
        | Some processMap =>
            let processes := sortedProcesses processMap in
            Rendered
              (mkTable ["PID"; "Name"; "Descriptors"]
                 [""; "Total"; strconv_Itoa (totalOf processes)]
                 ((λ p, [PID p; Name p; strconv_Itoa (Count p)]) <$> processes))
        end
    end.

(** The field lists of the lines that are counted, and those of one
    process. *)
Definition counted (lines : list string) : list (list string) :=
  filter (λ f, length f ≠ 3%nat) (strings_Fields <$> lines).

Definition linesOf (pid : string) (lines : list string) : list (list string) :=
  filter (λ f, f !! 1%nat = Some pid) (counted lines).

End Command.

(** The sum of the counts, without the wrap-around of [total]. *)
Definition sumCounts (processes : list Process) : Z :=
  foldr (λ p t, Count p + t) 0 processes.

(** Fields between spaces and a decimal [Itoa], for the examples. *)
Definition spaceFields (m : string) : list string :=
  filter (λ s, s ≠ "") (Split " " m).

Fixpoint digitsOf (fuel : nat) (n : Z) (acc : string) : string :=
  match fuel with
  | O => acc
  | S fuel' =>
      let acc' := String (GoTime.digitChar (n mod 10)) acc in
      if n / 10 =? 0 then acc' else digitsOf fuel' (n / 10) acc'
  end.

Definition decimal (n : Z) : string :=
  if n <? 0 then String "-" (digitsOf 20 (- n) "") else digitsOf 20 n "".

(** A listing of three processes under a header of three columns. *)
Definition exampleLines : list string :=
  ["COMMAND PID USER"; "bash 10 ada 0u"; "vim 22 ada 1u"; "bash 10 ada 2u";
   "vim 22 ada 3u"; "vim 22 ada 4u"; "cron 7 root cwd"].

Definition exampleTable : table :=
  mkTable ["PID"; "Name"; "Descriptors"] [""; "Total"; "6"]
    [["7"; "cron"; "1"]; ["10"; "bash"; "2"]; ["22"; "vim"; "3"]].

End Lsof.

(** ** The prompt for the start date

    [promptForFromDate] from the events the screen delivers.  What it
    draws is left out: [redraw] changes none of [current], [input] and
    [message].  The instants of the [time] package stay abstract, with
    [AddDate] adding days, [Format] and [ParseDate] for the layout
    "2006-01-02" and [string_of_rune] for the conversion [string(r)]. *)
Module Prompt.

(** The keys the loop tells apart; [tcell.KeyEscape] is [tcell.KeyEsc]. *)
Inductive Key :=
| KeyCtrlC | KeyEsc | KeyEnter | KeyUp | KeyDown
| KeyBackspace | KeyBackspace2 | KeyOther.

Global Instance Key_eq_dec : EqDecision Key.
Proof. solve_decision. Defined.

Inductive Event :=
| EventKey (key : Key) (r : Z) (shift : bool)   (* shift: mod&ModShift != 0 *)
| EventOther.

Definition quote : string := String (ascii_of_nat 34) EmptyString.

Section Loop.
Context `{W : World}.
Variable Time : Type.
Variable today : Time.
Variable AddDate : Time → Z → Time.
Variable After : Time → Time → bool.
Variable Format : Time → string.
Variable ParseDate : string → option Time.
Variable string_of_rune : Z → string.

Record state := mkState {
  current : Time;
  input : string;
  message : string
}.

Inductive outcome :=
| Polling (s : state)      (* back at [screen.PollEvent] *)
| Returned (from : string)
| Cancelled                (* "Cancelled.", os.Exit(1) *)
| Fatal (msg : string).    (* log.Fatalf *)

Definition notValid (text : string) : string :=
  "🤨 " +:+ quote +:+ text +:+ quote +:+ " is not a valid date. Try YYYY-MM-DD.".

Definition timeTravel : string :=
  "🚀 Time travel detected! Pick today or earlier 😅".

(** One round of the [for] loop. *)
Definition handle (s : state) (ev : Event) : outcome :=
  match ev with
  | EventOther => Polling s
  | EventKey key r shift =>
      if decide (key = KeyCtrlC) then Cancelled
      else if decide (key = KeyEsc) then
        Polling (mkState (current s) (Format today) "")
      else if decide (key = KeyEnter) then
        let text := strings_TrimSpace (input s) in
        match ParseDate text with
        | None => Polling (mkState (current s) (input s) (notValid text))
        | Some t =>
            if After t today then Polling (mkState (current s) (input s) timeTravel)
            else Returned (Format t)
        end
      else if decide (key = KeyUp) then
        let current1 := AddDate (current s) (if shift then -7 else -1) in
        let current2 := if After current1 today then today else current1 in
        Polling (mkState current2 (Format current2) "")
      else if decide (key = KeyDown) then
        if shift then
          let next := AddDate (current s) 7 in
          let next := if After next today then today else next in
          Polling (mkState next (Format next) "")
        else
          let next := AddDate (current s) 1 in
          if After next today then Polling s
          else Polling (mkState next (Format next) "")
      else if decide (key = KeyBackspace ∨ key = KeyBackspace2) then
        Polling (mkState (current s)
                   (if (0 <? String.length (input s))%nat
                    then prefix_slice (String.length (input s) - 1) (input s)
                    else input s)
                   "")
      else if decide (r ≠ 0) then
        Polling (mkState (current s) (input s +:+ string_of_rune r) "")
      else Polling s
  end.

Fixpoint loop (events : list Event) (s : state) : outcome :=
  match events with
  | [] => Polling s
  | ev :: rest =>
      match handle s ev with
      | Polling s' => loop rest s'
      | o => o
      end
  end.

(** [newScreen] and [init] are the errors of [tcell.NewScreen] and
    [screen.Init], if any. *)
Definition promptForFromDate (newScreen init : option string) (events : list Event)
  : outcome :=
  match newScreen with
  | Some err => Fatal ("error creating screen: " +:+ err)
  | None =>
      match init with
      | Some err => Fatal ("error initializing screen: " +:+ err)
      | None => loop events (mkState today (Format today) "")
      end
  end.

End Loop.

(** Instants as day numbers, written in decimal, for the examples. *)
Fixpoint digitsValue (s : string) (acc : Z) : option Z :=
  match s with
  | EmptyString => Some acc
  | String c s' =>
      if GoTime.isDigit c then digitsValue s' (10 * acc + (byte_at c - 48)) else None
  end.

Definition parseDay (s : string) : option Z :=
  if decide (s = "") then None else digitsValue s 0.

Definition asciiRune (r : Z) : string :=
  String (ascii_of_N (Z.to_N r)) EmptyString.

Definition afterDay (t u : Z) : bool := u <? t.

Definition exampleToday : Z := 20122.

End Prompt.
(** * Properties *)

(** ** The time library model *)
Module GoTimeFacts.
Import GoTime.

Lemma isDigit_range c : isDigit c = true → 0 ≤ digit c ≤ 9.
Proof. unfold isDigit, digit. intros H. apply andb_true_iff in H as [H1 H2]. lia. Qed.

Lemma digitChar_digit c : isDigit c = true → digitChar (digit c) = c.
Proof.
  intros H. unfold digitChar, digit, byte_at.
  replace (48 + (Z.of_N (N_of_ascii c) - 48)) with (Z.of_N (N_of_ascii c)) by lia.
  rewrite N2Z.id. apply ascii_N_embedding.
Qed.

Lemma pad2_digits a b :
  isDigit a = true → isDigit b = true →
  pad2 (digit a * 10 + digit b) = String a (String b EmptyString).
Proof.
  intros Ha Hb. unfold pad2.
  pose proof (isDigit_range a Ha). pose proof (isDigit_range b Hb).
  rewrite Z.add_comm, Z.div_add, Z.mod_add by lia.
  rewrite Z.div_small, Z.mod_small by lia.
  rewrite Z.add_0_l, !digitChar_digit by done. done.
Qed.

Lemma pad4_digits a b c d :
  isDigit a = true → isDigit b = true → isDigit c = true → isDigit d = true →
  pad4 (((digit a * 10 + digit b) * 10 + digit c) * 10 + digit d)
  = String a (String b (String c (String d EmptyString))).
Proof.
  intros Ha Hb Hc Hd. unfold pad4.
  pose proof (isDigit_range a Ha). pose proof (isDigit_range b Hb).
  pose proof (isDigit_range c Hc). pose proof (isDigit_range d Hd).
  replace (((digit a * 10 + digit b) * 10 + digit c) * 10 + digit d)
    with ((digit c * 10 + digit d) + (digit a * 10 + digit b) * 100) by lia.
  rewrite Z.div_add, Z.mod_add by lia.
  rewrite Z.div_small, Z.mod_small by lia.
  rewrite Z.add_0_l, !pad2_digits by done. done.
Qed.

Lemma getyear_Some l y v :
  getyear l = Some (y, v) →
  ∃ a b c d, l = a :: b :: c :: d :: v
    ∧ isDigit a = true ∧ isDigit b = true ∧ isDigit c = true ∧ isDigit d = true
    ∧ y = ((digit a * 10 + digit b) * 10 + digit c) * 10 + digit d.
Proof.
  destruct l as [|a [|b [|c [|d l]]]]; simpl; try discriminate.
  destruct (isDigit a) eqn:Ha, (isDigit b) eqn:Hb, (isDigit c) eqn:Hc,
    (isDigit d) eqn:Hd; simpl; try discriminate.
  intros [= <- <-]. by exists a, b, c, d.
Qed.

Lemma lit_Some c l v : lit c l = Some v → l = c :: v.
Proof.
  destruct l as [|a l]; simpl; [discriminate|].
  destruct (Ascii.eqb a c) eqn:E; [|discriminate].
  apply Ascii.eqb_eq in E as ->. by intros [= ->].
Qed.

Lemma getnum_fixed_Some l n v :
  getnum true l = Some (n, v) →
  ∃ a b, l = a :: b :: v ∧ isDigit a = true ∧ isDigit b = true
    ∧ n = digit a * 10 + digit b.
Proof.
  destruct l as [|a [|b l]]; simpl; try discriminate.
  - by destruct (isDigit a).
  - destruct (isDigit a) eqn:Ha; [|discriminate].
    destruct (isDigit b) eqn:Hb; [|discriminate].
    intros [= <- <-]. by exists a, b.
Qed.

Lemma getnum_range fixed l n v : getnum fixed l = Some (n, v) → 0 ≤ n ≤ 99.
Proof.
  destruct l as [|a l]; simpl; [discriminate|].
  destruct (isDigit a) eqn:Ha; [|discriminate].
  pose proof (isDigit_range a Ha).
  destruct l as [|b l].
  - destruct fixed; [discriminate|]. intros [= <- <-]. lia.
  - destruct (isDigit b) eqn:Hb.
    + pose proof (isDigit_range b Hb). intros [= <- <-]. lia.
    + destruct fixed; [discriminate|]. intros [= <- <-]. lia.
Qed.

Lemma pow10_split (kept : nat) :
  (kept ≤ 9)%nat → 10 ^ 9 = 10 ^ Z.of_nat (9 - kept) * 10 ^ Z.of_nat kept.
Proof.
  intros Hk. rewrite <-Z.pow_add_r by lia. f_equal. lia.
Qed.

Lemma fracDigits_range l kept acc :
  0 ≤ acc < 10 ^ Z.of_nat (9 - kept) → (kept ≤ 9)%nat →
  0 ≤ (fracDigits l kept acc).1 < 10 ^ 9.
Proof.
  revert kept acc. induction l as [|a l IH]; intros kept acc Hacc Hk; simpl.
  - rewrite (pow10_split kept Hk).
    assert (0 < 10 ^ Z.of_nat kept) by (apply Z.pow_pos_nonneg; lia). nia.
  - destruct (isDigit a) eqn:Ha; simpl.
    + destruct kept as [|k].
      * by apply IH.
      * apply IH; [|lia]. pose proof (isDigit_range a Ha).
        replace (Z.of_nat (9 - k)) with (Z.of_nat (9 - S k) + 1) by lia.
        rewrite Z.pow_add_r by lia. lia.
    + rewrite (pow10_split kept Hk).
      assert (0 < 10 ^ Z.of_nat kept) by (apply Z.pow_pos_nonneg; lia). nia.
Qed.

Lemma fraction_range l : 0 ≤ (fraction l).1 < 10 ^ 9.
Proof.
  unfold fraction. destruct l as [|a [|b l]]; [simpl; lia..|].
  destruct (commaOrPeriod a && isDigit b); [|simpl; lia].
  apply fracDigits_range; simpl; lia.
Qed.

Lemma parse_inv z s t :
  parse z s = Some t →
  ∃ a b c d m1 m2 d1 d2 rest,
    bytes s = a :: b :: c :: d :: "-"%char :: m1 :: m2 :: "-"%char
                :: d1 :: d2 :: "T"%char :: rest
    ∧ (isDigit a = true ∧ isDigit b = true ∧ isDigit c = true ∧ isDigit d = true)
    ∧ (isDigit m1 = true ∧ isDigit m2 = true ∧ isDigit d1 = true ∧ isDigit d2 = true)
    ∧ year t = ((digit a * 10 + digit b) * 10 + digit c) * 10 + digit d
    ∧ month t = digit m1 * 10 + digit m2
    ∧ day t = digit d1 * 10 + digit d2
    ∧ 0 ≤ hour t < 24 ∧ 0 ≤ minute t < 60 ∧ 0 ≤ second t < 60
    ∧ 0 ≤ nsec t < 10 ^ 9
    ∧ (z = false → zoneOffset t = 0).
Proof.
  unfold parse. intros H.
  apply bind_Some in H as ([y v0] & Hy & H).
  apply bind_Some in H as (v1 & Hl1 & H).
  apply bind_Some in H as ([mo v2] & Hmo & H).
  apply bind_Some in H as (v3 & Hl2 & H).
  apply bind_Some in H as ([dd v4] & Hd & H).
  apply bind_Some in H as (v5 & Hl3 & H).
  apply bind_Some in H as ([h v6] & Hh & H).
  apply bind_Some in H as (v7 & Hl4 & H).
  apply bind_Some in H as ([mi v8] & Hmi & H).
  apply bind_Some in H as (v9 & Hl5 & H).
  apply bind_Some in H as ([sec v10] & Hs & H).
  pose proof (fraction_range v10) as Hns.
  destruct (fraction v10) as [ns v11]. simpl in Hns.
  apply bind_Some in H as ([off v12] & Hoff & H).
  destruct v12; [|discriminate].
  match type of H with (if ?c then _ else _) = _ => destruct c eqn:Hc end;
    [|discriminate].
  injection H as <-.
  apply getyear_Some in Hy as (a & b & c & d & -> & Ha & Hb & Hcc & Hdd & ->).
  apply lit_Some in Hl1 as ->.
  pose proof (getnum_range _ _ _ _ Hh).
  pose proof (getnum_range _ _ _ _ Hmi).
  pose proof (getnum_range _ _ _ _ Hs).
  apply getnum_fixed_Some in Hmo as (m1 & m2 & -> & Hm1 & Hm2 & ->).
  apply lit_Some in Hl2 as ->.
  apply getnum_fixed_Some in Hd as (d1 & d2 & -> & Hd1 & Hd2 & ->).
  apply lit_Some in Hl3 as ->.
  exists a, b, c, d, m1, m2, d1, d2, v5. simpl.
  repeat (apply andb_true_iff in Hc as [Hc ?]).
  repeat split; try done; try lia.
  intros ->. by injection Hoff as <- _.
Qed.

Lemma bytes_String s l : bytes s = l → s = string_of_list_ascii l.
Proof. intros <-. symmetry. apply string_of_list_ascii_of_string. Qed.

(** Formatting the date of a parsed time gives back its first ten bytes. *)
Lemma parse_formatDate z s t :
  parse z s = Some t → formatDate t = prefix_slice 10 s ∧ (10 ≤ String.length s)%nat.
Proof.
  intros H. pose proof H as H0.
  apply parse_inv in H
    as (a & b & c & d & m1 & m2 & d1 & d2 & rest & Hb & (?&?&?&?) & (?&?&?&?)
        & Hy & Hm & Hd & _).
  unfold formatDate. rewrite Hy, Hm, Hd, pad4_digits, !pad2_digits by done.
  apply bytes_String in Hb. subst s. split; [done|]. simpl. lia.
Qed.

(** Two parsed times whose texts agree on the first ten bytes have the
    same civil date. *)
Lemma parse_same_date z1 z2 s1 s2 t1 t2 :
  parse z1 s1 = Some t1 → parse z2 s2 = Some t2 →
  prefix_slice 10 s1 = prefix_slice 10 s2 →
  year t1 = year t2 ∧ month t1 = month t2 ∧ day t1 = day t2.
Proof.
  intros H1 H2 Hp.
  apply parse_inv in H1
    as (a & b & c & d & m1 & m2 & d1 & d2 & rest & Hb & _ & _ & -> & -> & -> & _).
  apply parse_inv in H2
    as (a' & b' & c' & d' & m1' & m2' & d1' & d2' & rest' & Hb' & _ & _
        & -> & -> & -> & _).
  apply bytes_String in Hb, Hb'. subst s1 s2.
  by injection Hp as -> -> -> -> -> -> -> ->.
Qed.

Lemma neg64_small d : - 2 ^ 63 < d < 0 → neg64 d = - d.
Proof.
  intros Hd. unfold neg64. rewrite Z.mod_small by lia.
  destruct (- d <? 2 ^ 63) eqn:E; [done|]. apply Z.ltb_ge in E. lia.
Qed.

(** The difference of two clock readings of one civil date, both without
    zone, is below a day and so not saturated. *)
Lemma Sub_same_date s1 s2 t u :
  parse false s1 = Some t → parse false s2 = Some u →
  prefix_slice 10 s1 = prefix_slice 10 s2 →
  Sub t u = unixNano t - unixNano u
  ∧ - (86400 * 10 ^ 9) < unixNano t - unixNano u < 86400 * 10 ^ 9.
Proof.
  intros H1 H2 Hp.
  destruct (parse_same_date _ _ _ _ _ _ H1 H2 Hp) as (Hy & Hm & Hd).
  apply parse_inv in H1 as (_&_&_&_&_&_&_&_&_&_&_&_&_&_&_&?&?&?&?&Hz1).
  apply parse_inv in H2 as (_&_&_&_&_&_&_&_&_&_&_&_&_&_&_&?&?&?&?&Hz2).
  specialize (Hz1 eq_refl). specialize (Hz2 eq_refl).
  assert (- (86400 * 10 ^ 9) < unixNano t - unixNano u < 86400 * 10 ^ 9) as Hr.
  { unfold unixNano. rewrite Hy, Hm, Hd, Hz1, Hz2.
    change (10 ^ 9) with 1000000000 in *. lia. }
  split; [|done]. unfold Sub, minDuration, maxDuration.
  change (10 ^ 9) with 1000000000 in Hr.
  change (2 ^ 63) with 9223372036854775808.
  rewrite !(proj2 (Z.ltb_ge _ _)) by lia. done.
Qed.

End GoTimeFacts.

(** ** The aggregator *)

Section AggregatorFacts.
Context `{W : World}.
Variable flags : Flags.

Lemma firstOccurrence_app email h l1 l2 :
  firstOccurrence email h (l1 ++ l2)
  = match firstOccurrence email h l1 with
    | Some c => Some c
    | None => firstOccurrence email h l2
    end.
Proof.
  unfold firstOccurrence. rewrite filter_app.
  by destruct (filter (matches email h) l1).
Qed.

Lemma firstOccurrence_Some email h stream c :
  firstOccurrence email h stream = Some c →
  c ∈ stream ∧ strings_EqualFold (AuthorEmail c) email = true ∧ Hash c = h.
Proof.
  unfold firstOccurrence. intros Hc.
  assert (c ∈ filter (matches email h) stream) as Hin.
  { destruct (filter _ stream); simplify_eq/=. by left. }
  apply list_elem_of_filter in Hin as [[??] ?]. done.
Qed.

Lemma addCommit_lookup email m c h :
  addCommit email m c !! h
  = match m !! h with
    | Some c' => Some c'
    | None => firstOccurrence email h [c]
    end.
Proof.
  unfold addCommit, firstOccurrence. rewrite filter_cons, filter_nil.
  destruct (strings_EqualFold (AuthorEmail c) email) eqn:E.
  - destruct (m !! Hash c) eqn:Hm.
    + destruct (m !! h) eqn:Hh; [done|].
      rewrite decide_False; [done|]. intros [_ ?]. congruence.
    + destruct (decide (Hash c = h)) as [<-|Hne].
      * rewrite lookup_insert_eq, Hm. rewrite decide_True; done.
      * rewrite lookup_insert_ne by done.
        rewrite decide_False by (intros [_ ?]; done). by destruct (m !! h).
  - rewrite decide_False by (intros [? _]; congruence). by destruct (m !! h).
Qed.

Lemma foldl_addCommit_lookup email cs m h :
  foldl (addCommit email) m cs !! h
  = match m !! h with
    | Some c' => Some c'
    | None => firstOccurrence email h cs
    end.
Proof.
  revert m. induction cs as [|c cs IH]; intros m; simpl.
  - by destruct (m !! h).
  - rewrite IH, addCommit_lookup.
    change (c :: cs) with ([c] ++ cs). rewrite firstOccurrence_app.
    by destruct (m !! h), (firstOccurrence email h [c]).
Qed.

Lemma fetchBranches_lookup repoPath email branches m commitMap h :
  fetchBranches flags repoPath email branches m = Ok commitMap →
  commitMap !! h
  = match m !! h with
    | Some c' => Some c'
    | None => firstOccurrence email h (fetchedStream flags repoPath branches)
    end.
Proof.
  revert m. induction branches as [|br rest IH]; intros m; simpl.
  - intros [= <-]. by destruct (m !! h).
  - unfold fetchedStream. simpl.
    destruct (fetchCommitsForBranch repoPath br _ _) as [cs|e]; [|discriminate].
    intros Hf. rewrite (IH _ Hf), foldl_addCommit_lookup, firstOccurrence_app.
    by destruct (m !! h), (firstOccurrence email h cs).
Qed.

(** When every fetch succeeds, so does the loop over the branches. *)
Lemma fetchBranches_Ok repoPath email branches m :
  (∀ br, br ∈ branches →
     ∃ cs, fetchCommitsForBranch repoPath br (flagFrom flags) (flagTo flags) = Ok cs) →
  ∃ commitMap, fetchBranches flags repoPath email branches m = Ok commitMap.
Proof.
  revert m. induction branches as [|br rest IH]; intros m Hall; simpl; [by eexists|].
  destruct (Hall br) as [cs ->]; [by left|].
  apply IH. intros ??. apply Hall. by right.
Qed.

(** The error of the loop over the branches names the first branch whose
    fetch failed. *)
Lemma fetchBranches_Err repoPath email branches m msg :
  fetchBranches flags repoPath email branches m = Err msg →
  ∃ br e, br ∈ branches
    ∧ fetchCommitsForBranch repoPath br (flagFrom flags) (flagTo flags) = Err e
    ∧ msg = "error fetching commits for branch " +:+ br +:+ " in repo "
            +:+ repoPath +:+ ": " +:+ e.
Proof.
  revert m. induction branches as [|br rest IH]; intros m; simpl; [discriminate|].
  destruct (fetchCommitsForBranch repoPath br _ _) as [cs|e] eqn:Hf.
  - intros H. destruct (IH _ H) as (br' & e' & ? & ? & ?).
    exists br', e'. split; [by right|done].
  - intros [= <-]. exists br, e. split; [by left|done].
Qed.

Lemma fetchBranches_Err_iff repoPath email branches m :
  (∃ msg, fetchBranches flags repoPath email branches m = Err msg)
  ↔ ∃ br e, br ∈ branches
      ∧ fetchCommitsForBranch repoPath br (flagFrom flags) (flagTo flags) = Err e.
Proof.
  split.
  - intros [msg H]. apply fetchBranches_Err in H as (br & e & ? & ? & _). eauto.
  - intros (br & e & Hin & He).
    destruct (fetchBranches flags repoPath email branches m) as [cm|msg] eqn:Hf;
      [|by eexists].
    exfalso. revert m cm Hf. induction branches as [|b rest IH]; intros m cm; simpl.
    + by apply elem_of_nil in Hin.
    + destruct (fetchCommitsForBranch repoPath b _ _) as [cs|e'] eqn:Hb; [|discriminate].
      apply elem_of_cons in Hin as [->|Hin]; [congruence|]. by apply IH.
Qed.

(** *** Day buckets *)

Lemma bind_snd_insert_snoc {A} (m : gmap string (list A)) k x :
  map_to_list (<[k := default [] (m !! k) ++ [x]]> m) ≫= snd
  ≡ₚ x :: (map_to_list m ≫= snd).
Proof.
  destruct (m !! k) as [l|] eqn:Hk; simpl.
  - rewrite <-insert_delete_eq.
    rewrite map_to_list_insert by apply lookup_delete_eq.
    rewrite <-(map_to_list_delete m k l Hk), !bind_cons. simpl.
    rewrite <-app_assoc. simpl. symmetry. apply Permutation_middle.
  - rewrite map_to_list_insert by done. by rewrite bind_cons.
Qed.

Lemma allCommits_fmap (f : list Commit → list Commit) m :
  (∀ l, f l ≡ₚ l) → allCommits (f <$> m) ≡ₚ allCommits m.
Proof.
  intros Hf. unfold allCommits. rewrite map_to_list_fmap.
  induction (map_to_list m) as [|[k l] kl IH]; [done|].
  rewrite fmap_cons, !bind_cons. simpl. by rewrite Hf, IH.
Qed.

Lemma foldl_bucketStep_commits cs acc :
  allCommits (foldl bucketStep acc cs).1 ≡ₚ allCommits acc.1 ++ filter keyed cs.
Proof.
  revert acc. induction cs as [|c cs IH]; intros acc; simpl.
  - by rewrite app_nil_r.
  - rewrite IH, filter_cons. unfold bucketStep, keyed.
    destruct (decide (extractDateKey (Date c) = "")) as [E|E]; simpl.
    + by rewrite decide_False by (by intros []).
    + rewrite decide_True by done. unfold allCommits at 1.
      rewrite bind_snd_insert_snoc. by rewrite <-Permutation_middle.
Qed.

Lemma foldl_bucketStep_log cs acc :
  (foldl bucketStep acc cs).2
  = acc.2 ++ (dateWarning <$> filter (λ c, ¬ keyed c) cs).
Proof.
  revert acc. induction cs as [|c cs IH]; intros acc; simpl.
  - by rewrite app_nil_r.
  - rewrite IH, filter_cons. unfold bucketStep, keyed.
    destruct (decide (extractDateKey (Date c) = "")) as [E|E]; simpl.
    + rewrite decide_True by (by intros []). by rewrite <-app_assoc.
    + by rewrite decide_False by (by intros H; apply H).
Qed.

Lemma foldl_bucketStep_keys cs acc :
  (∀ k l c, acc.1 !! k = Some l → c ∈ l → extractDateKey (Date c) = k) →
  ∀ k l c, (foldl bucketStep acc cs).1 !! k = Some l → c ∈ l →
    extractDateKey (Date c) = k.
Proof.
  revert acc. induction cs as [|c cs IH]; intros acc Hacc; simpl; [done|].
  apply IH. unfold bucketStep.
  destruct (decide (extractDateKey (Date c) = "")) as [E|E]; simpl; [done|].
  intros k l c' Hk Hin.
  destruct (decide (extractDateKey (Date c) = k)) as [<-|Hne].
  - rewrite lookup_insert_eq in Hk. injection Hk as <-.
    apply elem_of_app in Hin as [Hin|Hin].
    + destruct (acc.1 !! extractDateKey (Date c)) as [l'|] eqn:Hl; simpl in Hin.
      * by eapply Hacc.
      * by apply elem_of_nil in Hin.
    + by apply list_elem_of_singleton in Hin as ->.
  - rewrite lookup_insert_ne in Hk by done. by eapply Hacc.
Qed.

(** What a worker that appends a result has done. *)
Lemma worker_Appended repoPath log r :
  worker flags repoPath = Appended log r →
  ∃ email branches commitMap,
    getGitUserEmail repoPath = Ok email
    ∧ listBranches repoPath = Ok branches
    ∧ fetchBranches flags repoPath email branches ∅ = Ok commitMap
    ∧ log = (bucketCommits commitMap).2
    ∧ r = mkRepoResult repoPath (filepath_Base (filepath_Clean repoPath))
            (Some (sort_Slice lessDate <$> (bucketCommits commitMap).1)).
Proof.
  unfold worker.
  destruct (getGitUserEmail repoPath) as [email|]; [|discriminate].
  destruct (listBranches repoPath) as [branches|]; [|discriminate].
  destruct (fetchBranches flags repoPath email branches ∅) as [commitMap|] eqn:Hf;
    [|discriminate].
  destruct (bucketCommits commitMap) as [cbd lg] eqn:Hb.
  intros [= <- <-]. exists email, branches, commitMap. by rewrite Hb.
Qed.

Lemma commitMap_values repoPath email branches commitMap c :
  fetchBranches flags repoPath email branches ∅ = Ok commitMap →
  c ∈ (map_to_list commitMap).*2
  ↔ firstOccurrence email (Hash c) (fetchedStream flags repoPath branches) = Some c.
Proof.
  intros Hf. rewrite list_elem_of_fmap. split.
  - intros ([h c'] & -> & Hin). simpl.
    apply elem_of_map_to_list in Hin.
    rewrite (fetchBranches_lookup _ _ _ _ _ h Hf), lookup_empty in Hin.
    by destruct (firstOccurrence_Some _ _ _ _ Hin) as (_ & _ & ->).
  - intros Hc. exists (Hash c, c). split; [done|].
    apply elem_of_map_to_list.
    by rewrite (fetchBranches_lookup _ _ _ _ _ (Hash c) Hf), lookup_empty.
Qed.

Lemma commitMap_hashes repoPath email branches commitMap :
  fetchBranches flags repoPath email branches ∅ = Ok commitMap →
  Hash <$> (map_to_list commitMap).*2 = (map_to_list commitMap).*1.
Proof.
  intros Hf. rewrite <-list_fmap_compose. apply list_fmap_ext.
  intros i [h c] Hi. simpl.
  apply list_elem_of_lookup_2, elem_of_map_to_list in Hi.
  rewrite (fetchBranches_lookup _ _ _ _ _ h Hf), lookup_empty in Hi.
  by destruct (firstOccurrence_Some _ _ _ _ Hi) as (_ & _ & ->).
Qed.

Lemma resultCommits_worker commitMap repoPath name :
  resultCommits
    (mkRepoResult repoPath name (Some (sort_Slice lessDate <$> (bucketCommits commitMap).1)))
  ≡ₚ filter keyed (map_to_list commitMap).*2.
Proof.
  unfold resultCommits. simpl.
  rewrite allCommits_fmap by (intros; apply sort_Slice_Permutation).
  unfold bucketCommits. rewrite foldl_bucketStep_commits. simpl.
  unfold allCommits. by rewrite map_to_list_empty.
Qed.

End AggregatorFacts.

(** *** Deduplication across branches *)

(** C1. In the result a worker appends, no commit hash occurs twice across
    the day buckets.  The commits of the result are exactly the commits
    that are the first one, in branch order, among those fetched under
    their hash from the configured identity, and that have a day key: a
    hash seen on several branches is attributed once, to its first
    occurrence. *)
Theorem dedup_across_branches `{W : World} (flags : Flags) (repoPath : string)
    (log : list warning) (r : RepoResult) :
  worker flags repoPath = Appended log r →
  NoDup (Hash <$> resultCommits r)
  ∧ ∃ email branches,
      getGitUserEmail repoPath = Ok email
      ∧ listBranches repoPath = Ok branches
      ∧ ∀ c, c ∈ resultCommits r
          ↔ firstOccurrence email (Hash c) (fetchedStream flags repoPath branches) = Some c
            ∧ keyed c.
Proof.
  intros Hw.
  destruct (worker_Appended _ _ _ _ Hw)
    as (email & branches & commitMap & He & Hb & Hf & _ & ->).
  split.
  - rewrite resultCommits_worker.
    apply (sublist_NoDup _ (Hash <$> (map_to_list commitMap).*2)).
    + rewrite (commitMap_hashes _ _ _ _ _ Hf). apply NoDup_fst_map_to_list.
    + apply fmap_sublist, sublist_filter.
  - exists email, branches. split; [done|]. split; [done|].
    intros c. rewrite resultCommits_worker, list_elem_of_filter.
    rewrite (commitMap_values _ _ _ _ _ c Hf). tauto.
Qed.

Lemma dedup_across_branches_witness :
  ∃ r, worker (W := Demo.W) (Demo.flags false) "work/proj" = Appended [] r
    ∧ NoDup (Hash <$> resultCommits r)
    ∧ ∃ email branches,
        getGitUserEmail (W := Demo.W) "work/proj" = Ok email
        ∧ listBranches (W := Demo.W) "work/proj" = Ok branches
        ∧ ∀ c, c ∈ resultCommits r
            ↔ firstOccurrence (W := Demo.W) email (Hash c)
                (fetchedStream (W := Demo.W) (Demo.flags false) "work/proj" branches)
              = Some c
              ∧ keyed c.
Proof.
  eexists. split; [vm_compute; reflexivity|].
  apply (dedup_across_branches (W := Demo.W) (Demo.flags false) "work/proj" []).
  vm_compute. reflexivity.
Defined.

(** Scenario C: the hash fetched from [main] and from [feature/x] is in the
    result once. *)
Example scenario_C :
  ∃ r, worker (W := Demo.W) (Demo.flags false) "work/proj" = Appended [] r
    ∧ Hash <$> resultCommits r = [Hash Demo.fix_bug; Hash Demo.add_test].
Proof. eexists. split; vm_compute; reflexivity. Qed.

(** *** Identity filter *)

(** C2. Every commit in the result of a repository has an author email
    equal to the repository's configured identity under [EqualFold]; a
    commit of any other author is not in the result. *)
Theorem identity_filter `{W : World} (flags : Flags) (repoPath email : string)
    (log : list warning) (r : RepoResult) :
  getGitUserEmail repoPath = Ok email →
  worker flags repoPath = Appended log r →
  (∀ c, c ∈ resultCommits r → strings_EqualFold (AuthorEmail c) email = true)
  ∧ (∀ c, strings_EqualFold (AuthorEmail c) email = false → c ∉ resultCommits r).
Proof.
  intros He Hw.
  destruct (worker_Appended _ _ _ _ Hw)
    as (email' & branches & commitMap & He' & Hb & Hf & _ & ->).
  assert (email' = email) as -> by congruence.
  assert (∀ c, c ∈ resultCommits
                 (mkRepoResult repoPath (filepath_Base (filepath_Clean repoPath))
                    (Some (sort_Slice lessDate <$> (bucketCommits commitMap).1))) →
               strings_EqualFold (AuthorEmail c) email = true) as Hall.
  { intros c Hc. rewrite resultCommits_worker in Hc.
    apply list_elem_of_filter in Hc as [_ Hc].
    apply (commitMap_values _ _ _ _ _ _ Hf) in Hc.
    by apply firstOccurrence_Some in Hc as (_ & ? & _). }
  split; [done|]. intros c Hc Hin. apply Hall in Hin. congruence.
Qed.

Lemma identity_filter_witness :
  ∃ r, worker (W := Demo.W) (Demo.flags false) "work/proj" = Appended [] r
    ∧ (∀ c, c ∈ resultCommits r →
         strings_EqualFold (World := Demo.W) (AuthorEmail c) Demo.ada = true)
    ∧ (∀ c, strings_EqualFold (World := Demo.W) (AuthorEmail c) Demo.ada = false →
         c ∉ resultCommits r).
Proof.
  eexists. split; [vm_compute; reflexivity|].
  apply (identity_filter (W := Demo.W) (Demo.flags false) "work/proj" Demo.ada []);
    vm_compute; reflexivity.
Defined.

(** Scenario B: of the commits of two authors only the ones of the
    configured identity are in the result. *)
Example scenario_B :
  ∃ r, worker (W := Demo.W) (Demo.flags false) "work/proj" = Appended [] r
    ∧ (Demo.bobs ∉ resultCommits r) ∧ (Demo.fix_bug ∈ resultCommits r).
Proof.
  eexists. split; [vm_compute; reflexivity|].
  split; [intros H|]; vm_compute; [|by left].
  vm_compute in H. apply elem_of_cons in H as [?|H]; [done|].
  apply elem_of_cons in H as [?|H]; [done|]. by apply elem_of_nil in H.
Qed.

(** ** Collecting the workers *)

Section CollectFacts.
Context `{W : World}.
Variable flags : Flags.

Lemma getGitUserEmail_Err repoPath e :
  getGitUserEmail repoPath = Err e →
  e = "git user.email not set for repo " +:+ repoPath
  ∨ e = "git user.email empty for repo " +:+ repoPath.
Proof.
  unfold getGitUserEmail. destruct (exec_Output _ _) as [out|]; [|intros [= <-]; by left].
  destruct (decide _); [|discriminate]. intros [= <-]. by right.
Qed.

Lemma worker_Fatal repoPath msg :
  worker flags repoPath = Fatal msg →
  ∃ e, getGitUserEmail repoPath = Err e
    ∧ msg = "could not detect git user email: " +:+ e.
Proof.
  unfold worker. destruct (getGitUserEmail repoPath) as [email|e].
  - destruct (listBranches repoPath); [|discriminate].
    destruct (fetchBranches _ _ _ _ _); [|discriminate].
    by destruct (bucketCommits _).
  - intros [= <-]. by exists e.
Qed.

Lemma worker_Failed repoPath err :
  worker flags repoPath = Failed err →
  (∃ e, listBranches repoPath = Err e
     ∧ err = "unable to list branches for repo " +:+ repoPath +:+ ": " +:+ e)
  ∨ (∃ branches br e,
       listBranches repoPath = Ok branches ∧ br ∈ branches
       ∧ fetchCommitsForBranch repoPath br (flagFrom flags) (flagTo flags) = Err e
       ∧ err = "error fetching commits for branch " +:+ br +:+ " in repo "
               +:+ repoPath +:+ ": " +:+ e).
Proof.
  unfold worker. destruct (getGitUserEmail repoPath) as [email|e]; [|discriminate].
  destruct (listBranches repoPath) as [branches|e].
  - destruct (fetchBranches _ _ _ _ _) as [cm|msg] eqn:Hf.
    + by destruct (bucketCommits _).
    + intros [= <-]. right.
      apply fetchBranches_Err in Hf as (br & e & ? & ? & ?).
      by exists branches, br, e.
  - intros [= <-]. left. by exists e.
Qed.

(** A repository whose branch enumeration or fetch fails has no result. *)
Lemma worker_fails repoPath :
  branchOrFetchFails flags repoPath →
  (∃ msg, worker flags repoPath = Fatal msg) ∨ (∃ err, worker flags repoPath = Failed err).
Proof.
  intros Hfail. unfold worker.
  destruct (getGitUserEmail repoPath) as [email|e]; [|left; by eexists].
  right. destruct Hfail as [[e ->]|(branches & br & e & -> & Hin & He)]; [by eexists|].
  destruct (proj2 (fetchBranches_Err_iff flags repoPath email branches ∅)) as [msg ->];
    [by exists br, e|by eexists].
Qed.

Lemma collect_Waited finished rs es lg results errCh log :
  collect flags finished rs es lg = Waited results errCh log →
  results = rs ++ omap (appended flags) finished
  ∧ errCh = es ++ omap (failure flags) finished.
Proof.
  revert rs es lg. induction finished as [|p rest IH]; intros rs es lg; simpl.
  - intros [= <- <- <-]. by rewrite !app_nil_r.
  - unfold appended, failure.
    destruct (worker flags p) as [msg|err|ws r]; [discriminate| |].
    + intros H. destruct (IH _ _ _ H) as [-> ->]. by rewrite <-app_assoc.
    + intros H. destruct (IH _ _ _ H) as [-> ->]. by rewrite <-app_assoc.
Qed.

Lemma collect_Exited finished rs es lg msg :
  collect flags finished rs es lg = Exited msg →
  ∃ p, p ∈ finished ∧ worker flags p = Fatal msg.
Proof.
  revert rs es lg. induction finished as [|p rest IH]; intros rs es lg; simpl;
    [discriminate|].
  destruct (worker flags p) as [m|err|ws r] eqn:Hw.
  - intros [= <-]. exists p. split; [by left|done].
  - intros H. destruct (IH _ _ _ H) as (q & ? & ?). exists q. split; [by right|done].
  - intros H. destruct (IH _ _ _ H) as (q & ? & ?). exists q. split; [by right|done].
Qed.

(** C8. When branch enumeration or the fetch of a branch fails for a
    repository of the run, the command ends in [log.Fatalf]: nothing is
    written to standard output, no result of any repository is reported,
    and the message is the report of a failed query on one of the
    repositories, naming it (and the branch, for a fetch). *)
Theorem no_partial_success (finished : list string) (repoPath : string) :
  repoPath ∈ finished →
  branchOrFetchFails flags repoPath →
  ∃ msg offender,
    Run flags finished = FatalExit msg
    ∧ offender ∈ finished
    ∧ blames flags msg offender.
Proof.
  intros Hin Hfail. unfold Run.
  destruct finished as [|p0 rest] eqn:Hfin; [by apply elem_of_nil in Hin|].
  rewrite <-Hfin in *. clear Hfin.
  destruct (collect flags finished [] [] []) as [msg|results errCh log] eqn:Hc.
  - apply collect_Exited in Hc as (p & Hp & Hw).
    apply worker_Fatal in Hw as (e & He & ->).
    exists ("could not detect git user email: " +:+ e), p.
    split; [done|]. split; [done|]. left. split; [by exists e|].
    by destruct (getGitUserEmail_Err _ _ He) as [-> | ->]; [left|right].
  - destruct (collect_Waited _ _ _ _ _ _ _ Hc) as [_ Herr]. simpl in Herr.
    assert (∃ err, failure flags repoPath = Some err) as [err0 Herr0].
    { unfold failure. destruct (worker_fails _ Hfail) as [[msg Hw]|[err Hw]].
      - exfalso.
        assert (Forall (λ p, ∀ m, worker flags p ≠ Fatal m) finished) as Hall.
        { clear -Hc. revert Hc. generalize (@nil RepoResult) (@nil string) (@nil warning).
          induction finished as [|p rest IH]; intros rs es lg; simpl; [by constructor|].
          destruct (worker flags p) eqn:Hw; [discriminate| |];
            intros H; (constructor; [congruence|by eapply IH]). }
        rewrite Forall_forall in Hall. by eapply Hall.
      - rewrite Hw. by eexists. }
    assert (err0 ∈ errCh) as Hne.
    { rewrite Herr. apply list_elem_of_omap. by exists repoPath. }
    destruct errCh as [|err errs]; [by apply elem_of_nil in Hne|].
    assert (err ∈ omap (failure flags) finished) as Hin' by (rewrite <-Herr; by left).
    apply list_elem_of_omap in Hin' as (p & Hp & Hw).
    unfold failure in Hw. destruct (worker flags p) as [|e|] eqn:Hwp; try discriminate.
    injection Hw as ->.
    exists ("error: " +:+ err), p. split; [done|]. split; [done|]. right.
    apply worker_Failed in Hwp as [(e & ? & ->)|(branches & br & e & ? & ? & ? & ->)].
    + left. by exists e.
    + right. by exists branches, br, e.
Qed.

(** C9. A repository none of whose fetched commits is by the configured
    identity gets a result with an empty (non-nil) day map and no error;
    its JSON object has [commits_by_date] as the empty object, and whenever
    the run writes JSON that object is an element of the array. *)
Theorem empty_repository (repoPath email : string) (branches : list string) :
  getGitUserEmail repoPath = Ok email →
  listBranches repoPath = Ok branches →
  (∀ br, br ∈ branches →
     ∃ cs, fetchCommitsForBranch repoPath br (flagFrom flags) (flagTo flags) = Ok cs
       ∧ ∀ c, c ∈ cs → strings_EqualFold (AuthorEmail c) email = false) →
  let r := mkRepoResult repoPath (filepath_Base (filepath_Clean repoPath)) (Some ∅) in
  worker flags repoPath = Appended [] r
  ∧ encodeRepoResult r
    = JObject [("path", JString repoPath);
               ("name", JString (filepath_Base (filepath_Clean repoPath)));
               ("commits_by_date", JObject [])]
  ∧ ∀ finished j,
      repoPath ∈ finished → Run flags finished = JSONOutput j →
      ∃ items, j = JArray items ∧ encodeRepoResult r ∈ items.
Proof.
  intros He Hb Hnone r.
  assert (worker flags repoPath = Appended [] r) as Hw.
  { unfold worker. rewrite He, Hb.
    destruct (fetchBranches_Ok flags repoPath email branches ∅) as [cm Hf].
    { intros br Hbr. destruct (Hnone br Hbr) as (cs & ? & _). by exists cs. }
    rewrite Hf.
    assert (cm = ∅) as ->.
    { apply map_empty. intros h.
      rewrite (fetchBranches_lookup _ _ _ _ _ _ h Hf), lookup_empty.
      destruct (firstOccurrence _ _ _) as [c|] eqn:Hc; [|done].
      apply firstOccurrence_Some in Hc as (Hin & Hm & _).
      unfold fetchedStream in Hin. apply list_elem_of_bind in Hin as (br & Hin & Hbr).
      destruct (Hnone br Hbr) as (cs & Hcs & Hno). rewrite Hcs in Hin.
      rewrite (Hno c Hin) in Hm. discriminate. }
    unfold bucketCommits. rewrite map_to_list_empty. simpl. by rewrite fmap_empty. }
  split; [done|]. split.
  { unfold encodeRepoResult, encodeCommitsByDate. simpl. by rewrite map_to_list_empty. }
  intros finished j Hin. unfold Run.
  destruct finished as [|p0 rest] eqn:Hfin; [discriminate|].
  rewrite <-Hfin in *. clear Hfin.
  destruct (collect flags finished [] [] []) as [msg|results errCh log] eqn:Hc;
    [discriminate|].
  destruct errCh; [|discriminate]. destruct (flagJSON flags); [|discriminate].
  intros [= <-].
  apply collect_Waited in Hc as [-> _]. simpl.
  assert (r ∈ omap (appended flags) finished) as Hr.
  { apply list_elem_of_omap. exists repoPath. split; [done|].
    unfold appended. by rewrite Hw. }
  unfold encodeResults. destruct (omap (appended flags) finished) as [|r0 rs] eqn:Hrs;
    [by apply elem_of_nil in Hr|].
  eexists. split; [done|]. by apply list_elem_of_fmap_2.
Qed.

End CollectFacts.

(** ** The orders of the two sorts *)

Lemma ltb_leb a b : String.ltb a b = negb (String.leb b a).
Proof.
  unfold String.ltb, String.leb. rewrite (String.compare_antisym b a).
  by destruct (String.compare a b).
Qed.

Lemma ltb_false_le a b : String.ltb b a = false ↔ String.le a b.
Proof.
  rewrite ltb_leb. unfold String.le. destruct (String.leb a b); simpl; naive_solver.
Qed.

Lemma ltb_asym a b : String.ltb a b = true → String.ltb b a = false.
Proof.
  intros H. apply ltb_false_le.
  destruct (total String.le a b) as [?|Hba]; [done|].
  apply ltb_false_le in Hba. congruence.
Qed.

Lemma ltb_false_trans a b c :
  String.ltb b a = false → String.ltb c b = false → String.ltb c a = false.
Proof. rewrite !ltb_false_le. apply transitivity. Qed.

Lemma ltb_false_antisym a b :
  String.ltb b a = false → String.ltb a b = false → a = b.
Proof. rewrite !ltb_false_le. apply (anti_symm String.le). Qed.

Lemma ltb_irrefl a : String.ltb a a = false.
Proof. by apply ltb_false_le. Qed.

Lemma ltb_false_cases a b : String.ltb b a = false ↔ strLt a b ∨ a = b.
Proof.
  unfold strLt. split.
  - intros H. destruct (String.ltb a b) eqn:E; [by left|right].
    by apply ltb_false_antisym.
  - intros [H| ->]; [by apply ltb_asym|apply ltb_irrefl].
Qed.

Lemma lessEntry_asym x y : lessEntry x y = true → lessEntry y x = false.
Proof.
  unfold lessEntry. repeat case_decide; try congruence; apply ltb_asym.
Qed.

Lemma strLt_trans a b c : strLt a b → strLt b c → strLt a c.
Proof.
  unfold strLt. intros Hab Hbc.
  destruct (String.ltb a c) eqn:E; [done|].
  pose proof (ltb_false_trans c a b E (ltb_asym _ _ Hab)). congruence.
Qed.

Lemma strLt_irrefl a : ¬ strLt a a.
Proof. unfold strLt. by rewrite ltb_irrefl. Qed.

Lemma lessEntry_false x y : lessEntry y x = false ↔ entryOrder x y.
Proof.
  destruct x as [? rx ? [hx ? ? dx ?]], y as [? ry ? [hy ? ? dy ?]].
  unfold lessEntry, entryOrder, keyOrder, sortKey. simpl.
  pose proof strLt_irrefl as Hirr.
  repeat case_decide; subst; rewrite ltb_false_cases; split; intros Hc.
  all: repeat match goal with
         | H : _ ∨ _ |- _ => destruct H
         | H : _ ∧ _ |- _ => destruct H
         | H : strLt ?a ?a |- _ => by apply Hirr in H
         end; subst; try done; auto 10.
Qed.

Lemma keyOrder_trans k1 k2 k3 : keyOrder k1 k2 → keyOrder k2 k3 → keyOrder k1 k3.
Proof.
  destruct k1 as [[d1 r1] h1], k2 as [[d2 r2] h2], k3 as [[d3 r3] h3].
  unfold keyOrder. simpl.
  intros [?|[-> [?|[-> [?| ->]]]]] [?|[-> [?|[-> [?| ->]]]]];
    eauto 10 using strLt_trans.
Qed.


Lemma keyOrder_antisym k1 k2 : keyOrder k1 k2 → keyOrder k2 k1 → k1 = k2.
Proof.
  destruct k1 as [[d1 r1] h1], k2 as [[d2 r2] h2]. unfold keyOrder. simpl.
  assert (∀ a b, strLt a b → strLt b a → False) as Hno.
  { intros a b H1 H2. apply (strLt_irrefl a). by eapply strLt_trans. }
  assert (∀ a, strLt a a → False) as Hirr by apply strLt_irrefl.
  intros [?|[? [?|[? [?|?]]]]] [?|[? [?|[? [?|?]]]]]; subst;
    try done; exfalso; eauto.
Qed.

Lemma StronglySorted_weaken {A} (R R' : relation A) l :
  (∀ x y, R x y → R' x y) → StronglySorted R l → StronglySorted R' l.
Proof.
  intros HR. induction 1 as [|x l ? IH Hx]; constructor; [done|].
  eapply Forall_impl; [exact Hx|]. intros y. apply HR.
Qed.

Section SortFacts.
Context `{W : World}.

Lemma sort_lessEntry_sorted l : StronglySorted entryOrder (sort_Slice lessEntry l).
Proof.
  eapply StronglySorted_weaken; [|apply sort_Slice_sorted].
  - intros x y. apply lessEntry_false.
  - apply lessEntry_asym.
  - intros x y z. rewrite !lessEntry_false. apply keyOrder_trans.
Qed.

Lemma sort_lessString_sorted l :
  StronglySorted (λ a b, String.ltb b a = false) (sort_Slice lessString l).
Proof.
  apply sort_Slice_sorted.
  - apply ltb_asym.
  - apply ltb_false_trans.
Qed.

End SortFacts.

(** ** The date map of [printPretty] *)

Lemma addEntry_lookup repo k dm c date :
  default [] (addEntry repo k dm c !! date)
  = default [] (dm !! date)
    ++ (if decide (k = date) then [mkEntry k (Name repo) (Path repo) c] else []).
Proof.
  unfold addEntry. destruct (decide (k = date)) as [->|Hne].
  - by rewrite lookup_insert_eq.
  - rewrite lookup_insert_ne by done. by rewrite app_nil_r.
Qed.

Lemma addBucket_lookup repo dm kv date :
  default [] (addBucket repo dm kv !! date)
  = default [] (dm !! date)
    ++ (if decide (kv.1 = date) then mkEntry kv.1 (Name repo) (Path repo) <$> kv.2 else []).
Proof.
  unfold addBucket. destruct kv as [k l]. simpl. revert dm.
  induction l as [|c l IH]; intros dm; simpl.
  - destruct (decide _); by rewrite app_nil_r.
  - rewrite IH, addEntry_lookup. destruct (decide (k = date)); simpl.
    + by rewrite <-app_assoc.
    + by rewrite !app_nil_r.
Qed.

Lemma foldl_addBucket_lookup repo kl dm date :
  default [] (foldl (addBucket repo) dm kl !! date)
  = default [] (dm !! date)
    ++ (kl ≫= λ kv, if decide (kv.1 = date)
                    then mkEntry kv.1 (Name repo) (Path repo) <$> kv.2 else []).
Proof.
  revert dm. induction kl as [|kv kl IH]; intros dm; simpl.
  - by rewrite app_nil_r.
  - rewrite IH, addBucket_lookup. by rewrite <-app_assoc.
Qed.

Lemma bind_select {A B} (kl : list (string * list A)) (date : string)
    (f : string → list A → list B) :
  NoDup kl.*1 → (∀ k, f k [] = []) →
  (kl ≫= λ kv, if decide (kv.1 = date) then f kv.1 kv.2 else [])
  = f date (default [] ((list_to_map kl : gmap string (list A)) !! date)).
Proof.
  intros Hnd Hf. induction kl as [|[k l] kl IH]; csimpl.
  - by rewrite lookup_empty, Hf.
  - apply NoDup_cons in Hnd as [Hk Hnd].
    rewrite (IH Hnd). destruct (decide (k = date)) as [->|Hne].
    + rewrite lookup_insert_eq. simpl.
      rewrite (not_elem_of_list_to_map_1 _ _ Hk). simpl. by rewrite Hf, app_nil_r.
    + by rewrite lookup_insert_ne.
Qed.

Lemma addRepo_lookup dm repo date :
  default [] (addRepo dm repo !! date)
  = default [] (dm !! date)
    ++ (mkEntry date (Name repo) (Path repo)
          <$> default [] (default ∅ (CommitsByDate repo) !! date)).
Proof.
  unfold addRepo. rewrite foldl_addBucket_lookup. f_equal.
  rewrite (bind_select _ date (λ k l, mkEntry k (Name repo) (Path repo) <$> l)).
  - by rewrite list_to_map_to_list.
  - apply NoDup_fst_map_to_list.
  - done.
Qed.

Lemma buildDateMap_lookup results date :
  default [] (buildDateMap results !! date) = flatEntries results date.
Proof.
  unfold buildDateMap, flatEntries.
  assert (∀ dm, default [] (foldl addRepo dm results !! date)
            = default [] (dm !! date)
              ++ (results ≫= λ repo, mkEntry date (Name repo) (Path repo)
                    <$> default [] (default ∅ (CommitsByDate repo) !! date))) as H.
  { induction results as [|r rs IH]; intros dm; simpl.
    - by rewrite app_nil_r.
    - rewrite IH, addRepo_lookup. by rewrite <-app_assoc. }
  by rewrite H, lookup_empty.
Qed.

Lemma buildDateMap_noEmptyDay results : noEmptyDay (buildDateMap results).
Proof.
  unfold buildDateMap.
  assert (∀ repo k dm c, noEmptyDay dm → noEmptyDay (addEntry repo k dm c)) as Hentry.
  { intros repo k dm c Hdm date. unfold addEntry.
    destruct (decide (k = date)) as [->|Hne].
    - rewrite lookup_insert_eq. intros [= H]. by destruct (default [] _).
    - rewrite lookup_insert_ne by done. apply Hdm. }
  assert (∀ repo kv dm, noEmptyDay dm → noEmptyDay (addBucket repo dm kv)) as Hbucket.
  { intros repo [k l] dm. unfold addBucket. simpl. revert dm.
    induction l as [|c l IH]; intros dm Hdm; simpl; [done|]. by apply IH, Hentry. }
  assert (∀ repo dm, noEmptyDay dm → noEmptyDay (addRepo dm repo)) as Hrepo.
  { intros repo dm. unfold addRepo.
    generalize (map_to_list (default ∅ (CommitsByDate repo))). intros kl. revert dm.
    induction kl as [|kv kl IH]; intros dm Hdm; simpl; [done|]. by apply IH, Hbucket. }
  assert (∀ dm, noEmptyDay dm → noEmptyDay (foldl addRepo dm results)) as H.
  { induction results as [|r rs IH]; intros dm Hdm; simpl; [done|]. by apply IH, Hrepo. }
  apply H. intros date. by rewrite lookup_empty.
Qed.

Lemma buildDateMap_is_Some results date :
  is_Some (buildDateMap results !! date) ↔ flatEntries results date ≠ [].
Proof.
  rewrite <-buildDateMap_lookup.
  pose proof (buildDateMap_noEmptyDay results date) as Hne.
  destruct (buildDateMap results !! date) as [l|]; simpl.
  - split; [intros _ ->; done|by eexists].
  - split; [by intros [??]|done].
Qed.

Lemma flatEntries_Permutation results results' date :
  results ≡ₚ results' → flatEntries results date ≡ₚ flatEntries results' date.
Proof. intros H. unfold flatEntries. by rewrite H. Qed.

Lemma flatEntries_elem results date e :
  e ∈ flatEntries results date
  ↔ ∃ repo l, repo ∈ results
      ∧ default ∅ (CommitsByDate repo) !! date = Some l
      ∧ Commit_ e ∈ l
      ∧ e = mkEntry date (Name repo) (Path repo) (Commit_ e).
Proof.
  unfold flatEntries. rewrite list_elem_of_bind. split.
  - intros (repo & He & Hr). apply list_elem_of_fmap in He as (c & -> & Hc).
    destruct (default ∅ (CommitsByDate repo) !! date) as [l|] eqn:Hl; simpl in Hc.
    + by exists repo, l.
    + by apply elem_of_nil in Hc.
  - intros (repo & l & Hr & Hl & Hc & He). exists repo. split; [|done].
    rewrite Hl. simpl. rewrite He. by apply list_elem_of_fmap_2.
Qed.

(** The keys of the date maps of two orders of the same results. *)
Lemma buildDateMap_keys_Permutation results results' :
  results ≡ₚ results' →
  (map_to_list (buildDateMap results)).*1 ≡ₚ (map_to_list (buildDateMap results')).*1.
Proof.
  intros Hp. apply NoDup_Permutation; [apply NoDup_fst_map_to_list..|].
  intros date.
  assert (∀ rs, date ∈ (map_to_list (buildDateMap rs)).*1
            ↔ flatEntries rs date ≠ []) as Hkey.
  { intros rs. rewrite <-buildDateMap_is_Some, list_elem_of_fmap. split.
    - intros ([k l] & -> & Hin). apply elem_of_map_to_list in Hin. by eexists.
    - intros [l Hl]. exists (date, l). split; [done|]. by apply elem_of_map_to_list. }
  rewrite !Hkey.
  pose proof (flatEntries_Permutation _ _ date Hp) as Hf.
  split; intros Hne Hnil; apply Hne.
  - rewrite Hnil in Hf. by apply Permutation_nil_r in Hf.
  - rewrite Hnil in Hf. by apply Permutation_nil_l in Hf.
Qed.

(** ** Blocks *)

Lemma drop_cons_inv {A} (l : list A) i x rest :
  drop i l = x :: rest → l !! i = Some x ∧ drop (S i) l = rest ∧ (i < length l)%nat.
Proof.
  intros Hd.
  assert (l !! i = Some x) as Hi.
  { rewrite <-(Nat.add_0_r i), <-lookup_drop, Hd. done. }
  split; [done|]. split; [|by eapply lookup_lt_Some].
  rewrite (drop_S _ _ _ Hi) in Hd. by injection Hd.
Qed.

Lemma blockLoop_spec entries rest i startIdx currentRepo :
  drop i entries = rest → (startIdx < i ≤ length entries)%nat →
  (∀ j e, (startIdx ≤ j < i)%nat → entries !! j = Some e → RepoName e = currentRepo) →
  blockLoop rest i startIdx currentRepo ≫= blockRange
  = seq startIdx (length entries - startIdx)
  ∧ Forall (blockOf entries) (blockLoop rest i startIdx currentRepo).
Proof.
  revert i startIdx currentRepo.
  induction rest as [|e rest IH]; intros i startIdx currentRepo Hd Hi Hinv.
  - assert (i = length entries) as ->.
    { apply drop_nil_inv in Hd. lia. }
    simpl. unfold blockRange at 1. simpl. rewrite app_nil_r. split.
    + f_equal. lia.
    + constructor; [|constructor]. split; simpl; [lia|].
      intros j e' Hj. apply Hinv. lia.
  - apply drop_cons_inv in Hd as (Hie & Hd & Hlt). simpl.
    destruct (decide (RepoName e ≠ currentRepo)) as [Hne|Heq].
    + destruct (IH (S i) i (RepoName e) Hd) as [Hr Hf]; [lia| |].
      { intros j e' Hj He'. assert (j = i) as -> by lia. congruence. }
      split.
      * rewrite bind_cons, Hr. unfold blockRange. simpl.
        replace (S (i - 1) - startIdx)%nat with (i - startIdx)%nat by lia.
        replace (length entries - startIdx)%nat
          with ((i - startIdx) + (length entries - i))%nat by lia.
        rewrite seq_app. do 2 f_equal. lia.
      * constructor; [|done]. split; simpl; [lia|].
        intros j e' Hj. apply Hinv. lia.
    + apply IH; [done|lia|].
      intros j e' Hj He'. destruct (decide (j = i)) as [->|Hji].
      * assert (e' = e) as -> by congruence.
        destruct (decide (RepoName e = currentRepo)); [done|]. by destruct Heq.
      * apply (Hinv j); [lia|done].
Qed.

Lemma buildBlocks_spec entries :
  buildBlocks entries ≫= blockRange = seq 0 (length entries)
  ∧ Forall (blockOf entries) (buildBlocks entries).
Proof.
  destruct entries as [|e0 rest]; simpl; [done|].
  destruct (blockLoop_spec (e0 :: rest) rest 1 0 (RepoName e0)) as [Hr Hf].
  - done.
  - simpl. lia.
  - intros j e Hj He. assert (j = 0)%nat as -> by lia. simpl in He. congruence.
  - split; [|done]. by rewrite Hr, Nat.sub_0_r.
Qed.

Lemma computeDurations_Some entries blocks :
  Forall (blockOf entries) blocks →
  ∃ blocks', computeDurations entries blocks = Some blocks'
    ∧ Forall2 (timed entries) blocks blocks'.
Proof.
  intros Hf.
  assert (Forall (λ b, ∃ b', setDuration entries b = Some b' ∧ timed entries b b') blocks)
    as Hall.
  { eapply Forall_impl; [exact Hf|]. intros b [Hb _]. unfold setDuration, timed.
    destruct (lookup_lt_is_Some_2 entries (StartIdx b)) as [es Hes]; [lia|].
    destruct (lookup_lt_is_Some_2 entries (EndIdx b)) as [ee Hee]; [lia|].
    assert (∃ d, blockDuration entries b = Some d) as [d Hd].
    { unfold blockDuration. rewrite Hes, Hee. simpl.
      destruct (parseCommitLocalClock (Date (Commit_ es))),
        (parseCommitLocalClock (Date (Commit_ ee))); by eexists. }
    rewrite Hd. simpl. by eexists. }
  clear Hf. induction Hall as [|b bs (b' & Hb & Ht) _ (bs' & Hbs & IH)].
  - exists []. split; [done|constructor].
  - exists (b' :: bs'). split; [|by constructor].
    unfold computeDurations in *. simpl. rewrite Hb. simpl. by rewrite Hbs.
Qed.

Lemma dayBlocks_Some entries :
  ∃ blocks, dayBlocks entries = Some blocks
    ∧ Forall2 (timed entries) (buildBlocks entries) blocks.
Proof. apply computeDurations_Some, buildBlocks_spec. Qed.

Lemma timed_blockRange entries bs bs' :
  Forall2 (timed entries) bs bs' → bs' ≫= blockRange = bs ≫= blockRange.
Proof.
  induction 1 as [|b b' bs bs' (Hs & He & _) _ IH]; [done|].
  rewrite !bind_cons, IH. unfold blockRange. by rewrite Hs, He.
Qed.

Lemma timed_blockOf entries bs bs' :
  Forall2 (timed entries) bs bs' → Forall (blockOf entries) bs →
  Forall (blockOf entries) bs'.
Proof.
  induction 1 as [|b b' bs bs' (Hs & He & Hn & _) _ IH]; [done|].
  intros Hf. apply Forall_cons in Hf as [Hb Hf]. constructor; [|by apply IH].
  unfold blockOf in *. by rewrite Hs, He, Hn.
Qed.

(** ** Day keys *)

Lemma prefix_slice_length n s :
  (n ≤ String.length s)%nat → String.length (prefix_slice n s) = n.
Proof.
  unfold prefix_slice. revert s. induction n as [|n IH]; intros [|c s]; simpl; try lia.
  intros H. rewrite IH; lia.
Qed.

Lemma prefix_slice_prefix n m s :
  (n ≤ m)%nat → prefix_slice n (prefix_slice m s) = prefix_slice n s.
Proof.
  unfold prefix_slice. revert m s. induction n as [|n IH]; intros m s Hnm.
  - by destruct (String.substring 0 m s), s.
  - destruct m as [|m]; [lia|]. destruct s as [|c s]; simpl; [done|].
    rewrite IH by lia. done.
Qed.

(** The day key is the first ten bytes of any timestamp that has them. *)
Lemma extractDateKey_prefix iso :
  (10 ≤ String.length iso)%nat → extractDateKey iso = prefix_slice 10 iso.
Proof.
  intros Hlen. unfold extractDateKey.
  destruct (GoTime.parseRFC3339 iso) as [t|] eqn:Hp.
  - by apply GoTimeFacts.parse_formatDate in Hp as [-> _].
  - by rewrite (proj2 (Nat.leb_le _ _) Hlen).
Qed.

Lemma extractDateKey_empty iso :
  extractDateKey iso = "" ↔ (String.length iso < 10)%nat.
Proof.
  split.
  - intros He. destruct (decide (String.length iso < 10)%nat) as [|Hge]; [done|].
    rewrite extractDateKey_prefix in He by lia.
    pose proof (prefix_slice_length 10 iso) as Hl. rewrite He in Hl. simpl in Hl. lia.
  - intros Hlt. unfold extractDateKey.
    destruct (GoTime.parseRFC3339 iso) as [t|] eqn:Hp.
    + apply GoTimeFacts.parse_formatDate in Hp as [_ ?]. lia.
    + by rewrite (proj2 (Nat.leb_gt _ _) Hlt).
Qed.

Lemma parseCommitLocalClock_Some iso t :
  parseCommitLocalClock iso = Some t →
  (19 ≤ String.length iso)%nat ∧ GoTime.parseDateTime (prefix_slice 19 iso) = Some t.
Proof.
  unfold parseCommitLocalClock.
  destruct (String.length iso <? 19)%nat eqn:E; [discriminate|].
  apply Nat.ltb_ge in E. done.
Qed.

(** Two commits of one day bucket whose clocks parse: the difference is
    taken exactly. *)
Lemma Sub_same_day iso1 iso2 t1 t2 :
  extractDateKey iso1 = extractDateKey iso2 →
  parseCommitLocalClock iso1 = Some t1 → parseCommitLocalClock iso2 = Some t2 →
  (if GoTime.Sub t2 t1 <? 0 then GoTime.neg64 (GoTime.Sub t2 t1) else GoTime.Sub t2 t1)
  = Z.abs (GoTime.unixNano t2 - GoTime.unixNano t1).
Proof.
  intros Hk H1 H2.
  apply parseCommitLocalClock_Some in H1 as [Hl1 H1].
  apply parseCommitLocalClock_Some in H2 as [Hl2 H2].
  rewrite !extractDateKey_prefix in Hk by lia.
  destruct (GoTimeFacts.Sub_same_date _ _ _ _ H2 H1) as [Hs Hr].
  { by rewrite !prefix_slice_prefix by lia. }
  rewrite Hs. change (10 ^ 9) with 1000000000 in Hr.
  destruct (_ <? 0) eqn:E.
  - apply Z.ltb_lt in E. rewrite GoTimeFacts.neg64_small; [lia|].
    change (2 ^ 63) with 9223372036854775808. lia.
  - apply Z.ltb_ge in E. lia.
Qed.

Section DayFacts.
Context `{W : World}.
Variable flags : Flags.

Lemma worker_bucketsKeyed repoPath log r :
  worker flags repoPath = Appended log r → bucketsKeyed r.
Proof.
  intros Hw.
  destruct (worker_Appended _ _ _ _ Hw) as (email & branches & cm & _ & _ & _ & _ & ->).
  intros date l c. simpl. rewrite lookup_fmap.
  destruct ((bucketCommits cm).1 !! date) as [l0|] eqn:Hl; simpl; [|discriminate].
  intros [= <-] Hc. rewrite sort_Slice_Permutation in Hc.
  eapply (foldl_bucketStep_keys _ (∅, [])); [|exact Hl|exact Hc].
  intros k l' c'. simpl. by rewrite lookup_empty.
Qed.

Lemma collect_bucketsKeyed finished results errCh log :
  collect flags finished [] [] [] = Waited results errCh log →
  Forall bucketsKeyed results.
Proof.
  intros Hc. apply collect_Waited in Hc as [-> _]. simpl.
  apply Forall_forall. intros r Hr.
  apply list_elem_of_omap in Hr as (p & _ & Hp). unfold appended in Hp.
  destruct (worker flags p) as [| |lg r'] eqn:Hw; try discriminate.
  injection Hp as ->. by eapply worker_bucketsKeyed.
Qed.

Lemma dayEntries_Permutation results date :
  dayEntries (buildDateMap results) date ≡ₚ flatEntries results date.
Proof.
  unfold dayEntries. by rewrite sort_Slice_Permutation, buildDateMap_lookup.
Qed.

Lemma dayEntries_elem results date e :
  e ∈ dayEntries (buildDateMap results) date →
  DateKey e = date
  ∧ (Forall bucketsKeyed results → extractDateKey (Date (Commit_ e)) = date).
Proof.
  rewrite dayEntries_Permutation, flatEntries_elem.
  intros (repo & l & Hr & Hl & Hc & ->). simpl. split; [done|].
  intros Hall. rewrite Forall_forall in Hall. by eapply (Hall repo Hr).
Qed.

End DayFacts.

Section BlockTheorems.
Context `{W : World}.

(** C3, in terms of repository names. The blocks of a sorted day cover its entries in order,
    and every member of a block carries the block's repository name and the
    day's key, which for results of the aggregator is the day key of the
    member's own timestamp: no block spans two repository names or two
    days. *)
Theorem blocks_one_name_one_day (results : list RepoResult) (date : string) :
  let entries := dayEntries (buildDateMap results) date in
  ∃ blocks,
    dayBlocks entries = Some blocks
    ∧ blocks ≫= blockRange = seq 0 (length entries)
    ∧ ∀ b j e,
        b ∈ blocks → (StartIdx b ≤ j ≤ EndIdx b)%nat → entries !! j = Some e →
        RepoName e = BlockRepoName b
        ∧ DateKey e = date
        ∧ (Forall bucketsKeyed results → extractDateKey (Date (Commit_ e)) = date).
Proof.
  intros entries.
  destruct (dayBlocks_Some entries) as (blocks & Hd & Ht).
  destruct (buildBlocks_spec entries) as [Hr Hf].
  exists blocks. split; [done|]. split.
  { by rewrite (timed_blockRange _ _ _ Ht). }
  intros b j e Hb Hj He.
  pose proof (timed_blockOf _ _ _ Ht Hf) as Hf'.
  rewrite Forall_forall in Hf'. destruct (Hf' b Hb) as [_ Hn].
  split; [by eapply Hn|].
  apply (dayEntries_elem results date e). by eapply list_elem_of_lookup_2.
Qed.

(** C5. For the results the workers append, the duration loop gives every
    block built for a day, and no other, its duration: the blocks keep
    their bounds and names and cover the day's entries, and the duration
    of each is the absolute difference of the local clock readings of its
    first and last entry when both parse and zero otherwise; it is never
    negative, and zero for a block of one commit.  (The two ends share
    their day key, so their readings are less than a day apart and [Sub]
    does not saturate.) *)
Theorem block_duration (flags : Flags) (finished : list string)
    (results : list RepoResult) (errCh : list string) (log : list warning)
    (date : string) :
  collect flags finished [] [] [] = Waited results errCh log →
  let entries := dayEntries (buildDateMap results) date in
  ∃ blocks,
    dayBlocks entries = Some blocks
    ∧ Forall2 (timed entries) (buildBlocks entries) blocks
    ∧ blocks ≫= blockRange = seq 0 (length entries)
    ∧ ∀ b, b ∈ blocks →
        ∃ first last,
          entries !! StartIdx b = Some first
          ∧ entries !! EndIdx b = Some last
          ∧ Duration b
            = match parseCommitLocalClock (Date (Commit_ first)),
                    parseCommitLocalClock (Date (Commit_ last)) with
              | Some startT, Some endT =>
                  Z.abs (GoTime.unixNano endT - GoTime.unixNano startT)
              | _, _ => 0
              end
          ∧ 0 ≤ Duration b
          ∧ (StartIdx b = EndIdx b → Duration b = 0).
Proof.
  intros Hc entries.
  pose proof (collect_bucketsKeyed _ _ _ _ _ Hc) as Hkeyed.
  destruct (dayBlocks_Some entries) as (blocks & Hd & Ht).
  destruct (buildBlocks_spec entries) as [Hcover Hf].
  exists blocks. split; [done|]. split; [done|].
  split; [by rewrite (timed_blockRange _ _ _ Ht)|]. intros b' Hb'.
  apply list_elem_of_lookup in Hb' as [i Hi].
  destruct (Forall2_lookup_r _ _ _ _ _ Ht Hi) as (b & Hbi & Hs & He & _ & Hdur).
  rewrite Forall_forall in Hf.
  destruct (Hf b (list_elem_of_lookup_2 _ _ _ Hbi)) as [Hbounds _].
  destruct (lookup_lt_is_Some_2 entries (StartIdx b)) as [first Hfirst]; [lia|].
  destruct (lookup_lt_is_Some_2 entries (EndIdx b)) as [last Hlast]; [lia|].
  exists first, last. rewrite Hs, He. split; [done|]. split; [done|].
  unfold blockDuration in Hdur. rewrite Hfirst, Hlast in Hdur.
  cbn [mbind option_bind] in Hdur. cbv zeta in Hdur.
  assert (extractDateKey (Date (Commit_ first)) = extractDateKey (Date (Commit_ last)))
    as Hkey.
  { destruct (dayEntries_elem results date first) as [_ H1];
      [by eapply list_elem_of_lookup_2|].
    destruct (dayEntries_elem results date last) as [_ H2];
      [by eapply list_elem_of_lookup_2|].
    by rewrite H1, H2. }
  destruct (parseCommitLocalClock (Date (Commit_ first))) as [startT|] eqn:Hp1;
    [destruct (parseCommitLocalClock (Date (Commit_ last))) as [endT|] eqn:Hp2|].
  - rewrite (Sub_same_day _ _ _ _ Hkey Hp1 Hp2) in Hdur. injection Hdur as <-.
    split; [done|]. split; [lia|].
    intros Heq. rewrite Heq in Hfirst. assert (first = last) as -> by congruence.
    assert (startT = endT) as -> by congruence. lia.
  - by injection Hdur as <-.
  - by injection Hdur as <-.
Qed.

End BlockTheorems.

Example worker_proj :
  worker (W := Demo.W) (Demo.flags false) "work/proj" = Appended [] Demo.proj_result.
Proof. vm_compute. reflexivity. Qed.

Example collect_proj_home :
  collect (W := Demo.W) (Demo.flags false) ["work/proj"; "home/proj"] [] [] []
  = Waited [Demo.proj_result; Demo.home_result] [] [].
Proof. vm_compute. reflexivity. Qed.

Lemma blocks_one_name_one_day_witness :
  let entries :=
    dayEntries (W := Demo.W) (buildDateMap [Demo.proj_result; Demo.home_result])
      "2025-02-03" in
  ∃ blocks,
    dayBlocks entries = Some blocks
    ∧ blocks ≫= blockRange = seq 0 (length entries)
    ∧ ∀ b j e,
        b ∈ blocks → (StartIdx b ≤ j ≤ EndIdx b)%nat → entries !! j = Some e →
        RepoName e = BlockRepoName b
        ∧ DateKey e = "2025-02-03"
        ∧ (Forall bucketsKeyed [Demo.proj_result; Demo.home_result] →
           extractDateKey (Date (Commit_ e)) = "2025-02-03").
Proof.
  exact (blocks_one_name_one_day (W := Demo.W)
           [Demo.proj_result; Demo.home_result] "2025-02-03").
Defined.

(** On a day on which two repositories of the same base name have
    commits, one block holds entries of both: its members have different
    repository paths. *)
Lemma block_spans_two_repositories :
  collect (W := Demo.W) (Demo.flags false) ["work/proj"; "home/proj"] [] [] []
  = Waited [Demo.proj_result; Demo.home_result] [] []
  ∧ let entries :=
      dayEntries (W := Demo.W) (buildDateMap [Demo.proj_result; Demo.home_result])
        "2025-02-03" in
    dayBlocks entries = Some [mkBlock 0 2 "proj" 2700000000000]
    ∧ RepoPath <$> entries = ["work/proj"; "home/proj"; "work/proj"].
Proof. split; [|split]; vm_compute; reflexivity. Qed.

Lemma block_duration_witness :
  collect (W := Site.W) (Demo.flags false) ["work/proj"; "work/site"] [] [] []
  = Waited [Demo.proj_result; Site.site_result] [] []
  ∧ RepoName <$> dayEntries (W := Site.W)
                   (buildDateMap [Demo.proj_result; Site.site_result]) "2025-02-03"
    = ["proj"; "site"; "proj"; "site"; "site"]
  ∧ dayBlocks (dayEntries (W := Site.W)
                 (buildDateMap [Demo.proj_result; Site.site_result]) "2025-02-03")
    = Some [mkBlock 0 0 "proj" 0; mkBlock 1 1 "site" 0; mkBlock 2 2 "proj" 0;
            mkBlock 3 4 "site" 2700000000000]
  ∧ let entries :=
      dayEntries (W := Site.W) (buildDateMap [Demo.proj_result; Site.site_result])
        "2025-02-03" in
    ∃ blocks,
      dayBlocks entries = Some blocks
      ∧ Forall2 (timed entries) (buildBlocks entries) blocks
      ∧ blocks ≫= blockRange = seq 0 (length entries)
      ∧ ∀ b, b ∈ blocks →
          ∃ first last,
            entries !! StartIdx b = Some first
            ∧ entries !! EndIdx b = Some last
            ∧ Duration b
              = match parseCommitLocalClock (Date (Commit_ first)),
                      parseCommitLocalClock (Date (Commit_ last)) with
                | Some startT, Some endT =>
                    Z.abs (GoTime.unixNano endT - GoTime.unixNano startT)
                | _, _ => 0
                end
            ∧ 0 ≤ Duration b
            ∧ (StartIdx b = EndIdx b → Duration b = 0).
Proof.
  split; [vm_compute; reflexivity|].
  split; [vm_compute; reflexivity|].
  split; [vm_compute; reflexivity|].
  apply (block_duration (W := Site.W) (Demo.flags false) ["work/proj"; "work/site"]
           [Demo.proj_result; Site.site_result] [] [] "2025-02-03").
  vm_compute. reflexivity.
Defined.

(** Scenario A: two commits of [proj] at 09:00 and 09:45 make one block of
    45 minutes. *)
Example scenario_A :
  dayBlocks (dayEntries (W := Demo.W) (buildDateMap [Demo.proj_result]) "2025-02-03")
  = Some [mkBlock 0 1 "proj" (45 * 60 * 1000000000)].
Proof. vm_compute. reflexivity. Qed.

(** *** Day keys in the aggregator *)

(** C4, with the fallback as it is coded. The day key of a timestamp that parses as RFC 3339 is
    its formatted date; otherwise it is the first ten bytes, taken as they
    are, and the empty key only for a timestamp shorter than ten bytes.  A
    worker puts every deduplicated commit whose timestamp has ten bytes
    into the bucket of its key, and for the others, and only for them, it
    logs a warning and still appends its result. *)
Theorem day_key_fallback `{W : World} (flags : Flags) (repoPath : string)
    (log : list warning) (r : RepoResult) :
  worker flags repoPath = Appended log r →
  (∀ iso,
     (∀ t, GoTime.parseRFC3339 iso = Some t → extractDateKey iso = GoTime.formatDate t)
     ∧ ((10 ≤ String.length iso)%nat → extractDateKey iso = prefix_slice 10 iso)
     ∧ ((String.length iso < 10)%nat → extractDateKey iso = ""))
  ∧ ∃ email branches,
      getGitUserEmail repoPath = Ok email
      ∧ listBranches repoPath = Ok branches
      ∧ (∀ c, c ∈ resultCommits r
           ↔ deduplicated flags repoPath email branches c
             ∧ (10 ≤ String.length (Date c))%nat)
      ∧ bucketsKeyed r
      ∧ (∀ w, w ∈ log
           ↔ ∃ c, deduplicated flags repoPath email branches c
               ∧ (String.length (Date c) < 10)%nat
               ∧ w = CouldNotParseDate (Date c) (Hash c)).
Proof.
  intros Hw. split.
  { intros iso. split; [|split].
    - intros t Ht. unfold extractDateKey. by rewrite Ht.
    - apply extractDateKey_prefix.
    - apply extractDateKey_empty. }
  pose proof (worker_bucketsKeyed _ _ _ _ Hw) as Hkeyed.
  assert (∀ c, keyed c ↔ (10 ≤ String.length (Date c))%nat) as Hk.
  { intros c. unfold keyed. rewrite extractDateKey_empty. lia. }
  destruct (worker_Appended _ _ _ _ Hw)
    as (email & branches & commitMap & He & Hb & Hf & -> & ->).
  exists email, branches. split; [done|]. split; [done|]. split; [|split; [done|]].
  - intros c. rewrite resultCommits_worker, list_elem_of_filter, Hk.
    rewrite (commitMap_values _ _ _ _ _ c Hf). unfold deduplicated. tauto.
  - intros w. unfold bucketCommits. rewrite foldl_bucketStep_log. simpl.
    rewrite list_elem_of_fmap. split.
    + intros (c & -> & Hc). apply list_elem_of_filter in Hc as [Hnk Hc].
      exists c. rewrite (commitMap_values _ _ _ _ _ c Hf) in Hc.
      split; [done|]. split; [|done]. rewrite Hk in Hnk. lia.
    + intros (c & Hc & Hlen & ->). exists c. split; [done|].
      apply list_elem_of_filter. rewrite Hk, (commitMap_values _ _ _ _ _ c Hf).
      split; [lia|done].
Qed.

Lemma day_key_fallback_witness :
  worker (W := Demo.W) (Demo.flags false) "work/legacy"
  = Appended [CouldNotParseDate "2025" (Hash Demo.undated)] Demo.legacy_result
  ∧ (∀ iso,
       (∀ t, GoTime.parseRFC3339 iso = Some t → extractDateKey iso = GoTime.formatDate t)
       ∧ ((10 ≤ String.length iso)%nat → extractDateKey iso = prefix_slice 10 iso)
       ∧ ((String.length iso < 10)%nat → extractDateKey iso = ""))
  ∧ ∃ email branches,
      getGitUserEmail (W := Demo.W) "work/legacy" = Ok email
      ∧ listBranches (W := Demo.W) "work/legacy" = Ok branches
      ∧ (∀ c, c ∈ resultCommits Demo.legacy_result
           ↔ deduplicated (W := Demo.W) (Demo.flags false) "work/legacy" email branches c
             ∧ (10 ≤ String.length (Date c))%nat)
      ∧ bucketsKeyed Demo.legacy_result
      ∧ (∀ w, w ∈ [CouldNotParseDate "2025" (Hash Demo.undated)]
           ↔ ∃ c, deduplicated (W := Demo.W) (Demo.flags false) "work/legacy"
                    email branches c
               ∧ (String.length (Date c) < 10)%nat
               ∧ w = CouldNotParseDate (Date c) (Hash c)).
Proof.
  split; [vm_compute; reflexivity|].
  apply (day_key_fallback (W := Demo.W) (Demo.flags false) "work/legacy").
  vm_compute. reflexivity.
Defined.

(** A timestamp in git's default date format does not parse as RFC 3339
    and its first ten bytes do not read as a date, yet it gets them as its
    day key and the commit stays in the day index, without a warning. *)
Lemma undated_commit_kept :
  GoTime.parseRFC3339 (Date Demo.legacy) = None
  ∧ looksLikeDate (prefix_slice 10 (Date Demo.legacy)) = false
  ∧ extractDateKey (Date Demo.legacy) = "Mon Feb 3 "
  ∧ worker (W := Demo.W) (Demo.flags false) "work/legacy"
    = Appended [CouldNotParseDate "2025" (Hash Demo.undated)]
        (mkRepoResult "work/legacy" "legacy"
           (Some {[ "Mon Feb 3 " := [Demo.legacy] ]})).
Proof. repeat split; vm_compute; reflexivity. Qed.

(** ** Printing *)

Lemma finishes_or_panics p : finishes p ∨ panics p.
Proof. destruct p; [left|right]; by eexists. Qed.

Lemma finishes_not_panics p : finishes p → ¬ panics p.
Proof. intros [o ->] [o' ?]. discriminate. Qed.

Lemma andThen_finishes p q : finishes (andThen p q) ↔ finishes p ∧ finishes q.
Proof.
  unfold finishes. destruct p as [o|o], q as [o'|o']; simpl; split.
  all: try (intros [? ?]; discriminate).
  all: try (intros [[? ?] [? ?]]; discriminate).
  all: eauto.
Qed.

Lemma commitLine_Some entries i :
  is_Some (commitLine entries i)
  ↔ ∃ e, entries !! i = Some e ∧ (7 ≤ String.length (Hash (Commit_ e)))%nat.
Proof.
  unfold commitLine. destruct (entries !! i) as [e|]; simpl.
  - destruct (String.length (Hash (Commit_ e)) <? 7)%nat eqn:E.
    + apply Nat.ltb_lt in E. split; [by intros [??]|]. intros (e' & [= <-] & ?). lia.
    + apply Nat.ltb_ge in E. split; [|by eexists]. intros _. by exists e.
  - split; [by intros [??]|]. by intros (? & ? & _).
Qed.

Lemma printCommits_cons entries i idxs :
  printCommits entries (i :: idxs)
  = match commitLine entries i with
    | None => Panicked []
    | Some line => andThen (Done [line]) (printCommits entries idxs)
    end.
Proof. done. Qed.

Lemma printBlocks_cons entries b blocks :
  printBlocks entries (b :: blocks)
  = andThen (printBlock entries b) (printBlocks entries blocks).
Proof. done. Qed.

Lemma printCommits_finishes entries idxs :
  finishes (printCommits entries idxs)
  ↔ ∀ i, i ∈ idxs → is_Some (commitLine entries i).
Proof.
  induction idxs as [|i idxs IH].
  - split; [|by eexists]. intros _ i Hi. by apply elem_of_nil in Hi.
  - rewrite printCommits_cons. destruct (commitLine entries i) as [line|] eqn:Hl.
    + rewrite andThen_finishes, IH. split.
      * intros [_ H] j Hj. apply elem_of_cons in Hj as [->|Hj]; [by rewrite Hl|auto].
      * intros H. split; [by eexists|]. intros j Hj. apply H. by right.
    + split; [intros [? ?]; discriminate|].
      intros H. destruct (H i) as [? ?]; [by left|]. congruence.
Qed.

Lemma printBlocks_finishes entries blocks :
  finishes (printBlocks entries blocks)
  ↔ ∀ i, i ∈ blocks ≫= blockRange → is_Some (commitLine entries i).
Proof.
  induction blocks as [|b blocks IH].
  - split; [|by eexists]. intros _ i Hi. by apply elem_of_nil in Hi.
  - rewrite printBlocks_cons, bind_cons. unfold printBlock.
    rewrite !andThen_finishes, IH, printCommits_finishes.
    fold (blockRange b). split.
    + intros [(_ & H1 & _) H2] i Hi. apply elem_of_app in Hi as [Hi|Hi]; auto.
    + intros H. repeat split; try by eexists.
      * intros i Hi. apply H, elem_of_app. by left.
      * intros i Hi. apply H, elem_of_app. by right.
Qed.

Lemma printBlocks_timed entries bs bs' :
  Forall2 (timed entries) bs bs' → printBlocks entries bs' = printBlocks entries bs.
Proof.
  induction 1 as [|b b' bs bs' (Hs & He & Hn & _) _ IH]; [done|].
  rewrite !printBlocks_cons, IH. unfold printBlock. by rewrite Hs, He, Hn.
Qed.

Lemma printDayBody_blocks entries :
  printDayBody entries = printBlocks entries (buildBlocks entries).
Proof.
  unfold printDayBody. destruct (dayBlocks_Some entries) as (blocks & Hd & Ht).
  unfold dayBlocks in Hd. rewrite Hd. by apply printBlocks_timed.
Qed.

(** A day prints to its end exactly when every hash of the day has seven
    bytes. *)
Lemma printDayBody_finishes entries :
  finishes (printDayBody entries)
  ↔ ∀ e, e ∈ entries → (7 ≤ String.length (Hash (Commit_ e)))%nat.
Proof.
  rewrite printDayBody_blocks, printBlocks_finishes.
  destruct (buildBlocks_spec entries) as [-> _]. split.
  - intros H e He. apply list_elem_of_lookup in He as [i Hi].
    destruct (proj1 (commitLine_Some entries i)) as (e' & He' & ?).
    { apply H, elem_of_seq. apply lookup_lt_Some in Hi. lia. }
    congruence.
  - intros H i Hi. apply elem_of_seq in Hi.
    destruct (lookup_lt_is_Some_2 entries i) as [e He]; [lia|].
    apply commitLine_Some. exists e. split; [done|].
    apply H. by eapply list_elem_of_lookup_2.
Qed.

(** What a day prints depends on what its entries show only. *)
Lemma blockLoop_names (l1 l2 : list ChangelogEntry) i startIdx currentRepo :
  RepoName <$> l1 = RepoName <$> l2 →
  blockLoop l1 i startIdx currentRepo = blockLoop l2 i startIdx currentRepo.
Proof.
  revert l2 i startIdx currentRepo.
  induction l1 as [|e1 l1 IH]; intros [|e2 l2] i s r; simpl; try done.
  intros [= Hn Hl]. rewrite Hn.
  destruct (decide (RepoName e2 ≠ r)); [f_equal|]; by apply IH.
Qed.

Lemma buildBlocks_names (l1 l2 : list ChangelogEntry) :
  RepoName <$> l1 = RepoName <$> l2 → buildBlocks l1 = buildBlocks l2.
Proof.
  destruct l1 as [|e1 l1], l2 as [|e2 l2]; simpl; try done.
  intros [= Hn Hl]. rewrite Hn. by apply blockLoop_names.
Qed.

Lemma shown_RepoName (l1 l2 : list ChangelogEntry) :
  shown <$> l1 = shown <$> l2 → RepoName <$> l1 = RepoName <$> l2.
Proof.
  intros H. apply (f_equal (fmap (λ s : string * string * string * string, s.1.1.2))) in H.
  by rewrite <-!list_fmap_compose in H.
Qed.

Lemma commitLine_shown (l1 l2 : list ChangelogEntry) i :
  shown <$> l1 = shown <$> l2 → commitLine l1 i = commitLine l2 i.
Proof.
  intros H. apply (f_equal (λ l, l !! i)) in H. rewrite !list_lookup_fmap in H.
  unfold commitLine.
  destruct (l1 !! i) as [e1|], (l2 !! i) as [e2|]; simpl in *; try done.
  injection H as Hd Hr Hh Hm. by rewrite Hd, Hh, Hm.
Qed.

Lemma printBlocks_shown (l1 l2 : list ChangelogEntry) blocks :
  shown <$> l1 = shown <$> l2 → printBlocks l1 blocks = printBlocks l2 blocks.
Proof.
  intros H. induction blocks as [|b blocks IH]; [done|].
  rewrite !printBlocks_cons, IH. f_equal. unfold printBlock. do 2 f_equal.
  induction (seq (StartIdx b) (S (EndIdx b) - StartIdx b)) as [|i idxs IHi]; [done|].
  by rewrite !printCommits_cons, (commitLine_shown _ _ i H), IHi.
Qed.

Lemma printDayBody_shown (l1 l2 : list ChangelogEntry) :
  shown <$> l1 = shown <$> l2 → printDayBody l1 = printDayBody l2.
Proof.
  intros H. rewrite !printDayBody_blocks.
  rewrite (buildBlocks_names l1 l2) by by apply shown_RepoName.
  by apply printBlocks_shown.
Qed.

Section PrettyFacts.
Context `{W : World}.

Lemma printDay_body dateMap date :
  printDay dateMap date
  = andThen (Done ["📅 " +:+ ColorBold +:+ ColorCyan +:+ date +:+ " " +:+ ColorReset; ""])
      (printDayBody (dayEntries dateMap date)).
Proof. done. Qed.

Lemma printDays_cons dateMap date dates :
  printDays dateMap (date :: dates)
  = andThen (printDay dateMap date) (printDays dateMap dates).
Proof. done. Qed.

Lemma printDays_finishes dateMap dates :
  finishes (printDays dateMap dates)
  ↔ ∀ date e, date ∈ dates → e ∈ dayEntries dateMap date →
      (7 ≤ String.length (Hash (Commit_ e)))%nat.
Proof.
  induction dates as [|date dates IH].
  - split; [|by eexists]. intros _ date e Hd. by apply elem_of_nil in Hd.
  - rewrite printDays_cons, andThen_finishes, IH, printDay_body, andThen_finishes,
      printDayBody_finishes. split.
    + intros [[_ H1] H2] d e Hd He. apply elem_of_cons in Hd as [->|Hd]; eauto.
    + intros H. split; [split; [by eexists|]|].
      * intros e He. apply (H date); [by left|done].
      * intros d e Hd He. apply (H d); [by right|done].
Qed.

Lemma sortedDates_elem results date :
  date ∈ sortedDates (buildDateMap results) ↔ flatEntries results date ≠ [].
Proof.
  unfold sortedDates. rewrite sort_Slice_Permutation, <-buildDateMap_is_Some.
  rewrite list_elem_of_fmap. split.
  - intros ([k l] & -> & Hin). apply elem_of_map_to_list in Hin. by eexists.
  - intros [l Hl]. exists (date, l). split; [done|]. by apply elem_of_map_to_list.
Qed.

Lemma printPretty_finishes results :
  finishes (printPretty results)
  ↔ ∀ date e, e ∈ flatEntries results date →
      (7 ≤ String.length (Hash (Commit_ e)))%nat.
Proof.
  unfold printPretty. destruct (decide (buildDateMap results = ∅)) as [Hemp|Hne].
  - split; [|by eexists]. intros _ date e He.
    assert (is_Some (buildDateMap results !! date)) as [l Hl].
    { apply buildDateMap_is_Some. intros Hnil. rewrite Hnil in He.
      by apply elem_of_nil in He. }
    rewrite Hemp, lookup_empty in Hl. discriminate.
  - rewrite printDays_finishes. split.
    + intros H date e He. apply (H date).
      * apply sortedDates_elem. intros Hnil. rewrite Hnil in He.
        by apply elem_of_nil in He.
      * by rewrite dayEntries_Permutation.
    + intros H date e _ He. apply (H date). by rewrite <-dayEntries_Permutation.
Qed.

End PrettyFacts.

Lemma allCommits_elem m c :
  c ∈ allCommits m ↔ ∃ date l, m !! date = Some l ∧ c ∈ l.
Proof.
  unfold allCommits. rewrite list_elem_of_bind. split.
  - intros ([k l] & Hc & Hin). apply elem_of_map_to_list in Hin. by exists k, l.
  - intros (k & l & Hl & Hc). exists (k, l). split; [done|].
    by apply elem_of_map_to_list.
Qed.

(** The commits of the entries are the commits of the results. *)
Lemma flatEntries_commits results c :
  (∃ date e, e ∈ flatEntries results date ∧ Commit_ e = c)
  ↔ ∃ r, r ∈ results ∧ c ∈ resultCommits r.
Proof.
  unfold resultCommits. split.
  - intros (date & e & He & <-). apply flatEntries_elem in He as (r & l & ? & ? & ? & _).
    exists r. split; [done|]. apply allCommits_elem. by exists date, l.
  - intros (r & Hr & Hc). apply allCommits_elem in Hc as (date & l & Hl & Hc).
    exists date, (mkEntry date (Name r) (Path r) c). split; [|done].
    apply flatEntries_elem. by exists r, l.
Qed.

(** C10. [printPretty] slices [c.Hash[:7]] without a guard: it prints to
    the end when every commit of the results has a hash of at least seven
    bytes, and it panics on any results holding a commit with a shorter
    hash. *)
Theorem hash_prefix_slice `{W : World} (results : list RepoResult) :
  ((∀ r c, r ∈ results → c ∈ resultCommits r → (7 ≤ String.length (Hash c))%nat) →
   finishes (printPretty results))
  ∧ ((∃ r c, r ∈ results ∧ c ∈ resultCommits r ∧ (String.length (Hash c) < 7)%nat) →
     panics (printPretty results)).
Proof.
  split.
  - intros H. apply printPretty_finishes. intros date e He.
    destruct (proj1 (flatEntries_commits results (Commit_ e))) as (r & Hr & Hc);
      [by exists date, e|]. by apply (H r).
  - intros (r & c & Hr & Hc & Hlen).
    destruct (finishes_or_panics (printPretty results)) as [Hf|]; [|done].
    exfalso. rewrite printPretty_finishes in Hf.
    destruct (proj2 (flatEntries_commits results c)) as (date & e & He & <-);
      [by exists r|].
    apply Hf in He. lia.
Qed.

Lemma hash_prefix_slice_witness :
  finishes (printPretty (W := Demo.W) [Demo.proj_result])
  ∧ panics (printPretty (W := Demo.W) [Demo.proj_result; Demo.short_result]).
Proof.
  split.
  - apply (proj1 (hash_prefix_slice (W := Demo.W) [Demo.proj_result])).
    intros r c Hr Hc. apply list_elem_of_singleton in Hr as ->.
    vm_compute in Hc.
    apply elem_of_cons in Hc as [->|Hc]; [vm_compute; lia|].
    apply elem_of_cons in Hc as [->|Hc]; [vm_compute; lia|].
    by apply elem_of_nil in Hc.
  - apply (proj2 (hash_prefix_slice (W := Demo.W) [Demo.proj_result; Demo.short_result])).
    exists Demo.short_result, Demo.stub.
    split; [right; left|]. split; [vm_compute; left|vm_compute; lia].
Defined.

(** The panic leaves the output cut before the line of the short hash. *)
Example short_hash_panics :
  printPretty (W := Demo.W) [Demo.proj_result; Demo.short_result]
  = Panicked
      ["📅 " +:+ ColorBold +:+ ColorCyan +:+ "2025-02-03 " +:+ ColorReset; "";
       "  " +:+ ColorBold +:+ "proj" +:+ ColorReset;
       "    " +:+ ColorGray +:+ "09:00" +:+ ColorReset +:+ " " +:+ ColorYellow
         +:+ "fix bug" +:+ ColorReset +:+ " (8f3a1c0)";
       "    " +:+ ColorGray +:+ "09:45" +:+ ColorReset +:+ " " +:+ ColorYellow
         +:+ "add test" +:+ ColorReset +:+ " (1d4e7a9)";
       "";
       "📅 " +:+ ColorBold +:+ ColorCyan +:+ "2025-02-04 " +:+ ColorReset; "";
       "  " +:+ ColorBold +:+ "short" +:+ ColorReset].
Proof. vm_compute. reflexivity. Qed.

(** *** Order of the output *)


Global Instance keyOrder_AntiSymm : AntiSymm (=) keyOrder.
Proof. intros k1 k2. apply keyOrder_antisym. Qed.

(** Two sorted arrangements of a day's entries show the same lines, when
    ties on the whole key agree on the message. *)
Lemma sorted_shown_unique (results : list RepoResult) (date : string)
    (l1 l2 : list ChangelogEntry) :
  tiesAgree results →
  l1 ≡ₚ flatEntries results date → l2 ≡ₚ flatEntries results date →
  StronglySorted entryOrder l1 → StronglySorted entryOrder l2 →
  shown <$> l1 = shown <$> l2.
Proof.
  intros Hties Hl1 Hl2 Hs1 Hs2.
  pose (R := λ s1 s2 : string * string * string * string, keyOrder s1.1 s2.1).
  apply (StronglySorted_unique_strong R).
  - intros s1 s2 H1 H2 H12 H21.
    apply list_elem_of_fmap in H1 as (e1 & -> & H1).
    apply list_elem_of_fmap in H2 as (e2 & -> & H2).
    rewrite Hl1 in H1. rewrite Hl2 in H2.
    assert (sortKey e1 = sortKey e2) as Hk by (by apply keyOrder_antisym).
    pose proof (Hties date e1 e2 H1 H2 Hk) as Hm.
    unfold shown. unfold sortKey in Hk. injection Hk as -> -> ->. by rewrite Hm.
  - by apply (StronglySorted_fmap _ entryOrder R).
  - by apply (StronglySorted_fmap _ entryOrder R).
  - by rewrite Hl1, Hl2.
Qed.


(** ** The lines of a day *)

Lemma andThen_Done o1 o2 : andThen (Done o1) (Done o2) = Done (o1 ++ o2).
Proof. done. Qed.

Lemma commitLine_commitText entries i e :
  entries !! i = Some e → (7 ≤ String.length (Hash (Commit_ e)))%nat →
  commitLine entries i = Some (commitText e).
Proof.
  intros Hi Hlen. unfold commitLine. rewrite Hi. simpl.
  by rewrite (proj2 (Nat.ltb_ge _ _) Hlen).
Qed.

Lemma printCommits_seq entries s n :
  (∀ e, e ∈ entries → (7 ≤ String.length (Hash (Commit_ e)))%nat) →
  (s + n ≤ length entries)%nat →
  printCommits entries (seq s n) = Done (commitText <$> take n (drop s entries)).
Proof.
  intros Hall. revert s. induction n as [|n IH]; intros s Hs; [done|].
  destruct (lookup_lt_is_Some_2 entries s) as [e He]; [lia|].
  change (seq s (S n)) with (s :: seq (S s) n).
  rewrite printCommits_cons, (commitLine_commitText _ _ e He).
  2:{ apply Hall. by eapply list_elem_of_lookup_2. }
  rewrite IH, andThen_Done by lia. by rewrite (drop_S _ _ _ He).
Qed.

Lemma printBlock_Done entries b :
  (∀ e, e ∈ entries → (7 ≤ String.length (Hash (Commit_ e)))%nat) →
  (StartIdx b ≤ S (EndIdx b) ≤ length entries)%nat →
  printBlock entries b
  = Done (blockHeader (BlockRepoName b)
          :: (commitText <$> take (S (EndIdx b) - StartIdx b) (drop (StartIdx b) entries))
          ++ [""]).
Proof.
  intros Hall Hb. unfold printBlock. rewrite printCommits_seq by (done || lia).
  by rewrite !andThen_Done.
Qed.

Lemma printBlocks_blockLoop entries rest i startIdx currentRepo :
  (∀ e, e ∈ entries → (7 ≤ String.length (Hash (Commit_ e)))%nat) →
  drop i entries = rest → (startIdx < i ≤ length entries)%nat →
  printBlocks entries (blockLoop rest i startIdx currentRepo)
  = Done (blockHeader currentRepo
          :: (commitText <$> take (i - startIdx) (drop startIdx entries))
          ++ renderFrom (Some currentRepo) rest).
Proof.
  intros Hall. revert i startIdx currentRepo.
  induction rest as [|e rest IH]; intros i s cur Hd Hi.
  - simpl blockLoop. rewrite printBlocks_cons, printBlock_Done by (done || simpl; lia).
    simpl. replace (S (i - 1) - s)%nat with (i - s)%nat by lia.
    by rewrite app_nil_r.
  - apply drop_cons_inv in Hd as (Hie & Hd & Hlt). simpl blockLoop.
    destruct (decide (RepoName e ≠ cur)) as [Hne|Heq].
    + rewrite printBlocks_cons, printBlock_Done by (done || simpl; lia).
      rewrite (IH (S i) i (RepoName e) Hd) by lia. rewrite andThen_Done. simpl.
      replace (S (i - 1) - s)%nat with (i - s)%nat by lia.
      replace (S i - i)%nat with 1%nat by lia.
      rewrite (drop_S _ _ _ Hie). simpl.
      rewrite decide_False by congruence.
      f_equal. f_equal. by rewrite <-app_assoc.
    + assert (RepoName e = cur) as Hcur.
      { destruct (decide (RepoName e = cur)); [done|by destruct Heq]. }
      rewrite (IH (S i) s cur Hd) by lia. simpl renderFrom.
      rewrite decide_True by (by rewrite Hcur). simpl app.
      replace (S i - s)%nat with (S (i - s)) by lia.
      rewrite (take_S_r _ _ e).
      2:{ rewrite lookup_drop. by replace (s + (i - s))%nat with i by lia. }
      by rewrite fmap_app, <-app_assoc, Hcur.
Qed.

Lemma printDayBody_renderFrom entries :
  (∀ e, e ∈ entries → (7 ≤ String.length (Hash (Commit_ e)))%nat) →
  printDayBody entries = Done (renderFrom None entries).
Proof.
  intros Hall. rewrite printDayBody_blocks. destruct entries as [|e0 rest]; [done|].
  simpl buildBlocks.
  rewrite (printBlocks_blockLoop (e0 :: rest) rest 1 0 (RepoName e0))
    by (done || simpl; lia).
  done.
Qed.

Section RenderLemmas.
Context `{W : World}.

Lemma printDays_render dateMap dates :
  (∀ date e, date ∈ dates → e ∈ dayEntries dateMap date →
     (7 ≤ String.length (Hash (Commit_ e)))%nat) →
  printDays dateMap dates
  = Done (dates ≫= λ date, dayHeader date ++ renderFrom None (dayEntries dateMap date)).
Proof.
  induction dates as [|date dates IH]; intros Hall; [done|].
  rewrite printDays_cons, printDay_body, printDayBody_renderFrom.
  2:{ intros e He. apply (Hall date); [by left|done]. }
  rewrite IH, !andThen_Done.
  2:{ intros d e Hd He. apply (Hall d); [by right|done]. }
  by rewrite bind_cons.
Qed.

End RenderLemmas.

Section OrderTheorems.
Context `{W : World}.

Lemma sortedDates_unique results results' :
  results ≡ₚ results' →
  sortedDates (buildDateMap results) = sortedDates (buildDateMap results').
Proof.
  intros Hp. apply (StronglySorted_unique_strong (λ a b, String.ltb b a = false)).
  - intros a b _ _. apply ltb_false_antisym.
  - apply sort_lessString_sorted.
  - apply sort_lessString_sorted.
  - unfold sortedDates. rewrite !sort_Slice_Permutation.
    by apply buildDateMap_keys_Permutation.
Qed.


Lemma dayEntries_shown results results' date :
  results ≡ₚ results' → tiesAgree results →
  shown <$> dayEntries (buildDateMap results) date
  = shown <$> dayEntries (buildDateMap results') date.
Proof.
  intros Hp Hties. apply (sorted_shown_unique results date); try done.
  - apply dayEntries_Permutation.
  - by rewrite dayEntries_Permutation, (flatEntries_Permutation _ _ date Hp).
  - apply sort_lessEntry_sorted.
  - apply sort_lessEntry_sorted.
Qed.

(** C7, mode by mode. For two orders of the collected results, pretty mode
    prints the same text whenever entries of a day that tie on timestamp,
    repository name and hash show the same message; JSON mode writes the
    repositories in the order collected: the arrays of two orders hold the
    same objects, each in the order of its list. *)
Theorem output_order (results results' : list RepoResult) :
  results ≡ₚ results' →
  (tiesAgree results → printPretty results = printPretty results')
  ∧ (∀ items, encodeResults results = JArray items →
       items = encodeRepoResult <$> results
       ∧ encodeResults results' = JArray (encodeRepoResult <$> results')
       ∧ items ≡ₚ encodeRepoResult <$> results').
Proof.
  intros Hp. split.
  - intros Hties. unfold printPretty.
    assert (buildDateMap results = ∅ ↔ buildDateMap results' = ∅) as Hemp.
    { rewrite <-!map_to_list_empty_iff.
      pose proof (buildDateMap_keys_Permutation _ _ Hp) as Hk.
      split; intros H; rewrite H in Hk.
      - apply Permutation_nil_l in Hk. symmetry in Hk. by apply fmap_nil_inv in Hk.
      - apply Permutation_nil_r in Hk. by apply fmap_nil_inv in Hk. }
    destruct (decide (buildDateMap results = ∅)) as [He|He].
    + by rewrite decide_True by by apply Hemp.
    + rewrite decide_False by (by rewrite <-Hemp).
      rewrite <-(sortedDates_unique _ _ Hp).
      induction (sortedDates (buildDateMap results)) as [|date dates IH]; [done|].
      rewrite !printDays_cons, IH, !printDay_body.
      by rewrite (printDayBody_shown _ _ (dayEntries_shown _ _ date Hp Hties)).
  - intros items Hi. unfold encodeResults in *.
    destruct results as [|r rs]; [discriminate|]. injection Hi as <-.
    split; [done|]. split; [|by apply (fmap_Permutation encodeRepoResult) in Hp].
    destruct results' as [|r' rs']; [|done].
    by apply Permutation_nil_r in Hp.
Qed.

End OrderTheorems.

(** Ties are decided by the hash whenever a hash stands for one message,
    as it does for the commits of real histories. *)
Lemma tiesAgree_hashes (results : list RepoResult) :
  Forall (λ c1, Forall (λ c2, Hash c1 = Hash c2 → Message c1 = Message c2)
                  (results ≫= resultCommits))
    (results ≫= resultCommits) →
  tiesAgree results.
Proof.
  intros Hall date e1 e2 H1 H2 Hk.
  assert (∀ e, e ∈ flatEntries results date → Commit_ e ∈ results ≫= resultCommits)
    as Hin.
  { intros e He. apply list_elem_of_bind.
    destruct (proj1 (flatEntries_commits results (Commit_ e))) as (r & ? & ?);
      [by exists date, e|]. by exists r. }
  rewrite Forall_forall in Hall. pose proof (Hall _ (Hin e1 H1)) as Hall1.
  rewrite Forall_forall in Hall1. apply (Hall1 _ (Hin e2 H2)).
  unfold sortKey in Hk. by injection Hk.
Qed.


Lemma output_order_witness :
  [Demo.proj_result; Demo.home_result] ≡ₚ [Demo.home_result; Demo.proj_result]
  ∧ tiesAgree [Demo.proj_result; Demo.home_result]
  ∧ printPretty (W := Demo.W) [Demo.proj_result; Demo.home_result]
    = printPretty (W := Demo.W) [Demo.home_result; Demo.proj_result].
Proof.
  assert ([Demo.proj_result; Demo.home_result] ≡ₚ [Demo.home_result; Demo.proj_result])
    as Hp by apply Permutation_swap.
  assert (tiesAgree [Demo.proj_result; Demo.home_result]) as Ht.
  { apply tiesAgree_hashes. vm_compute.
    repeat (constructor; [repeat (constructor; [first [done|intros ?; discriminate]|])|]);
      constructor. }
  split; [done|]. split; [done|].
  by apply (output_order (W := Demo.W) _ _ Hp).
Defined.

(** In JSON mode the array follows the order in which the workers
    finished; and in pretty mode two entries that tie on the whole sort
    key and show different messages come out in the order collected. *)
Lemma output_follows_collection_order :
  ([Demo.proj_result; Demo.empty_result] ≡ₚ [Demo.empty_result; Demo.proj_result]
   ∧ Run (W := Demo.W) (Demo.flags true) ["work/proj"; "work/empty"]
     = JSONOutput (encodeResults [Demo.proj_result; Demo.empty_result])
   ∧ Run (W := Demo.W) (Demo.flags true) ["work/empty"; "work/proj"]
     = JSONOutput (encodeResults [Demo.empty_result; Demo.proj_result])
   ∧ encodeResults [Demo.proj_result; Demo.empty_result]
     ≠ encodeResults [Demo.empty_result; Demo.proj_result])
  ∧ ([Demo.fix_result; Demo.twin_result] ≡ₚ [Demo.twin_result; Demo.fix_result]
     ∧ printPretty (W := Demo.W) [Demo.fix_result; Demo.twin_result]
       ≠ printPretty (W := Demo.W) [Demo.twin_result; Demo.fix_result]).
Proof.
  split; [split; [apply Permutation_swap|]|split; [apply Permutation_swap|]].
  - split; [vm_compute; reflexivity|]. split; [vm_compute; reflexivity|].
    intros H. vm_compute in H. discriminate.
  - intros H. vm_compute in H. discriminate.
Qed.

(** Scenario D: no repository found. *)
Example scenario_D : Run (W := Demo.W) (Demo.flags false) [] = NoRepos.
Proof. reflexivity. Qed.

(** The local clock drops the offset: 14:18 UTC and 14:18+01:00 read the
    same. *)
Example local_clock_ignores_offset :
  parseCommitLocalClock "2025-02-03T14:18:00Z"
  = parseCommitLocalClock "2025-02-03T14:18:00+01:00"
  ∧ GoTime.formatClock <$> parseCommitLocalClock "2025-02-03T14:18:00+01:00"
    = Some "14:18".
Proof. split; vm_compute; reflexivity. Qed.

Example extractDateKey_samples :
  extractDateKey "2025-02-03T23:30:00-08:00" = "2025-02-03"
  ∧ extractDateKey "2025-02-30T09:00:00Z" = "2025-02-30"
  ∧ extractDateKey "2025-02" = "".
Proof. repeat split; vm_compute; reflexivity. Qed.

Lemma no_partial_success_witness :
  "work/broken" ∈ ["work/proj"; "work/broken"]
  ∧ branchOrFetchFails (W := Demo.W) (Demo.flags false) "work/broken"
  ∧ ∃ msg offender,
      Run (W := Demo.W) (Demo.flags false) ["work/proj"; "work/broken"] = FatalExit msg
      ∧ offender ∈ ["work/proj"; "work/broken"]
      ∧ blames (W := Demo.W) (Demo.flags false) msg offender.
Proof.
  assert ("work/broken" ∈ ["work/proj"; "work/broken"]) as Hin by (right; left).
  assert (branchOrFetchFails (W := Demo.W) (Demo.flags false) "work/broken") as Hfail.
  { right. exists ["main"; "wip"], "wip", "exit status 128".
    split; [vm_compute; reflexivity|]. split; [right; left|vm_compute; reflexivity]. }
  split; [done|]. split; [done|].
  exact (no_partial_success (W := Demo.W) (Demo.flags false) _ _ Hin Hfail).
Defined.

Example fetch_failure_message :
  Run (W := Demo.W) (Demo.flags true) ["work/proj"; "work/broken"; "work/empty"]
  = FatalExit "error: error fetching commits for branch wip in repo work/broken: exit status 128".
Proof. vm_compute. reflexivity. Qed.

Lemma empty_repository_witness :
  worker (W := Demo.W) (Demo.flags true) "work/empty" = Appended [] Demo.empty_result
  ∧ encodeRepoResult Demo.empty_result
    = JObject [("path", JString "work/empty"); ("name", JString "empty");
               ("commits_by_date", JObject [])]
  ∧ ∀ finished j,
      "work/empty" ∈ finished →
      Run (W := Demo.W) (Demo.flags true) finished = JSONOutput j →
      ∃ items, j = JArray items ∧ encodeRepoResult Demo.empty_result ∈ items.
Proof.
  apply (empty_repository (W := Demo.W) (Demo.flags true) "work/empty" Demo.ada ["main"]).
  - vm_compute. reflexivity.
  - vm_compute. reflexivity.
  - intros br Hbr. apply list_elem_of_singleton in Hbr as ->.
    exists [Demo.bobs]. split; [vm_compute; reflexivity|].
    intros c Hc. apply list_elem_of_singleton in Hc as ->. vm_compute. reflexivity.
Defined.

(** Scenario E: of two repositories one has no commit in range; its
    object is in the array, with an empty mapping. *)
Example scenario_E :
  Run (W := Demo.W) (Demo.flags true) ["work/proj"; "work/empty"]
  = JSONOutput
      (JArray
         [JObject
            [("path", JString "work/proj"); ("name", JString "proj");
             ("commits_by_date",
              JObject
                [("2025-02-03",
                  JArray [encodeCommit Demo.fix_bug; encodeCommit Demo.add_test])])];
          JObject
            [("path", JString "work/empty"); ("name", JString "empty");
             ("commits_by_date", JObject [])]]).
Proof. vm_compute. reflexivity. Qed.

(** ** Path depth *)

Lemma Split_no_sep sep s :
  (∀ c, c ∈ bytes s → c ≠ sep) → Split sep s = [s].
Proof.
  induction s as [|c s IH]; intros Hs; simpl; [done|].
  destruct (Ascii.eqb c sep) eqn:E.
  - apply Ascii.eqb_eq in E. destruct (Hs c); [by left|done].
  - rewrite IH; [done|]. intros c' Hc'. apply Hs. by right.
Qed.

Lemma Split_nonempty sep s : Split sep s ≠ [].
Proof.
  destruct s as [|c s]; simpl; [done|].
  destruct (Ascii.eqb c sep); [done|]. by destruct (Split sep s).
Qed.

Lemma Split_app_sep sep a b :
  Split sep (a +:+ String sep b) = Split sep a ++ Split sep b.
Proof.
  induction a as [|c a IH]; simpl.
  - by rewrite Ascii.eqb_refl.
  - destruct (Ascii.eqb c sep); [by rewrite IH|].
    rewrite IH. pose proof (Split_nonempty sep a).
    by destruct (Split sep a).
Qed.

(** [filepath.Split]: [path = dir + file], no separator in [file], and
    [dir] empty or ending in one. *)
Lemma filepath_Split_spec path :
  let '(dir, file) := filepath_Split path in
  path = dir +:+ file
  ∧ (∀ c, c ∈ bytes file → c ≠ Separator)
  ∧ (dir = "" ∨ ∃ d, dir = d +:+ String Separator "").
Proof.
  induction path as [|c rest IH]; simpl.
  - split; [done|]. split; [|by left]. intros c Hc. by apply elem_of_nil in Hc.
  - destruct (filepath_Split rest) as [dir file]. destruct IH as (-> & Hfile & Hdir).
    destruct (decide (dir = "")) as [->|Hne].
    + destruct (Ascii.eqb c Separator) eqn:E.
      * apply Ascii.eqb_eq in E as ->. split; [done|]. split; [done|].
        right. by exists "".
      * split; [done|]. split; [|by left].
        intros c' Hc'. apply elem_of_cons in Hc' as [->|Hc']; [|by apply Hfile].
        by apply Ascii.eqb_neq.
    + split; [done|]. split; [done|]. right.
      destruct Hdir as [?|[d ->]]; [done|]. by exists (String c d).
Qed.

Lemma TrimSuffixSeparator_app d :
  TrimSuffixSeparator (d +:+ String Separator "") = d.
Proof.
  induction d as [|c d IH]; [done|].
  change (String c d +:+ String Separator "") with (String c (d +:+ String Separator "")).
  simpl. rewrite IH. by destruct d.
Qed.

Lemma length_app_string a b :
  String.length (a +:+ b) = (String.length a + String.length b)%nat.
Proof.
  induction a as [|c a IH]; [done|].
  change (S (String.length (a +:+ b)) = S (String.length a + String.length b)).
  by rewrite IH.
Qed.

Lemma app_string_assoc a b c : (a +:+ b) +:+ c = a +:+ (b +:+ c).
Proof.
  induction a as [|x a IH]; [done|].
  change (String x ((a +:+ b) +:+ c) = String x (a +:+ (b +:+ c))). by rewrite IH.
Qed.

Lemma filter_snoc_parts (l : list string) file parts :
  filter (λ s, s ≠ "") (l ++ [file]) ++ parts
  = filter (λ s, s ≠ "") l ++ (if decide (file = "") then parts else file :: parts).
Proof.
  rewrite filter_app, filter_cons, filter_nil.
  destruct (decide (file = "")) as [->|Hne].
  - rewrite decide_False by (intros H; by apply H). by rewrite app_nil_r.
  - rewrite decide_True by done. by rewrite <-app_assoc.
Qed.

Lemma splitPathLoop_segments fuel p parts :
  (String.length p < fuel)%nat →
  splitPathLoop fuel p parts = Some (segments p ++ parts).
Proof.
  revert p parts. induction fuel as [|fuel IH]; intros p parts Hfuel; [lia|].
  simpl. pose proof (filepath_Split_spec p) as Hspec.
  destruct (filepath_Split p) as [dir file]. destruct Hspec as (-> & Hfile & Hdir).
  unfold segments.
  destruct Hdir as [->|[d ->]].
  - rewrite decide_True by (by left). change ("" +:+ file) with file in *.
    rewrite (Split_no_sep _ _ Hfile).
    exact (f_equal Some (eq_sym (filter_snoc_parts [] file parts))).
  - rewrite app_string_assoc in *.
    change (String Separator "" +:+ file) with (String Separator file) in *.
    rewrite Split_app_sep, (Split_no_sep _ _ Hfile), filter_snoc_parts.
    destruct (decide (d = "")) as [->|Hd].
    + by rewrite decide_True by (by right).
    + rewrite decide_False.
      2:{ intros [H|H]; [by destruct d|].
          destruct d as [|c [|c' d']]; simpl in H; try done. }
      rewrite TrimSuffixSeparator_app, IH; [done|].
      rewrite !length_app_string in Hfuel. simpl in Hfuel. lia.
Qed.

(** X1. [splitPath] ends on every path, within a number of rounds bounded
    by the length of the path, and returns its segments in order: the
    pieces between slashes, with the empty ones (from a leading, trailing
    or doubled slash) left out. *)
Theorem splitPath_segments (p : string) :
  splitPath p = Some (segments p).
Proof.
  unfold splitPath. rewrite splitPathLoop_segments by lia. by rewrite app_nil_r.
Qed.

(** ** Reading the output of [git] *)

Lemma Split_pieces_noByte sep s : Forall (noByte sep) (Split sep s).
Proof.
  induction s as [|c s IH]; simpl.
  - constructor; [|constructor]. intros c Hc. by apply elem_of_nil in Hc.
  - destruct (Ascii.eqb c sep) eqn:E.
    + constructor; [|done]. intros c' Hc'. by apply elem_of_nil in Hc'.
    + pose proof (Split_nonempty sep s) as Hne.
      destruct (Split sep s) as [|p ps]; [done|].
      apply Forall_cons in IH as [Hp Hps]. constructor; [|done].
      intros c' Hc'. apply elem_of_cons in Hc' as [->|Hc']; [|by apply Hp].
      by apply Ascii.eqb_neq.
Qed.

Lemma concat_Split sep s :
  String.concat (String sep EmptyString) (Split sep s) = s.
Proof.
  induction s as [|c s IH]; simpl; [done|].
  destruct (Ascii.eqb c sep) eqn:E.
  - apply Ascii.eqb_eq in E as ->.
    pose proof (Split_nonempty sep s). destruct (Split sep s) as [|p ps]; [done|].
    change (String.concat (String sep "") ("" :: p :: ps))
      with (String sep (String.concat (String sep "") (p :: ps))).
    by rewrite IH.
  - pose proof (Split_nonempty sep s). destruct (Split sep s) as [|p ps]; [done|].
    destruct ps as [|q qs]; simpl in *; by rewrite <-IH.
Qed.

Lemma bytes_app a b : bytes (a +:+ b) = bytes a ++ bytes b.
Proof.
  unfold bytes. induction a as [|x a IH]; [done|].
  change (String x a +:+ b) with (String x (a +:+ b)). simpl. by rewrite IH.
Qed.

Lemma noByte_app sep a b : noByte sep (a +:+ b) ↔ noByte sep a ∧ noByte sep b.
Proof.
  unfold noByte. rewrite bytes_app. split.
  - intros H. split; intros c Hc; apply H, elem_of_app; [by left|by right].
  - intros [Ha Hb] c Hc. apply elem_of_app in Hc as [Hc|Hc]; [by apply Ha|by apply Hb].
Qed.

Lemma Split_recordText (c : Commit) :
  noByte US (Hash c) → noByte US (AuthorName c) → noByte US (AuthorEmail c) →
  noByte US (Date c) →
  Split US (recordText c)
  = Hash c :: AuthorName c :: AuthorEmail c :: Date c :: Split US (Message c).
Proof.
  intros Hh Hn He Hd. unfold recordText.
  rewrite !Split_app_sep.
  by rewrite (Split_no_sep _ _ Hh), (Split_no_sep _ _ Hn), (Split_no_sep _ _ He),
    (Split_no_sep _ _ Hd).
Qed.

Lemma recordText_nonempty c : recordText c ≠ "".
Proof. unfold recordText. destruct (Hash c); discriminate. Qed.

Lemma omap_cons_Some {A B} (f : A → option B) x y l :
  f x = Some y → omap f ([x] ++ l) = y :: omap f l.
Proof. intros H. simpl. by rewrite H. Qed.

Lemma omap_singleton_None {A B} (f : A → option B) x :
  f x = None → omap f [x] = [].
Proof. intros H. simpl. by rewrite H. Qed.

Section WireFacts.
Context `{W : World}.

(** X2. A record whose white space trims away to the wire text of a commit
    parses to that commit, with the subject cut at its first field
    separator if it has one; the other fields must be free of it. *)
Theorem parseRecord_recordText (rec : string) (c : Commit) :
  strings_TrimSpace rec = recordText c →
  noByte US (Hash c) → noByte US (AuthorName c) → noByte US (AuthorEmail c) →
  noByte US (Date c) →
  parseRecord rec = Some (subjectKept c).
Proof.
  intros Ht Hh Hn He Hd. unfold parseRecord, subjectKept. rewrite Ht.
  rewrite decide_False by apply recordText_nonempty.
  rewrite Split_recordText by done.
  pose proof (Split_nonempty US (Message c)).
  by destruct (Split US (Message c)).
Qed.

Lemma subjectKept_id c : noByte US (Message c) → subjectKept c = c.
Proof.
  intros Hm. unfold subjectKept. rewrite Split_no_sep by done. by destruct c.
Qed.

Lemma omap_parseRecord_logText (commits : list Commit) (pre : string) :
  strings_TrimSpace "" = "" →
  (∀ c, c ∈ commits →
     wireSafe c ∧ noByte US (Message c)
     ∧ strings_TrimSpace (recordText c) = recordText c
     ∧ strings_TrimSpace (String LF (recordText c)) = recordText c) →
  pre = "" ∨ pre = String LF "" →
  commits ≠ [] →
  omap parseRecord (Split RS (pre +:+ logText commits)) = commits.
Proof.
  intros Hemp. revert pre. induction commits as [|c cs IH]; intros pre Hall Hpre Hne; [done|].
  destruct (Hall c) as ((Hh & Hn & He & Hd & Hrs) & Hm & Ht1 & Ht2); [by left|].
  assert (parseRecord (pre +:+ recordText c) = Some c) as Hrec.
  { rewrite <-(subjectKept_id c Hm) at 2. apply parseRecord_recordText; try done.
    destruct Hpre as [-> | ->]; [exact Ht1|exact Ht2]. }
  assert (noByte RS (pre +:+ recordText c)) as Hpre_rs.
  { apply noByte_app. split; [|done].
    destruct Hpre as [-> | ->]; intros x Hx.
    - by apply elem_of_nil in Hx.
    - apply list_elem_of_singleton in Hx as ->. done. }
  unfold logText. destruct cs as [|c' cs'].
  - change (String.concat _ _) with (recordText c +:+ String RS "").
    rewrite <-app_string_assoc, Split_app_sep, Split_no_sep by done.
    rewrite (omap_cons_Some _ _ _ _ Hrec). f_equal.
    apply omap_singleton_None. unfold parseRecord.
    by rewrite Hemp, decide_True.
  - change (String.concat (String LF "") ((λ c, recordText c +:+ String RS "") <$> c :: c' :: cs'))
      with ((recordText c +:+ String RS "")
            +:+ (String LF "" +:+ logText (c' :: cs'))).
    rewrite (app_string_assoc (recordText c)).
    change (String RS "" +:+ (String LF "" +:+ logText (c' :: cs')))
      with (String RS (String LF "" +:+ logText (c' :: cs'))).
    rewrite <-app_string_assoc, Split_app_sep, Split_no_sep by done.
    rewrite (omap_cons_Some _ _ _ _ Hrec). f_equal. apply IH; [|by right|done].
    intros c0 Hc0. apply Hall. by right.
Qed.

(** X3. When the output of [git log], trimmed, is the wire text of a list
    of commits whose fields hold no separator byte and whose records stay
    as they are under [TrimSpace], [fetchCommitsForBranch] returns exactly
    these commits, in the order printed. *)
Theorem fetch_reads_log (repoPath branch from to out : string) (commits : list Commit) :
  exec_Output "git"
    ["-C"; repoPath; "log"; branch; "--since=" +:+ from; "--until=" +:+ to;
     "--pretty=format:" +:+ "%H%x1f%an%x1f%ae%x1f%aI%x1f%s%x1e"] = Ok out →
  strings_TrimSpace out = logText commits →
  strings_TrimSpace "" = "" →
  (∀ c, c ∈ commits →
     wireSafe c ∧ noByte US (Message c)
     ∧ strings_TrimSpace (recordText c) = recordText c
     ∧ strings_TrimSpace (String LF (recordText c)) = recordText c) →
  fetchCommitsForBranch repoPath branch from to = Ok commits.
Proof.
  intros Hout Htrim Hemp Hall. unfold fetchCommitsForBranch.
  rewrite Hout, Htrim. destruct commits as [|c cs]; [done|].
  rewrite decide_False.
  2:{ unfold logText. destruct cs; simpl.
      - pose proof (recordText_nonempty c). by destruct (recordText c).
      - pose proof (recordText_nonempty c). by destruct (recordText c). }
  f_equal. apply (omap_parseRecord_logText (c :: cs) ""); auto.
Qed.

(** X4. The branches [listBranches] returns are the lines of the trimmed
    output of [git for-each-ref]: joined by line feeds they give it back,
    none of them holds a line feed, and an empty output gives no branch at
    all.  An error of the process is passed on unchanged. *)
Theorem listBranches_lines (repoPath : string) :
  match exec_Output "git"
          ["-C"; repoPath; "for-each-ref"; "--format=%(refname:short)"; "refs/heads/"] with
  | Err e => listBranches repoPath = Err e
  | Ok out =>
      ∃ branches,
        listBranches repoPath = Ok branches
        ∧ String.concat (String LF EmptyString) branches = strings_TrimSpace out
        ∧ Forall (noByte LF) branches
        ∧ (branches = [] ↔ strings_TrimSpace out = "")
  end.
Proof.
  unfold listBranches. destruct (exec_Output _ _) as [out|e]; [|done].
  destruct (decide (strings_TrimSpace out = "")) as [He|Hne].
  - exists []. rewrite He. by repeat split.
  - exists (Split LF (strings_TrimSpace out)). split; [done|].
    split; [apply concat_Split|]. split; [apply Split_pieces_noByte|].
    split; [intros H; by apply Split_nonempty in H|done].
Qed.

End WireFacts.

(** ** The local clock of a commit *)

Module LocalClockFacts.
Import GoTime GoTimeFacts.

Lemma getnum_free_Some l n v :
  getnum false l = Some (n, v) →
  (∃ a b, l = a :: b :: v ∧ isDigit a = true ∧ isDigit b = true
     ∧ n = digit a * 10 + digit b)
  ∨ (∃ a, l = a :: v ∧ isDigit a = true ∧ n = digit a).
Proof.
  destruct l as [|a [|b l]]; simpl; try discriminate.
  - destruct (isDigit a) eqn:Ha; [|discriminate]. intros [= <- <-]. right. by exists a.
  - destruct (isDigit a) eqn:Ha; [|discriminate].
    destruct (isDigit b) eqn:Hb; intros [= <- <-]; [left; by exists a, b|right; by exists a].
Qed.

(** A text of nineteen bytes that parses under "2006-01-02T15:04:05" has
    two digits in every field but the year, and no fraction. *)
Lemma parseDateTime_19 s t :
  parseDateTime s = Some t → String.length s = 19%nat →
  ∃ d1 d2 d3 d4 d5 d6 d7 d8 d9 d10 h1 h2 m1 m2 s1 s2,
    bytes s = [d1; d2; d3; d4; d5; d6; d7; d8; d9; d10; "T"%char;
               h1; h2; ":"%char; m1; m2; ":"%char; s1; s2]
    ∧ isDigit h1 = true ∧ isDigit h2 = true ∧ isDigit m1 = true ∧ isDigit m2 = true
    ∧ hour t = digit h1 * 10 + digit h2
    ∧ minute t = digit m1 * 10 + digit m2
    ∧ nsec t = 0 ∧ zoneOffset t = 0.
Proof.
  unfold parseDateTime, parse. intros H Hlen.
  assert (length (bytes s) = 19%nat) as Hbytes.
  { unfold bytes. clear H. revert Hlen. generalize 19%nat.
    induction s as [|c s IH]; intros n; simpl; [done|].
    destruct n; [done|]. intros [= Hn]. by rewrite (IH n). }
  apply bind_Some in H as ([y v0] & Hy & H).
  apply bind_Some in H as (v1 & Hl1 & H).
  apply bind_Some in H as ([mo v2] & Hmo & H).
  apply bind_Some in H as (v3 & Hl2 & H).
  apply bind_Some in H as ([dd v4] & Hd & H).
  apply bind_Some in H as (v5 & Hl3 & H).
  apply bind_Some in H as ([h v6] & Hh & H).
  apply bind_Some in H as (v7 & Hl4 & H).
  apply bind_Some in H as ([mi v8] & Hmi & H).
  apply bind_Some in H as (v9 & Hl5 & H).
  apply bind_Some in H as ([sec v10] & Hs & H).
  destruct (fraction v10) as [ns v11] eqn:Hfr.
  apply bind_Some in H as ([off v12] & Hoff & H).
  injection Hoff as <- <-.
  destruct v11; [|discriminate].
  match type of H with (if ?c then _ else _) = _ => destruct c end; [|discriminate].
  injection H as <-. simpl.
  apply getyear_Some in Hy as (a & b & c & d & Hb0 & _).
  apply lit_Some in Hl1 as ->.
  apply getnum_fixed_Some in Hmo as (mo1 & mo2 & -> & _).
  apply lit_Some in Hl2 as ->.
  apply getnum_fixed_Some in Hd as (dd1 & dd2 & -> & _).
  apply lit_Some in Hl3 as ->.
  apply lit_Some in Hl4 as ->.
  apply getnum_fixed_Some in Hmi as (m1 & m2 & -> & Hm1 & Hm2 & ->).
  apply lit_Some in Hl5 as ->.
  apply getnum_fixed_Some in Hs as (s1 & s2 & -> & _).
  rewrite Hb0 in Hbytes.
  apply getnum_free_Some in Hh
    as [(h1 & h2 & -> & Hh1 & Hh2 & ->)|(h1 & -> & Hh1 & ->)]; simpl in Hbytes.
  - destruct v10; [|simpl in Hbytes; lia]. injection Hfr as <-.
    exists a, b, c, d, "-"%char, mo1, mo2, "-"%char, dd1, dd2, h1, h2, m1, m2, s1, s2.
    by rewrite Hb0.
  - destruct v10 as [|x [|x' v10]]; simpl in Hbytes; try lia. discriminate.
Qed.

End LocalClockFacts.

Lemma substring_bytes n m s :
  bytes (String.substring n m s) = take m (drop n (bytes s)).
Proof.
  unfold bytes. revert n m.
  induction s as [|c s IH]; intros [|n] [|m]; simpl; rewrite ?IH; done.
Qed.

Lemma bytes_inj s1 s2 : bytes s1 = bytes s2 → s1 = s2.
Proof.
  intros H. rewrite <-(string_of_list_ascii_of_string s1),
    <-(string_of_list_ascii_of_string s2). unfold bytes in H. by rewrite H.
Qed.

(** X5. When the local clock of a timestamp parses, the time of day that
    [printPretty] shows is bytes 11 to 15 of the timestamp, the [HH:MM] as
    written: the offset is neither read nor applied, and the instant has
    no fraction of a second. *)
Theorem local_clock_as_written (iso : string) (t : GoTime.Time) :
  parseCommitLocalClock iso = Some t →
  GoTime.formatClock t = String.substring 11 5 iso
  ∧ GoTime.formatDate t = prefix_slice 10 iso
  ∧ GoTime.nsec t = 0 ∧ GoTime.zoneOffset t = 0
  ∧ ∀ iso', prefix_slice 19 iso' = prefix_slice 19 iso →
      (19 ≤ String.length iso')%nat → parseCommitLocalClock iso' = Some t.
Proof.
  intros Hp. pose proof Hp as Hp0.
  apply parseCommitLocalClock_Some in Hp as [Hlen Hp].
  pose proof (prefix_slice_length 19 iso Hlen) as Hl19.
  destruct (LocalClockFacts.parseDateTime_19 _ _ Hp Hl19)
    as (d1 & d2 & d3 & d4 & d5 & d6 & d7 & d8 & d9 & d10 & h1 & h2 & m1 & m2 & s1 & s2
        & Hb & Hh1 & Hh2 & Hm1 & Hm2 & Hh & Hm & Hns & Hz).
  split; [|split; [|split; [done|split; [done|]]]].
  - unfold GoTime.formatClock. rewrite Hh, Hm, !GoTimeFacts.pad2_digits by done.
    apply bytes_inj. rewrite substring_bytes.
    unfold prefix_slice in Hb. rewrite substring_bytes in Hb. simpl in Hb.
    change (drop 0 (bytes iso)) with (bytes iso) in Hb.
    assert (take 5 (drop 11 (take 19 (bytes iso))) = take 5 (drop 11 (bytes iso))) as <-.
    { rewrite take_drop_commute, take_take.
      by rewrite (take_drop_commute (bytes iso) 5 11). }
    by rewrite Hb.
  - apply GoTimeFacts.parse_formatDate in Hp as [-> _].
    by rewrite prefix_slice_prefix by lia.
  - intros iso' Hpre Hlen'. unfold parseCommitLocalClock.
    rewrite (proj2 (Nat.ltb_ge _ _) Hlen'), Hpre. exact Hp.
Qed.

(** ** The text of the changelog *)

Section RenderFacts.
Context `{W : World}.

(** X6. When every hash has at least seven bytes, [printPretty] writes
    "(no commits)" for results without a commit and otherwise, day by day
    in ascending order, the day's header and its sorted entries one line
    each, in order, with a repository header before the first entry and
    at each change of repository name and an empty line closing each run:
    every commit is printed once, none is dropped. *)
Theorem pretty_text (results : list RepoResult) :
  (∀ r c, r ∈ results → c ∈ resultCommits r → (7 ≤ String.length (Hash c))%nat) →
  let dateMap := buildDateMap results in
  printPretty results
  = Done (if decide (dateMap = ∅) then ["(no commits)"]
          else sortedDates dateMap ≫= λ date,
                 dayHeader date ++ renderFrom None (dayEntries dateMap date)).
Proof.
  intros Hall dateMap. unfold printPretty. fold dateMap.
  destruct (decide (dateMap = ∅)); [done|].
  apply printDays_render. intros date e _ He. subst dateMap.
  rewrite dayEntries_Permutation in He.
  destruct (proj1 (flatEntries_commits results (Commit_ e))) as (r & Hr & Hc);
    [by exists date, e|]. by apply (Hall r).
Qed.

(** X7. [printPretty] writes the single line "(no commits)" exactly when
    no repository of the results has a commit in any bucket. *)
Theorem no_commits_line (results : list RepoResult) :
  printPretty results = Done ["(no commits)"]
  ↔ ∀ r, r ∈ results → resultCommits r = [].
Proof.
  split.
  - intros Hp r Hr. destruct (resultCommits r) as [|c cs] eqn:Hc; [done|]. exfalso.
    destruct (proj2 (flatEntries_commits results c)) as (date & e & He & _).
    { exists r. split; [done|]. rewrite Hc. by left. }
    assert (date ∈ sortedDates (buildDateMap results)) as Hd.
    { apply sortedDates_elem. intros Hnil. rewrite Hnil in He. by apply elem_of_nil in He. }
    unfold printPretty in Hp.
    destruct (decide (buildDateMap results = ∅)) as [Hemp|Hne].
    { unfold sortedDates in Hd. rewrite Hemp, map_to_list_empty in Hd.
      rewrite sort_Slice_Permutation in Hd. by apply elem_of_nil in Hd. }
    destruct (sortedDates (buildDateMap results)) as [|d ds]; [by apply elem_of_nil in Hd|].
    rewrite printDays_cons, printDay_body in Hp.
    destruct (printDayBody (dayEntries (buildDateMap results) d)) as [o|o];
      destruct (printDays (buildDateMap results) ds) as [o'|o']; simpl in Hp;
      discriminate.
  - intros Hnone. unfold printPretty. rewrite decide_True; [done|].
    apply map_empty. intros date.
    destruct (buildDateMap results !! date) as [l|] eqn:Hl; [|done]. exfalso.
    assert (flatEntries results date ≠ []) as Hne.
    { apply buildDateMap_is_Some. by eexists. }
    destruct (flatEntries results date) as [|e es] eqn:He; [done|].
    destruct (proj1 (flatEntries_commits results (Commit_ e))) as (r & Hr & Hc).
    { exists date, e. split; [|done]. rewrite He. by left. }
    rewrite (Hnone r Hr) in Hc. by apply elem_of_nil in Hc.
Qed.

End RenderFacts.

(** ** Blocks are maximal runs *)

Lemma blockLoop_head rest i startIdx currentRepo :
  ∃ b bs, blockLoop rest i startIdx currentRepo = b :: bs
    ∧ StartIdx b = startIdx ∧ BlockRepoName b = currentRepo.
Proof.
  revert i startIdx currentRepo. induction rest as [|e rest IH]; intros i s cur; simpl.
  - by eexists _, _.
  - destruct (decide (RepoName e ≠ cur)); [by eexists _, _|apply IH].
Qed.

Lemma blockLoop_adjacent rest i startIdx currentRepo k b b' :
  (startIdx < i)%nat →
  blockLoop rest i startIdx currentRepo !! k = Some b →
  blockLoop rest i startIdx currentRepo !! S k = Some b' →
  StartIdx b' = S (EndIdx b) ∧ BlockRepoName b' ≠ BlockRepoName b.
Proof.
  revert i startIdx currentRepo k. induction rest as [|e rest IH]; intros i s cur k Hi; simpl.
  - by destruct k.
  - destruct (decide (RepoName e ≠ cur)) as [Hne|Heq]; [|apply IH; lia].
    destruct k as [|k]; simpl.
    + intros [= <-]. destruct (blockLoop_head rest (S i) i (RepoName e))
        as (b0 & bs & -> & Hs & Hn). intros [= <-]. simpl. rewrite Hs, Hn.
      split; [lia|done].
    + apply IH. lia.
Qed.

(** X8. The blocks of a day are maximal runs: each block starts right
    after the one before it ends, under a different repository name. *)
Theorem blocks_maximal (entries : list ChangelogEntry) :
  ∃ blocks,
    dayBlocks entries = Some blocks
    ∧ ∀ k b b', blocks !! k = Some b → blocks !! S k = Some b' →
        StartIdx b' = S (EndIdx b) ∧ BlockRepoName b' ≠ BlockRepoName b.
Proof.
  destruct (dayBlocks_Some entries) as (blocks & Hd & Ht).
  exists blocks. split; [done|]. intros k b b' Hb Hb'.
  destruct (Forall2_lookup_r _ _ _ _ _ Ht Hb) as (b0 & Hb0 & Hs & He & Hn & _).
  destruct (Forall2_lookup_r _ _ _ _ _ Ht Hb') as (b0' & Hb0' & Hs' & He' & Hn' & _).
  rewrite Hs', He, Hn, Hn'.
  destruct entries as [|e0 rest]; [done|]. simpl in Hb0, Hb0'.
  apply (blockLoop_adjacent rest 1 0 (RepoName e0) k b0 b0'); [lia|done|done].
Qed.

(** ** The run as a whole *)

Section RunFacts.
Context `{W : World}.
Variable flags : Flags.

Lemma collect_first_Fatal finished rs es lg :
  (∃ p, p ∈ finished ∧ ∃ msg, worker flags p = Fatal msg) →
  ∃ msg, collect flags finished rs es lg = Exited msg.
Proof.
  revert rs es lg. induction finished as [|q rest IH]; intros rs es lg (p & Hp & msg & Hw).
  - by apply elem_of_nil in Hp.
  - simpl. destruct (worker flags q) as [m|err|ws r] eqn:Hq; [by eexists| |].
    + apply IH. apply elem_of_cons in Hp as [->|Hp]; [congruence|]. by exists p; eauto.
    + apply IH. apply elem_of_cons in Hp as [->|Hp]; [congruence|]. by exists p; eauto.
Qed.

(** X9. A repository of the run without a usable [user.email] ends the
    whole run in [log.Fatalf], with the message of a repository whose
    identity is missing, whatever the other workers did: errors of
    branches and fetches are then never reported and nothing is written
    to standard output. *)
Theorem missing_identity_is_fatal (finished : list string) (repoPath e : string) :
  repoPath ∈ finished →
  getGitUserEmail repoPath = Err e →
  ∃ offender e',
    offender ∈ finished
    ∧ getGitUserEmail offender = Err e'
    ∧ Run flags finished = FatalExit ("could not detect git user email: " +:+ e').
Proof.
  intros Hin He. unfold Run.
  destruct finished as [|p0 rest] eqn:Hfin; [by apply elem_of_nil in Hin|].
  rewrite <-Hfin in *. clear Hfin.
  destruct (collect_first_Fatal finished [] [] []) as [msg Hc].
  { exists repoPath. split; [done|]. unfold worker. rewrite He. by eexists. }
  rewrite Hc. apply collect_Exited in Hc as (q & Hq & Hw).
  apply worker_Fatal in Hw as (e' & He' & ->). by exists q, e'.
Qed.

Lemma collect_Waited_no_Fatal finished rs es lg results errCh log :
  collect flags finished rs es lg = Waited results errCh log →
  ∀ p m, p ∈ finished → worker flags p ≠ Fatal m.
Proof.
  revert rs es lg. induction finished as [|q rest IH]; intros rs es lg Hc p m Hp.
  - by apply elem_of_nil in Hp.
  - simpl in Hc. destruct (worker flags q) as [m'|err|ws r] eqn:Hq; [done| |].
    + apply elem_of_cons in Hp as [->|Hp]; [congruence|by eapply IH].
    + apply elem_of_cons in Hp as [->|Hp]; [congruence|by eapply IH].
Qed.

Lemma appended_Path p r : appended flags p = Some r → Path r = p.
Proof.
  intros Hp. unfold appended in Hp.
  destruct (worker flags p) as [| |lg r'] eqn:Hw; try discriminate.
  injection Hp as ->.
  destruct (worker_Appended _ _ _ _ Hw) as (? & ? & ? & _ & _ & _ & _ & Hr).
  by rewrite Hr.
Qed.

Lemma appended_Forall2 finished :
  Forall (λ p, is_Some (appended flags p)) finished →
  Forall2 (λ p r, appended flags p = Some r ∧ Path r = p) finished
    (omap (appended flags) finished).
Proof.
  induction 1 as [|p ps [r Hr] _ IH]; [constructor|].
  simpl. rewrite Hr. constructor; [|done]. split; [done|by apply appended_Path].
Qed.

(** X10. The run writes an output exactly when every worker appended a
    result, and then the output is made from one result per repository,
    in the order the workers finished, each the result of its own
    worker. *)
Theorem output_is_complete (finished : list string) :
  finished ≠ [] →
  (Forall (λ p, is_Some (appended flags p)) finished →
   ∃ results,
     Forall2 (λ p r, appended flags p = Some r ∧ Path r = p) finished results
     ∧ Run flags finished
       = if flagJSON flags then JSONOutput (encodeResults results)
         else PrettyOutput (printPretty results))
  ∧ ((∃ j, Run flags finished = JSONOutput j) ∨ (∃ p, Run flags finished = PrettyOutput p) →
     Forall (λ p, is_Some (appended flags p)) finished).
Proof.
  intros Hne.
  split.
  - intros Hall. exists (omap (appended flags) finished).
    split; [by apply appended_Forall2|].
    unfold Run. destruct finished as [|p0 rest] eqn:Hfin; [done|].
    rewrite <-Hfin in *. clear Hfin.
    destruct (collect flags finished [] [] []) as [msg|results errCh log] eqn:Hc.
    + apply collect_Exited in Hc as (q & Hq & Hw). rewrite Forall_forall in Hall.
      destruct (Hall q Hq) as [r Hr]. unfold appended in Hr. by rewrite Hw in Hr.
    + destruct (collect_Waited _ _ _ _ _ _ _ _ Hc) as [-> ->]. simpl.
      destruct (omap (failure flags) finished) as [|err errs] eqn:Herr; [done|].
      assert (err ∈ omap (failure flags) finished) as Hin by (rewrite Herr; by left).
      apply list_elem_of_omap in Hin as (q & Hq & Hf). rewrite Forall_forall in Hall.
      destruct (Hall q Hq) as [r Hr]. unfold appended in Hr. unfold failure in Hf.
      by destruct (worker flags q).
  - intros Hout. unfold Run in Hout.
    destruct finished as [|p0 rest] eqn:Hfin; [done|].
    rewrite <-Hfin in *. clear Hfin.
    destruct (collect flags finished [] [] []) as [msg|results errCh log] eqn:Hc.
    { by destruct Hout as [[? ?]|[? ?]]. }
    pose proof Hc as Hc0.
    destruct (collect_Waited _ _ _ _ _ _ _ _ Hc) as [-> ->]. simpl in Hout.
    destruct (omap (failure flags) finished) as [|err errs] eqn:Herr.
    2:{ by destruct Hout as [[? ?]|[? ?]]. }
    apply Forall_forall. intros q Hq. unfold appended.
    destruct (worker flags q) as [m|err|lg r] eqn:Hw; [| |by eexists].
    + exfalso. by apply (collect_Waited_no_Fatal _ _ _ _ _ _ _ Hc0 q m).
    + exfalso. assert (err ∈ omap (failure flags) finished) as Hin.
      { apply list_elem_of_omap. exists q. split; [done|]. unfold failure. by rewrite Hw. }
      rewrite Herr in Hin. by apply elem_of_nil in Hin.
Qed.

End RunFacts.

(** ** The [lsof] command *)
Module LsofFacts.
Import Lsof.

Lemma wrap_small (n : Z) : - 2 ^ 63 ≤ n < 2 ^ 63 → wrap n = n.
Proof.
  intros Hn. unfold wrap.
  destruct (Z_lt_le_dec n 0) as [Hneg|Hpos].
  - replace (n mod 2 ^ 64) with (n + 2 ^ 64)
      by (apply Z.mod_unique with (-1); lia).
    destruct (Z.ltb_spec (n + 2 ^ 64) (2 ^ 63)); lia.
  - rewrite Z.mod_small by lia.
    destruct (Z.ltb_spec n (2 ^ 63)); lia.
Qed.

Lemma sumCounts_Permutation (l l' : list Process) :
  l ≡ₚ l' → sumCounts l = sumCounts l'.
Proof.
  induction 1; simpl; lia.
Qed.

Lemma sumCounts_nonneg (l : list Process) :
  Forall (λ p, 0 ≤ Count p) l → 0 ≤ sumCounts l.
Proof. induction 1; simpl; lia. Qed.

Lemma sumCounts_elem (l : list Process) (p : Process) :
  Forall (λ p, 0 ≤ Count p) l → p ∈ l → Count p ≤ sumCounts l.
Proof.
  induction 1 as [|q l Hq Hl IH]; intros Hin.
  - by apply elem_of_nil in Hin.
  - pose proof (sumCounts_nonneg l Hl).
    apply elem_of_cons in Hin as [->|Hin]; simpl; [lia|].
    specialize (IH Hin). lia.
Qed.

Lemma totalOf_acc (l : list Process) (acc : Z) :
  Forall (λ p, 0 ≤ Count p) l → 0 ≤ acc → acc + sumCounts l < 2 ^ 63 →
  foldl (λ total p, wrap (total + Count p)) acc l = acc + sumCounts l.
Proof.
  intros Hl. revert acc.
  induction Hl as [|q l Hq Hl IH]; intros acc Hacc Hb; simpl in *; [lia|].
  pose proof (sumCounts_nonneg l Hl).
  rewrite wrap_small by lia. rewrite IH by lia. lia.
Qed.

Lemma totalOf_sumCounts (l : list Process) :
  Forall (λ p, 0 ≤ Count p) l → sumCounts l < 2 ^ 63 →
  totalOf l = sumCounts l.
Proof. intros Hl Hb. unfold totalOf. rewrite totalOf_acc; [lia|done|lia|lia]. Qed.

Lemma sumCounts_cons (p : Process) (l : list Process) :
  sumCounts (p :: l) = Count p + sumCounts l.
Proof. done. Qed.

Lemma sumCounts_insert (pm : gmap string Process) (pid : string) (p : Process) :
  sumCounts (map_to_list (<[pid := p]> pm)).*2 =
  sumCounts (map_to_list pm).*2 + Count p - from_option Count 0 (pm !! pid).
Proof.
  destruct (pm !! pid) as [q|] eqn:Hq; simpl.
  - rewrite <-insert_delete_eq.
    rewrite (sumCounts_Permutation _ ((pid, p) :: map_to_list (delete pid pm)).*2)
      by (apply fmap_Permutation, map_to_list_insert, lookup_delete_eq).
    rewrite <-(sumCounts_Permutation _ _
                 (fmap_Permutation snd _ _ (map_to_list_delete pm pid q Hq))).
    rewrite !fmap_cons, !sumCounts_cons. simpl. lia.
  - rewrite (sumCounts_Permutation _ _
               (fmap_Permutation snd _ _ (map_to_list_insert pm pid p Hq))).
    rewrite fmap_cons, sumCounts_cons. simpl. lia.
Qed.

Lemma values_nonneg (pm : gmap string Process) :
  (∀ pid p, pm !! pid = Some p → 0 ≤ Count p) →
  Forall (λ p, 0 ≤ Count p) (map_to_list pm).*2.
Proof.
  intros H. apply Forall_forall. intros p Hp.
  apply list_elem_of_fmap in Hp as ([k q] & -> & Hin).
  apply elem_of_map_to_list in Hin. by eapply H.
Qed.

Lemma StronglySorted_lookup_lt {A} (R : relation A) (l : list A) (i j : nat) (x y : A) :
  StronglySorted R l → (i < j)%nat → l !! i = Some x → l !! j = Some y → R x y.
Proof.
  intros Hs. revert i j. induction Hs as [|a l Hs IH Ha]; intros i j Hij Hi Hj.
  - done.
  - destruct j as [|j]; [lia|]. simpl in Hj. destruct i as [|i]; simpl in Hi.
    + injection Hi as <-. eapply Forall_forall; [exact Ha|].
      by eapply list_elem_of_lookup_2.
    + apply (IH i j); [lia|done|done].
Qed.

Section CommandFacts.
Context `{W : World}.
Variable strings_Fields : string → list string.
Variable strconv_Itoa : Z → string.

Lemma scanLine_None (processMap : gmap string Process) (m : string) :
  scanLine strings_Fields processMap m = None ↔
  (length (strings_Fields m) < 2)%nat.
Proof.
  unfold scanLine.
  destruct (decide (length (strings_Fields m) = 3%nat)) as [H3|H3].
  - split; [done|lia].
  - destruct (strings_Fields m) as [|name [|pid r]]; simpl;
      (split; [done || lia | done || lia]).
Qed.

Lemma scanLines_None (lines : list string) (processMap : gmap string Process) :
  scanLines strings_Fields lines processMap = None ↔
  ∃ m, m ∈ lines ∧ (length (strings_Fields m) < 2)%nat.
Proof.
  revert processMap. induction lines as [|m rest IH]; intros processMap; simpl.
  - split; [done|]. intros (m & Hm & _). by apply elem_of_nil in Hm.
  - destruct (scanLine strings_Fields processMap m) as [pm'|] eqn:Hl.
    + rewrite IH. split.
      * intros (m' & Hm' & Hs). exists m'. split; [by apply elem_of_cons; right|done].
      * intros (m' & Hm' & Hs). apply elem_of_cons in Hm' as [->|Hm'].
        -- apply scanLine_None with (processMap := processMap) in Hs. congruence.
        -- by exists m'.
    + split; [|done]. intros _. exists m. split; [apply elem_of_cons; by left|].
      by apply scanLine_None in Hl.
Qed.

Lemma counted_cons_skip (m : string) (rest : list string) :
  length (strings_Fields m) = 3%nat →
  counted strings_Fields (m :: rest) = counted strings_Fields rest.
Proof. intros H3. unfold counted. rewrite fmap_cons. by rewrite filter_cons_False by (intros H; by apply H). Qed.

Lemma counted_cons_keep (m : string) (rest : list string) :
  length (strings_Fields m) ≠ 3%nat →
  counted strings_Fields (m :: rest) =
  strings_Fields m :: counted strings_Fields rest.
Proof. intros H3. unfold counted. rewrite fmap_cons. by rewrite filter_cons_True. Qed.

Lemma counted_length (lines : list string) :
  (length (counted strings_Fields lines) ≤ length lines)%nat.
Proof.
  unfold counted. etrans; [apply length_filter|]. by rewrite length_fmap.
Qed.

Lemma linesOf_cons_skip (pid m : string) (rest : list string) :
  length (strings_Fields m) = 3%nat →
  linesOf strings_Fields pid (m :: rest) = linesOf strings_Fields pid rest.
Proof. intros H3. unfold linesOf. by rewrite counted_cons_skip. Qed.

Lemma linesOf_cons_same (pid m : string) (rest : list string) :
  length (strings_Fields m) ≠ 3%nat →
  strings_Fields m !! 1%nat = Some pid →
  linesOf strings_Fields pid (m :: rest) =
  strings_Fields m :: linesOf strings_Fields pid rest.
Proof.
  intros H3 Hp. unfold linesOf. rewrite counted_cons_keep by done.
  by rewrite filter_cons_True.
Qed.

Lemma linesOf_cons_other (pid m : string) (rest : list string) :
  strings_Fields m !! 1%nat ≠ Some pid →
  linesOf strings_Fields pid (m :: rest) = linesOf strings_Fields pid rest.
Proof.
  intros Hp. unfold linesOf.
  destruct (decide (length (strings_Fields m) = 3%nat)) as [H3|H3].
  - by rewrite counted_cons_skip.
  - rewrite counted_cons_keep by done. by rewrite filter_cons_False.
Qed.

Lemma linesOf_length (pid : string) (lines : list string) :
  (length (linesOf strings_Fields pid lines) ≤ length lines)%nat.
Proof.
  unfold linesOf. etrans; [apply length_filter|]. apply counted_length.
Qed.

Lemma scanLines_lookup (lines : list string) (pm0 pm : gmap string Process) :
  scanLines strings_Fields lines pm0 = Some pm →
  Z.of_nat (length lines) < 2 ^ 63 →
  (∀ pid p, pm0 !! pid = Some p →
            0 ≤ Count p ∧ Count p + Z.of_nat (length lines) < 2 ^ 63) →
  ∀ pid,
    pm !! pid =
    match pm0 !! pid with
    | Some p =>
        Some (mkProcess (PID p) (Name p)
                (Count p + Z.of_nat (length (linesOf strings_Fields pid lines))))
    | None =>
        match linesOf strings_Fields pid lines with
        | [] => None
        | f :: _ =>
            Some (mkProcess pid (default "" (f !! 0%nat))
                    (Z.of_nat (length (linesOf strings_Fields pid lines))))
        end
    end.
Proof.
  revert pm0. induction lines as [|m rest IH]; intros pm0 Hs Hlen Hb pid.
  - simpl in Hs. injection Hs as <-.
    change (linesOf strings_Fields pid []) with (@nil (list string)).
    destruct (pm0 !! pid) as [[a b c]|]; simpl; [|done].
    do 2 f_equal. lia.
  - simpl in Hs, Hlen.
    destruct (scanLine strings_Fields pm0 m) as [pm1|] eqn:Hl; [|done].
    unfold scanLine in Hl.
    destruct (decide (length (strings_Fields m) = 3%nat)) as [H3|H3].
    + injection Hl as <-. rewrite linesOf_cons_skip by done.
      apply IH; [done|lia|].
      intros q p Hq. destruct (Hb q p Hq). simpl in *. lia.
    + destruct (strings_Fields m) as [|name [|pid' r]] eqn:Hf; [done|done|].
      injection Hl as <-.
      assert (Hb1 : ∀ q p,
        (<[pid' := mkProcess
             (PID (default (mkProcess pid' name 0) (pm0 !! pid')))
             (Name (default (mkProcess pid' name 0) (pm0 !! pid')))
             (wrap (Count (default (mkProcess pid' name 0) (pm0 !! pid')) + 1))]>
           pm0) !! q = Some p →
        0 ≤ Count p ∧ Count p + Z.of_nat (length rest) < 2 ^ 63).
      { intros q p Hq. destruct (decide (q = pid')) as [->|Hne].
        - rewrite lookup_insert_eq in Hq. injection Hq as <-. simpl.
          destruct (pm0 !! pid') as [p0|] eqn:H0; simpl.
          + destruct (Hb pid' p0 H0). simpl in *.
            rewrite wrap_small by lia. lia.
          + rewrite wrap_small by lia. lia.
        - rewrite lookup_insert_ne in Hq by done.
          destruct (Hb q p Hq). simpl in *. lia. }
      specialize (IH _ Hs ltac:(lia) Hb1 pid). rewrite IH. clear IH Hb1.
      destruct (decide (pid = pid')) as [->|Hne].
      * rewrite lookup_insert_eq.
        rewrite (linesOf_cons_same pid' m rest) by (rewrite Hf; done).
        rewrite Hf. simpl.
        destruct (pm0 !! pid') as [p0|] eqn:H0; simpl.
        -- destruct (Hb pid' p0 H0). simpl in *.
           rewrite wrap_small by lia. do 2 f_equal. lia.
        -- rewrite wrap_small by lia. do 2 f_equal. lia.
      * rewrite lookup_insert_ne by done.
        rewrite (linesOf_cons_other pid m rest)
          by (rewrite Hf; simpl; congruence).
        done.
Qed.

Lemma scanLines_sum (lines : list string) (pm0 pm : gmap string Process) :
  scanLines strings_Fields lines pm0 = Some pm →
  (∀ pid p, pm0 !! pid = Some p → 0 ≤ Count p) →
  sumCounts (map_to_list pm0).*2 + Z.of_nat (length lines) < 2 ^ 63 →
  (∀ pid p, pm !! pid = Some p → 0 ≤ Count p) ∧
  sumCounts (map_to_list pm).*2 =
  sumCounts (map_to_list pm0).*2 + Z.of_nat (length (counted strings_Fields lines)).
Proof.
  revert pm0. induction lines as [|m rest IH]; intros pm0 Hs Hnn Hb.
  - simpl in Hs. injection Hs as <-. split; [done|].
    change (counted strings_Fields []) with (@nil (list string)). simpl. lia.
  - simpl in Hs, Hb.
    destruct (scanLine strings_Fields pm0 m) as [pm1|] eqn:Hl; [|done].
    unfold scanLine in Hl.
    destruct (decide (length (strings_Fields m) = 3%nat)) as [H3|H3].
    + injection Hl as <-. rewrite counted_cons_skip by done.
      apply IH; [done|done|lia].
    + rewrite counted_cons_keep by done.
      destruct (strings_Fields m) as [|name [|pid' r]] eqn:Hf; [done|done|].
      injection Hl as <-.
      pose proof (sumCounts_nonneg _ (values_nonneg pm0 Hnn)) as H0.
      assert (Hc : 0 ≤ Count (default (mkProcess pid' name 0) (pm0 !! pid')) ∧
                   Count (default (mkProcess pid' name 0) (pm0 !! pid')) =
                   from_option Count 0 (pm0 !! pid') ∧
                   from_option Count 0 (pm0 !! pid') ≤ sumCounts (map_to_list pm0).*2).
      { destruct (pm0 !! pid') as [q|] eqn:Hq; simpl; [|lia].
        split; [by eapply Hnn|]. split; [done|].
        apply sumCounts_elem; [by apply values_nonneg|].
        apply list_elem_of_fmap. exists (pid', q). split; [done|].
        by apply elem_of_map_to_list. }
      destruct Hc as (Hc1 & Hc2 & Hc3).
      match type of Hs with scanLines _ _ ?pm1 = _ =>
        destruct (IH pm1 Hs) as [Hnn' Hsum] end.
      * intros q p Hq. destruct (decide (q = pid')) as [->|Hne].
        -- rewrite lookup_insert_eq in Hq. injection Hq as <-. simpl.
           rewrite wrap_small by lia. lia.
        -- rewrite lookup_insert_ne in Hq by done. by eapply Hnn.
      * rewrite sumCounts_insert. simpl. rewrite wrap_small by lia. lia.
      * split; [done|]. rewrite Hsum, sumCounts_insert. simpl.
        rewrite wrap_small by lia. simpl length. lia.
Qed.

Lemma Run_Rendered_inv (goos : string) (pipe : res unit) (lines : list string)
    (t : table) :
  Run strings_Fields strconv_Itoa goos pipe lines = Rendered t →
  ∃ processMap,
    scanLines strings_Fields lines ∅ = Some processMap ∧
    t = mkTable ["PID"; "Name"; "Descriptors"]
          [""; "Total"; strconv_Itoa (totalOf (sortedProcesses processMap))]
          ((λ p, [PID p; Name p; strconv_Itoa (Count p)]) <$>
             sortedProcesses processMap).
Proof.
  unfold Run. destruct (decide (goos = "windows")); [done|].
  destruct pipe as [u|e]; [|done].
  destruct (scanLines strings_Fields lines ∅) as [pm|]; [|done].
  intros [= <-]. by exists pm.
Qed.

(** The processes of the table, from the lines: one for each PID of a
    counted line, named by the first such line and counting them all. *)
Lemma sortedProcesses_elem (lines : list string) (processMap : gmap string Process)
    (p : Process) :
  scanLines strings_Fields lines ∅ = Some processMap →
  Z.of_nat (length lines) < 2 ^ 63 →
  p ∈ sortedProcesses processMap ↔
  ∃ name r,
    head (linesOf strings_Fields (PID p) lines) = Some (name :: PID p :: r) ∧
    Name p = name ∧
    Count p = Z.of_nat (length (linesOf strings_Fields (PID p) lines)).
Proof.
  intros Hs Hlen.
  pose proof (scanLines_lookup lines ∅ processMap Hs Hlen) as Hl.
  assert (Hl' : ∀ pid, processMap !! pid =
    match linesOf strings_Fields pid lines with
    | [] => None
    | f :: _ => Some (mkProcess pid (default "" (f !! 0%nat))
                        (Z.of_nat (length (linesOf strings_Fields pid lines))))
    end).
  { intros pid. rewrite Hl; [by rewrite lookup_empty|].
    intros q p0. by rewrite lookup_empty. }
  clear Hl.
  assert (Hhd : ∀ pid f l, linesOf strings_Fields pid lines = f :: l →
                           ∃ name r, f = name :: pid :: r).
  { intros pid f l Hf.
    assert (Hin : f ∈ linesOf strings_Fields pid lines)
      by (rewrite Hf; apply elem_of_cons; by left).
    unfold linesOf in Hin. apply list_elem_of_filter in Hin as [Hp _].
    destruct f as [|name [|pid0 r]]; simpl in Hp; [done|done|].
    injection Hp as ->. by exists name, r. }
  unfold sortedProcesses. rewrite sort_Slice_Permutation.
  rewrite list_elem_of_fmap. split.
  - intros ([k q] & -> & Hin). apply elem_of_map_to_list in Hin.
    rewrite Hl' in Hin. simpl.
    destruct (linesOf strings_Fields k lines) as [|f l] eqn:Hf; [done|].
    injection Hin as <-. simpl. rewrite Hf.
    destruct (Hhd k f l Hf) as (name & r & ->). by exists name, r.
  - intros (name & r & Hh & Hn & Hc). exists (PID p, p). split; [done|].
    apply elem_of_map_to_list. rewrite Hl'.
    destruct (linesOf strings_Fields (PID p) lines) as [|f l] eqn:Hf; [done|].
    simpl in Hh. injection Hh as ->. simpl.
    destruct p as [a b c]. simpl in *. by subst.
Qed.

Lemma sortedProcesses_NoDup (lines : list string) (processMap : gmap string Process) :
  scanLines strings_Fields lines ∅ = Some processMap →
  Z.of_nat (length lines) < 2 ^ 63 →
  NoDup (PID <$> sortedProcesses processMap).
Proof.
  intros Hs Hlen.
  pose proof (scanLines_lookup lines ∅ processMap Hs Hlen) as Hl.
  unfold sortedProcesses. rewrite sort_Slice_Permutation.
  assert (Heq : PID <$> (map_to_list processMap).*2 = (map_to_list processMap).*1).
  { rewrite <-list_fmap_compose. apply Forall_fmap_ext_1, Forall_forall.
    intros [k q] Hin. simpl. apply elem_of_map_to_list in Hin.
    rewrite Hl in Hin by (intros ? ?; by rewrite lookup_empty).
    rewrite lookup_empty in Hin.
    destruct (linesOf strings_Fields k lines); [done|]. by injection Hin as <-. }
  rewrite Heq. apply NoDup_fst_map_to_list.
Qed.

End CommandFacts.
End LsofFacts.

Section LsofCommand.
Import Lsof LsofFacts.
Context `{W : World}.
Variable strings_Fields : string → list string.
Variable strconv_Itoa : Z → string.

(** X11. [lsof] panics on an index out of range exactly when it is not
    stopped before the scan (on windows, or by a failed pipe) and some
    line of the output has fewer than two fields, an empty line for
    one; a line of three fields is never the cause. *)
Theorem lsof_short_line_panics (goos : string) (pipe : res unit)
    (lines : list string) :
  Run strings_Fields strconv_Itoa goos pipe lines = Panic ↔
  goos ≠ "windows" ∧ (∃ u, pipe = Ok u) ∧
  ∃ m, m ∈ lines ∧ (length (strings_Fields m) < 2)%nat.
Proof.
  unfold Run. destruct (decide (goos = "windows")) as [Hw|Hw].
  - split; [done|]. by intros [? _].
  - destruct pipe as [u|e].
    + destruct (scanLines strings_Fields lines ∅) as [pm|] eqn:Hs.
      * split; [done|]. intros (_ & _ & Hm).
        apply scanLines_None with (processMap := ∅) in Hm. congruence.
      * split; [|done]. intros _. split; [done|]. split; [by exists u|].
        by apply scanLines_None in Hs.
    + split; [done|]. by intros (_ & [u Hu] & _).
Qed.

(** X12. The table of [lsof] has one row for each PID (the second field)
    found on a counted line, a line whose number of fields is not three,
    and no other row: the row gives the PID, the command (the first
    field) of the first counted line with that PID, and the number of
    counted lines with that PID.  No PID has two rows. *)
Theorem lsof_rows (goos : string) (pipe : res unit) (lines : list string)
    (t : table) :
  Run strings_Fields strconv_Itoa goos pipe lines = Rendered t →
  Z.of_nat (length lines) < 2 ^ 63 →
  (∀ row, row ∈ rows t ↔
     ∃ pid name r,
       head (linesOf strings_Fields pid lines) = Some (name :: pid :: r) ∧
       row = [pid; name;
              strconv_Itoa (Z.of_nat (length (linesOf strings_Fields pid lines)))]) ∧
  NoDup ((λ row : list string, row !! 0%nat) <$> rows t).
Proof.
  intros Hrun Hlen.
  destruct (Run_Rendered_inv _ _ _ _ _ _ Hrun) as (pm & Hs & ->). simpl. split.
  - intros row. rewrite list_elem_of_fmap. split.
    + intros (p & -> & Hp).
      apply (sortedProcesses_elem strings_Fields lines pm p Hs Hlen) in Hp
        as (name & r & Hh & Hn & Hc).
      exists (PID p), name, r. split; [done|]. by rewrite Hn, Hc.
    + intros (pid & name & r & Hh & ->).
      exists (mkProcess pid name
                (Z.of_nat (length (linesOf strings_Fields pid lines)))).
      split; [done|].
      apply (sortedProcesses_elem strings_Fields lines pm _ Hs Hlen). simpl. by exists name, r.
  - rewrite <-list_fmap_compose.
    change ((λ row : list string, row !! 0%nat) ∘
            (λ p, [PID p; Name p; strconv_Itoa (Count p)]))
      with (Some ∘ PID).
    rewrite list_fmap_compose. apply NoDup_fmap_2; [apply _|].
    by apply (sortedProcesses_NoDup strings_Fields lines).
Qed.

(** X13. The total in the footer of the table is the number of counted
    lines, the lines whose number of fields is not three; it is also the
    sum of the counts of the rows. *)
Theorem lsof_total (goos : string) (pipe : res unit) (lines : list string)
    (t : table) :
  Run strings_Fields strconv_Itoa goos pipe lines = Rendered t →
  Z.of_nat (length lines) < 2 ^ 63 →
  footer t =
  [""; "Total"; strconv_Itoa (Z.of_nat (length (counted strings_Fields lines)))].
Proof.
  intros Hrun Hlen.
  destruct (Run_Rendered_inv _ _ _ _ _ _ Hrun) as (pm & Hs & ->). simpl.
  do 4 f_equal.
  pose proof (counted_length strings_Fields lines) as Hcl.
  destruct (scanLines_sum strings_Fields lines ∅ pm Hs) as [Hnn Hsum].
  { intros q p. by rewrite lookup_empty. }
  { rewrite map_to_list_empty. simpl. lia. }
  rewrite map_to_list_empty, fmap_nil in Hsum.
  change (sumCounts []) with 0 in Hsum.
  assert (Hperm : sortedProcesses pm ≡ₚ (map_to_list pm).*2)
    by apply sort_Slice_Permutation.
  rewrite totalOf_sumCounts.
  - rewrite (sumCounts_Permutation _ _ Hperm). lia.
  - rewrite Hperm. by apply values_nonneg.
  - rewrite (sumCounts_Permutation _ _ Hperm). lia.
Qed.

(** X14. The rows of the table are in ascending order of the number of
    counted lines of their PIDs, whatever the unstable sort does with
    equal counts. *)
Theorem lsof_rows_ascending (goos : string) (pipe : res unit)
    (lines : list string) (t : table) (i j : nat)
    (pid name n pid' name' n' : string) :
  Run strings_Fields strconv_Itoa goos pipe lines = Rendered t →
  Z.of_nat (length lines) < 2 ^ 63 →
  (i < j)%nat →
  rows t !! i = Some [pid; name; n] →
  rows t !! j = Some [pid'; name'; n'] →
  (length (linesOf strings_Fields pid lines) ≤
   length (linesOf strings_Fields pid' lines))%nat.
Proof.
  intros Hrun Hlen Hij Hi Hj.
  destruct (Run_Rendered_inv _ _ _ _ _ _ Hrun) as (pm & Hs & ->). simpl in Hi, Hj.
  rewrite list_lookup_fmap in Hi, Hj.
  destruct (sortedProcesses pm !! i) as [p|] eqn:Hpi; [|done].
  destruct (sortedProcesses pm !! j) as [p'|] eqn:Hpj; [|done].
  simpl in Hi, Hj. injection Hi as <- _ _. injection Hj as <- _ _.
  assert (Hsorted : StronglySorted (λ a b, Less b a = false) (sortedProcesses pm)).
  { apply sort_Slice_sorted; unfold Less; intros x y; [|intros z];
      rewrite ?Z.ltb_lt, ?Z.ltb_ge; lia. }
  pose proof (StronglySorted_lookup_lt _ _ i j p p' Hsorted Hij Hpi Hpj) as Hle.
  unfold Less in Hle. apply Z.ltb_ge in Hle.
  apply list_elem_of_lookup_2 in Hpi, Hpj.
  apply (sortedProcesses_elem strings_Fields lines pm p Hs Hlen) in Hpi as (? & ? & _ & _ & Hc).
  apply (sortedProcesses_elem strings_Fields lines pm p' Hs Hlen) in Hpj as (? & ? & _ & _ & Hc').
  lia.
Qed.

End LsofCommand.

(** ** The prompt for the start date *)

Lemma prefix_slice_app (a b : string) :
  (0 < String.length b)%nat →
  prefix_slice (String.length (a +:+ b) - 1) (a +:+ b)
  = a +:+ prefix_slice (String.length b - 1) b.
Proof.
  intros Hb. unfold prefix_slice. induction a as [|c a IH].
  - done.
  - change (String c a +:+ b) with (String c (a +:+ b)).
    change (String.length (String c (a +:+ b))) with (S (String.length (a +:+ b))).
    rewrite length_app_string in *.
    replace (S (String.length a + String.length b) - 1)%nat
      with (S (String.length a + String.length b - 1)) by lia.
    simpl. rewrite IH.
    by change (String c a +:+ String.substring 0 (String.length b - 1) b)
      with (String c (a +:+ String.substring 0 (String.length b - 1) b)).
Qed.

Lemma prefix_slice_all (s : string) : prefix_slice (String.length s) s = s.
Proof. unfold prefix_slice. induction s as [|c s IH]; simpl; by rewrite ?IH. Qed.

Section PromptFacts.
Import Prompt.
Context `{W : World}.
Variable Time : Type.
Variable today : Time.
Variable AddDate : Time → Z → Time.
Variable After : Time → Time → bool.
Variable Format : Time → string.
Variable ParseDate : string → option Time.
Variable string_of_rune : Z → string.

Local Abbreviation handle := (handle Time today AddDate After Format ParseDate string_of_rune).
Local Abbreviation loop := (loop Time today AddDate After Format ParseDate string_of_rune).
Local Abbreviation promptForFromDate :=
  (promptForFromDate Time today AddDate After Format ParseDate string_of_rune).


Lemma handle_current (s s' : state Time) (ev : Event) :
  After today today = false →
  handle s ev = Polling Time s' →
  After (current Time s) today = false →
  After (current Time s') today = false.
Proof.
  intros Ht Hh Hs. destruct ev as [key r shift|]; [|by injection Hh as <-].
  unfold handle, Prompt.handle in Hh.
  destruct (decide (key = KeyCtrlC)); [done|].
  destruct (decide (key = KeyEsc)); [by injection Hh as <-|].
  destruct (decide (key = KeyEnter)).
  { destruct (ParseDate _) as [t|]; [|by injection Hh as <-].
    destruct (After t today); [by injection Hh as <-|done]. }
  destruct (decide (key = KeyUp)).
  { injection Hh as <-. simpl. by destruct (After (AddDate _ _) today) eqn:Ha. }
  destruct (decide (key = KeyDown)).
  { destruct shift.
    - injection Hh as <-. simpl. by destruct (After (AddDate _ _) today) eqn:Ha.
    - destruct (After (AddDate _ _) today) eqn:Ha; by injection Hh as <-. }
  destruct (decide (key = KeyBackspace ∨ key = KeyBackspace2)); [by injection Hh as <-|].
  destruct (decide (r ≠ 0)); by injection Hh as <-.
Qed.


(** X16. The date the arrow keys move never passes today, whatever keys
    are pressed, given that today is not after itself. *)
Theorem arrow_date_not_after_today (newScreen init : option string)
    (events : list Event) (s : state Time) :
  After today today = false →
  promptForFromDate newScreen init events = Polling Time s →
  After (current Time s) today = false.
Proof.
  intros Ht. unfold promptForFromDate, Prompt.promptForFromDate.
  destruct newScreen; [done|]. destruct init; [done|].
  assert (H0 : After (current Time (mkState Time today (Format today) "")) today = false)
    by done.
  revert H0. generalize (mkState Time today (Format today) "").
  induction events as [|ev events IH]; intros s0 H0 Hl.
  - by injection Hl as <-.
  - simpl in Hl. destruct (handle s0 ev) as [s1|f| |] eqn:Hh; [|done..].
    apply (IH s1); [|done]. by apply (handle_current s0 s1 ev).
Qed.

(** X17. Backspace takes one byte off the input, not one character:
    after a typed rune it leaves the input as it was before only when
    the rune is written in a single byte, and otherwise leaves all but
    the last byte of the rune behind.  Neither key moves the date of the
    arrow keys. *)
Theorem backspace_takes_one_byte (s : state Time) (key : Key) (r : Z) (shift shift' : bool)
    (back : Key) (r' : Z) :
  key = KeyOther → r ≠ 0 →
  back = KeyBackspace ∨ back = KeyBackspace2 →
  (0 < String.length (string_of_rune r))%nat →
  ∃ s1 s2,
    handle s (EventKey key r shift) = Polling Time s1
    ∧ handle s1 (EventKey back r' shift') = Polling Time s2
    ∧ input Time s2
      = input Time s
        +:+ prefix_slice (String.length (string_of_rune r) - 1) (string_of_rune r)
    ∧ (String.length (string_of_rune r) = 1%nat → input Time s2 = input Time s)
    ∧ current Time s2 = current Time s.
Proof.
  intros -> Hr Hback Hlen.
  pose (s1 := mkState Time (current Time s) (input Time s +:+ string_of_rune r) "").
  exists s1,
    (mkState Time (current Time s1)
       (if (0 <? String.length (input Time s1))%nat
        then prefix_slice (String.length (input Time s1) - 1) (input Time s1)
        else input Time s1) "").
  split.
  { unfold handle, Prompt.handle. simpl.
    destruct (decide (r ≠ 0)); [reflexivity|done]. }
  split.
  { unfold handle, Prompt.handle.
    destruct (decide (back = KeyCtrlC)); [by destruct Hback; subst|].
    destruct (decide (back = KeyEsc)); [by destruct Hback; subst|].
    destruct (decide (back = KeyEnter)); [by destruct Hback; subst|].
    destruct (decide (back = KeyUp)); [by destruct Hback; subst|].
    destruct (decide (back = KeyDown)); [by destruct Hback; subst|].
    destruct (decide (back = KeyBackspace ∨ back = KeyBackspace2)); [reflexivity|done]. }
  simpl.
  assert (Hin : (if (0 <? String.length (input Time s +:+ string_of_rune r))%nat
                 then prefix_slice
                        (String.length (input Time s +:+ string_of_rune r) - 1)
                        (input Time s +:+ string_of_rune r)
                 else input Time s +:+ string_of_rune r)
                = input Time s
                  +:+ prefix_slice (String.length (string_of_rune r) - 1)
                        (string_of_rune r)).
  { rewrite prefix_slice_app by done.
    destruct (Nat.ltb_spec 0 (String.length (input Time s +:+ string_of_rune r)))
      as [_|Hz]; [done|].
    rewrite length_app_string in Hz. lia. }
  split; [exact Hin|]. split; [|done].
  intros H1. rewrite Hin, H1. simpl.
  unfold prefix_slice. destruct (string_of_rune r); simpl.
  - clear. induction (input Time s) as [|c a IH]; [done|].
    change (String c a +:+ "") with (String c (a +:+ "")). by rewrite IH.
  - clear. induction (input Time s) as [|c a IH]; [done|].
    change (String c a +:+ "") with (String c (a +:+ "")). by rewrite IH.
Qed.

End PromptFacts.

(** ** The properties in the example world *)

Lemma parseRecord_recordText_witness :
  parseRecord (W := Demo.W) (recordText Demo.fix_bug) = Some (subjectKept Demo.fix_bug).
Proof.
  apply (parseRecord_recordText (W := Demo.W) (recordText Demo.fix_bug) Demo.fix_bug);
    [vm_compute; reflexivity|..];
    apply (bool_decide_unpack _); vm_compute; exact I.
Defined.

Lemma fetch_reads_log_witness :
  fetchCommitsForBranch (W := Demo.W) "work/proj" "main" "2025-02-01" "2025-02-07"
  = Ok [Demo.add_test; Demo.fix_bug; Demo.bobs].
Proof.
  eapply (fetch_reads_log (W := Demo.W) "work/proj" "main" "2025-02-01" "2025-02-07" _
            [Demo.add_test; Demo.fix_bug; Demo.bobs]);
    [vm_compute; reflexivity|vm_compute; reflexivity|vm_compute; reflexivity|].
  intros c Hc.
  repeat (apply elem_of_cons in Hc as [->|Hc];
          [split; [apply (bool_decide_unpack _); vm_compute; exact I|];
           split; [apply (bool_decide_unpack _); vm_compute; exact I|];
           split; vm_compute; reflexivity|]).
  by apply elem_of_nil in Hc.
Defined.

Lemma local_clock_as_written_witness :
  ∃ t, parseCommitLocalClock "2025-02-03T14:18:00+01:00" = Some t
    ∧ GoTime.formatClock t = "14:18"
    ∧ GoTime.formatDate t = "2025-02-03"
    ∧ parseCommitLocalClock "2025-02-03T14:18:00Z" = Some t.
Proof.
  eexists. split; [vm_compute; reflexivity|].
  destruct (local_clock_as_written "2025-02-03T14:18:00+01:00" _
              ltac:(vm_compute; reflexivity)) as (Hc & Hd & _ & _ & Hz).
  split; [exact Hc|]. split; [exact Hd|].
  apply Hz; [vm_compute; reflexivity|vm_compute; lia].
Defined.

Lemma pretty_text_witness :
  printPretty (W := Demo.W) [Demo.proj_result; Demo.home_result]
  = Done (dayHeader "2025-02-03" ++
          renderFrom None
            (dayEntries (W := Demo.W)
               (buildDateMap [Demo.proj_result; Demo.home_result]) "2025-02-03")).
Proof.
  rewrite (pretty_text (W := Demo.W) [Demo.proj_result; Demo.home_result]).
  - vm_compute. reflexivity.
  - intros r c Hr Hc.
    apply elem_of_cons in Hr as [->|Hr].
    { vm_compute in Hc.
      apply elem_of_cons in Hc as [->|Hc]; [vm_compute; lia|].
      apply elem_of_cons in Hc as [->|Hc]; [vm_compute; lia|].
      by apply elem_of_nil in Hc. }
    apply list_elem_of_singleton in Hr as ->.
    vm_compute in Hc.
    apply elem_of_cons in Hc as [->|Hc]; [vm_compute; lia|].
    by apply elem_of_nil in Hc.
Defined.

Lemma missing_identity_is_fatal_witness :
  ∃ offender e',
    offender ∈ ["work/proj"; "work/anon"]
    ∧ getGitUserEmail (W := Demo.W) offender = Err e'
    ∧ Run (W := Demo.W) (Demo.flags false) ["work/proj"; "work/anon"]
      = FatalExit ("could not detect git user email: " +:+ e').
Proof.
  apply (missing_identity_is_fatal (W := Demo.W) (Demo.flags false)
           ["work/proj"; "work/anon"] "work/anon"
           "git user.email not set for repo work/anon").
  - right; left.
  - vm_compute. reflexivity.
Defined.

Lemma output_is_complete_witness :
  (∃ j, Run (W := Demo.W) (Demo.flags true) ["work/proj"; "work/empty"] = JSONOutput j)
  ∧ ∃ results,
      Forall2 (λ p r, appended (W := Demo.W) (Demo.flags true) p = Some r ∧ Path r = p)
        ["work/proj"; "work/empty"] results
      ∧ Run (W := Demo.W) (Demo.flags true) ["work/proj"; "work/empty"]
        = JSONOutput (encodeResults results).
Proof.
  destruct (output_is_complete (W := Demo.W) (Demo.flags true)
              ["work/proj"; "work/empty"]) as [Hall _]; [discriminate|].
  destruct Hall as (results & HF & Hrun).
  - apply Forall_cons. split; [vm_compute; eexists; reflexivity|].
    apply Forall_cons. split; [vm_compute; eexists; reflexivity|].
    apply Forall_nil_2.
  - split; [eexists; exact Hrun|].
    exists results. split; [exact HF|exact Hrun].
Defined.

Lemma lsof_rows_witness :
  (∀ row, row ∈ Lsof.rows Lsof.exampleTable ↔
     ∃ pid name r,
       head (Lsof.linesOf Lsof.spaceFields pid Lsof.exampleLines)
       = Some (name :: pid :: r) ∧
       row = [pid; name;
              Lsof.decimal
                (Z.of_nat (length (Lsof.linesOf Lsof.spaceFields pid Lsof.exampleLines)))]) ∧
  NoDup ((λ row : list string, row !! 0%nat) <$> Lsof.rows Lsof.exampleTable).
Proof.
  apply (lsof_rows (W := Demo.W) Lsof.spaceFields Lsof.decimal "linux" (Ok ())
           Lsof.exampleLines Lsof.exampleTable);
    [vm_compute; reflexivity|vm_compute; reflexivity].
Defined.

Lemma lsof_total_witness :
  Lsof.footer Lsof.exampleTable = [""; "Total"; "6"].
Proof.
  apply (lsof_total (W := Demo.W) Lsof.spaceFields Lsof.decimal "linux" (Ok ())
           Lsof.exampleLines Lsof.exampleTable);
    [vm_compute; reflexivity|vm_compute; reflexivity].
Defined.

Lemma lsof_rows_ascending_witness :
  (length (Lsof.linesOf Lsof.spaceFields "7" Lsof.exampleLines) ≤
   length (Lsof.linesOf Lsof.spaceFields "22" Lsof.exampleLines))%nat.
Proof.
  apply (lsof_rows_ascending (W := Demo.W) Lsof.spaceFields Lsof.decimal "linux" (Ok ())
           Lsof.exampleLines Lsof.exampleTable 0 2 "7" "cron" "1" "22" "vim" "3");
    [vm_compute; reflexivity|vm_compute; reflexivity|lia|reflexivity|reflexivity].
Defined.


Lemma arrow_date_not_after_today_witness :
  Prompt.promptForFromDate (W := Demo.W) Z Prompt.exampleToday Z.add Prompt.afterDay
    Lsof.decimal Prompt.parseDay Prompt.asciiRune None None
    [Prompt.EventKey Prompt.KeyDown 0 false; Prompt.EventKey Prompt.KeyUp 0 false;
     Prompt.EventKey Prompt.KeyDown 0 true]
  = Prompt.Polling Z (Prompt.mkState Z 20122 "20122" "")
  ∧ Prompt.afterDay
      (Prompt.current Z (Prompt.mkState Z 20122 "20122" "")) Prompt.exampleToday
    = false.
Proof.
  split; [vm_compute; reflexivity|].
  apply (arrow_date_not_after_today (W := Demo.W) Z Prompt.exampleToday Z.add
           Prompt.afterDay Lsof.decimal Prompt.parseDay Prompt.asciiRune None None
           [Prompt.EventKey Prompt.KeyDown 0 false; Prompt.EventKey Prompt.KeyUp 0 false;
            Prompt.EventKey Prompt.KeyDown 0 true]);
    vm_compute; reflexivity.
Defined.

Lemma backspace_takes_one_byte_witness :
  ∃ s1 s2,
    Prompt.handle (W := Demo.W) Z Prompt.exampleToday Z.add Prompt.afterDay
      Lsof.decimal Prompt.parseDay Prompt.asciiRune
      (Prompt.mkState Z 20122 "2012" "") (Prompt.EventKey Prompt.KeyOther 50 false)
    = Prompt.Polling Z s1
    ∧ Prompt.handle (W := Demo.W) Z Prompt.exampleToday Z.add Prompt.afterDay
        Lsof.decimal Prompt.parseDay Prompt.asciiRune
        s1 (Prompt.EventKey Prompt.KeyBackspace2 0 false)
      = Prompt.Polling Z s2
    ∧ Prompt.input Z s2
      = "2012" +:+ prefix_slice (String.length (Prompt.asciiRune 50) - 1)
                     (Prompt.asciiRune 50)
    ∧ (String.length (Prompt.asciiRune 50) = 1%nat → Prompt.input Z s2 = "2012")
    ∧ Prompt.current Z s2 = 20122.
Proof.
  apply (backspace_takes_one_byte (W := Demo.W) Z Prompt.exampleToday Z.add
           Prompt.afterDay Lsof.decimal Prompt.parseDay Prompt.asciiRune
           (Prompt.mkState Z 20122 "2012" "") Prompt.KeyOther 50 false false
           Prompt.KeyBackspace2 0);
    [reflexivity|lia|right; reflexivity|vm_compute; lia].
Defined.
